(** * Cluster disk and node manager of the blobstore cluster manager

    A shallow embedding of [blobstore/clustermgr/cluster/cluster.go]:
    the disk status ladder ([SetStatus]), the registration check
    ([CheckDiskInfoDuplicated]), the readonly switch, the dropping and
    dropped handlers of disks and nodes, the heartbeat sweep
    ([GetHeartbeatChangeDisks]) and the writable space estimator
    ([calculateWritable]).

    Locks are not modelled: every handler is embedded as the sequential
    function it is when it runs alone.  A Go [panic] (nil dereference,
    division by zero, index out of range) is the outcome [Panics]. *)

From Stdlib Require Import ZArith Lia Sorting.Permutation.
From stdpp Require Import gmap strings list fin_maps pretty sorting.

Open Scope Z_scope.

(** ** Identifiers and enumerations of package [proto] *)

Definition DiskID := N.
Definition NodeID := N.
Definition NodeSetID := N.
Definition DiskSetID := N.
Definition DiskStatus := N.
Definition NodeStatus := N.
Definition DiskType := N.
Definition NodeRole := N.

(** Modelled from the spec: the constants of [proto.DiskStatus],
    [proto.NodeStatus] and [proto.InvalidNodeID], whose declarations are
    not part of the sources at hand.  Only their being pairwise distinct
    matters below. *)
Definition DiskStatusNormal : DiskStatus := 1%N.
Definition DiskStatusBroken : DiskStatus := 2%N.
Definition DiskStatusRepairing : DiskStatus := 3%N.
Definition DiskStatusRepaired : DiskStatus := 4%N.
Definition DiskStatusDropped : DiskStatus := 5%N.

Definition NodeStatusNormal : NodeStatus := 1%N.
Definition NodeStatusDropped : NodeStatus := 2%N.

Definition InvalidNodeID : NodeID := 0%N.

Definition nullNodeSetID : NodeSetID := 0%N.
Definition nullDiskSetID : DiskSetID := 0%N.

(** ** Errors *)

Inductive error : Type :=
| ErrInvalidStatus
| ErrCMDiskNotFound
| ErrCMNodeNotFound
| ErrChangeDiskStatusNotAllow
| ErrExist
| ErrIllegalArguments
| ErrDiskAbnormalOrNotReadOnly
| ErrCMNodeIsDropping
| ErrBackend (code : N)
| ErrInfo (cause : error) (msg : string)
| ErrNew (msg : string).

(** A Go [error] value: [None] is [nil]. *)
Definition goerror := option error.

(** ** Disks and nodes *)

(** The heartbeat payload carried by [diskItemInfo.extraInfo]. *)
Inductive heartbeatInfo : Type :=
| DiskHeartBeatInfo (Free Size FreeChunkCnt OversoldFreeChunkCnt MaxChunkCnt : Z)
| ShardNodeDiskHeartbeatInfo (Free Size FreeShardCnt MaxShardCnt : Z).

Record DiskInfo : Type := mkDiskInfo {
  dNodeID : NodeID;
  dHost : string;
  dPath : string;
  dIdc : string;
  dRack : string;
  dStatus : DiskStatus;
  dReadonly : bool;
  dDiskSetID : DiskSetID
}.

(** Times are nanoseconds since the epoch; the zero [time.Time] is not
    distinguished. *)
Record diskItem : Type := mkDiskItem {
  diskID : DiskID;
  info : DiskInfo;
  extraInfo : option heartbeatInfo;
  dropping : bool;
  expireTime : Z;
  lastExpireTime : Z
}.

Record NodeInfo : Type := mkNodeInfo {
  nNodeID : NodeID;
  nHost : string;
  nIdc : string;
  nRack : string;
  nDiskType : DiskType;
  nRole : NodeRole;
  nStatus : NodeStatus;
  nNodeSetID : NodeSetID
}.

(** [nodeItem.disks] is a Go map from disk ids to the very [diskItem]
    objects that [manager.allDisks] holds: the node keeps the ids and every
    access goes through [allDisks], which is the shared store. *)
Record nodeItem : Type := mkNodeItem {
  nodeID : NodeID;
  ninfo : NodeInfo;
  disks : gset DiskID;
  ndropping : bool
}.

Definition set_dStatus (s : DiskStatus) (i : DiskInfo) : DiskInfo :=
  mkDiskInfo (dNodeID i) (dHost i) (dPath i) (dIdc i) (dRack i) s
             (dReadonly i) (dDiskSetID i).

Definition set_dReadonly (b : bool) (i : DiskInfo) : DiskInfo :=
  mkDiskInfo (dNodeID i) (dHost i) (dPath i) (dIdc i) (dRack i) (dStatus i)
             b (dDiskSetID i).

Definition set_info (i : DiskInfo) (d : diskItem) : diskItem :=
  mkDiskItem (diskID d) i (extraInfo d) (dropping d) (expireTime d)
             (lastExpireTime d).

Definition set_dropping (b : bool) (d : diskItem) : diskItem :=
  mkDiskItem (diskID d) (info d) (extraInfo d) b (expireTime d)
             (lastExpireTime d).

Definition set_status (s : DiskStatus) (d : diskItem) : diskItem :=
  set_info (set_dStatus s (info d)) d.

Definition set_readonly (b : bool) (d : diskItem) : diskItem :=
  set_info (set_dReadonly b (info d)) d.

Definition set_nStatus (s : NodeStatus) (i : NodeInfo) : NodeInfo :=
  mkNodeInfo (nNodeID i) (nHost i) (nIdc i) (nRack i) (nDiskType i) (nRole i)
             s (nNodeSetID i).

Definition set_ninfo (i : NodeInfo) (n : nodeItem) : nodeItem :=
  mkNodeItem (nodeID n) i (disks n) (ndropping n).

Definition set_ndropping (b : bool) (n : nodeItem) : nodeItem :=
  mkNodeItem (nodeID n) (ninfo n) (disks n) b.

(** Modelled from the spec: [diskItem.needFilter], declared outside the
    sources at hand.  A filterable disk is one in Normal, Broken or
    Repairing, that is, neither Repaired nor Dropped. *)
Definition needFilter (d : diskItem) : bool :=
  negb (N.eqb (dStatus (info d)) DiskStatusRepaired)
  && negb (N.eqb (dStatus (info d)) DiskStatusDropped).

(** Modelled from the spec: [diskItem.isExpire], declared outside the
    sources at hand.  A disk is expired once the clock has passed its
    [expireTime]. *)
Definition isExpire (now : Z) (d : diskItem) : bool := expireTime d <? now.

(** Modelled from the spec: [nodeItem.isUsingStatus], declared outside the
    sources at hand.  A node is either Normal or Dropped and is in use
    unless it is Dropped. *)
Definition isUsingStatus (n : nodeItem) : bool :=
  negb (N.eqb (nStatus (ninfo n)) NodeStatusDropped).

(** Modelled from the spec: the keys of [hostPathFilter], built by the
    [genFilterKey] methods declared outside the sources at hand.  A disk is
    keyed by its host and path, a node by its host and disk type. *)
Inductive filterKey : Type :=
| DiskKey (host path : string)
| NodeKey (host : string) (diskType : DiskType).

Definition filterKey_to_sum (k : filterKey) : (string * string) + (string * N) :=
  match k with
  | DiskKey h p => inl (h, p)
  | NodeKey h t => inr (h, t)
  end.

Definition filterKey_of_sum (s : (string * string) + (string * N)) : filterKey :=
  match s with
  | inl (h, p) => DiskKey h p
  | inr (h, t) => NodeKey h t
  end.

#[global] Instance filterKey_eq_dec : EqDecision filterKey.
Proof. solve_decision. Defined.

#[global] Instance filterKey_countable : Countable filterKey.
Proof.
  apply (inj_countable' filterKey_to_sum filterKey_of_sum).
  intros [h p | h t]; reflexivity.
Defined.

Definition diskFilterKey (d : diskItem) : filterKey :=
  DiskKey (dHost (info d)) (dPath (info d)).

Definition nodeFilterKey (n : nodeItem) : filterKey :=
  NodeKey (nHost (ninfo n)) (nDiskType (ninfo n)).

(** ** The status ladder *)

(** [validSetStatus], the table of ordinals. *)
Definition validSetStatus (s : DiskStatus) : option Z :=
  if N.eqb s DiskStatusNormal then Some 0
  else if N.eqb s DiskStatusBroken then Some 1
  else if N.eqb s DiskStatusRepairing then Some 2
  else if N.eqb s DiskStatusRepaired then Some 3
  else if N.eqb s DiskStatusDropped then Some 4
  else None.

(** ** Machine integers and time *)

(** The value an [int64] (and an [int], on the 64-bit platforms the manager
    runs on) holds after an arithmetic operation whose exact result is
    [z]. *)
Definition wrap64 (z : Z) : Z := (z + 2 ^ 63) mod 2 ^ 64 - 2 ^ 63.

Definition MaxInt64 : Z := 2 ^ 63 - 1.
Definition MinInt64 : Z := - 2 ^ 63.

(** [time.Second], in nanoseconds, the unit of [time.Duration]. *)
Definition Second : Z := 1000000000.

(** [t.Sub(u)]: the difference of two instants, which saturates at the
    ends of [time.Duration]. *)
Definition time_Sub (t u : Z) : Z :=
  if t - u <? MinInt64 then MinInt64
  else if MaxInt64 <? t - u then MaxInt64
  else t - u.

(** [time.Since(t)], with the reading [now] of the clock made explicit. *)
Definition time_Since (now t : Z) : Z := time_Sub now t.

Record HeartbeatEvent : Type := mkHeartbeatEvent {
  evDiskID : DiskID;
  IsAlive : bool
}.

(** ** Outcomes *)

(** What a handler does to a state of type [S]: it returns a value and
    leaves a state, or the Go runtime panics. *)
Inductive outcome (S A : Type) : Type :=
| Returns (a : A) (s : S)
| Panics.

Arguments Returns {S A} a s.
Arguments Panics {S A}.

(** ** Collaborators *)

(** [persistentHandler], the interface of the persistence backend, over a
    backend state [P].  A write returns its error and the backend state it
    leaves; the two lookups only read. *)
Class persistentHandler (P : Type) : Type := {
  updateDiskNoLocked : diskItem -> P -> goerror * P;
  updateDiskStatusNoLocked : DiskID -> DiskStatus -> P -> goerror * P;
  addDiskNoLocked : diskItem -> P -> goerror * P;
  updateNodeNoLocked : nodeItem -> P -> goerror * P;
  addDroppingDisk : DiskID -> P -> goerror * P;
  addDroppingNode : NodeID -> P -> goerror * P;
  isDroppingDisk : DiskID -> P -> bool * goerror;
  isDroppingNode : NodeID -> P -> bool * goerror;
  droppedDisk : DiskID -> P -> goerror * P;
  droppedNode : NodeID -> P -> goerror * P
}.

(** The methods of [topoMgr] that the handlers call, over a topology state
    [T]; the type and its methods are declared outside the sources at
    hand. *)
Class topoMgrAPI (T : Type) : Type := {
  AllocNodeSetID : NodeInfo -> T -> NodeSetID * T;
  AddNodeToNodeSet : nodeItem -> T -> T;
  AddDiskToDiskSet : DiskType -> NodeSetID -> diskItem -> T -> T;
  RemoveDiskFromDiskSet : DiskType -> NodeSetID -> diskItem -> T -> T;
  RemoveNodeFromNodeSet : nodeItem -> T -> T
}.

(** The order in which a Go [range] visits the keys of a map is not
    specified: it is a parameter, some enumeration of the keys. *)
Class mapRange : Type := {
  rangeKeys : gset N -> list N;
  rangeKeys_perm : forall s : gset N, Permutation (rangeKeys s) (elements s)
}.

(** ** Configuration *)

(** [codemode.Tactic], of which the estimator reads [N], [M] and [L]; a
    configured code mode is identified with its tactic. *)
Record Tactic : Type := mkTactic {
  Tactic_N : Z;
  Tactic_M : Z;
  Tactic_L : Z
}.

Record DiskMgrConfig : Type := mkDiskMgrConfig {
  HostAware : bool;
  RackAware : bool;
  HeartbeatExpireIntervalS : Z;
  IDC : list string;
  CodeModes : list Tactic;
  ChunkSize : Z;
  ShardSize : Z
}.

(** Values stored in [hostPathFilter]. *)
Inductive filterValue : Type :=
| DiskEntry
| NodeEntry (id : NodeID).

(** ** The manager *)

Section Manager.

Context {P T : Type} {PH : persistentHandler P} {TM : topoMgrAPI T}
        {MR : mapRange}.

Record manager : Type := mkManager {
  allDisks : gmap DiskID diskItem;
  allNodes : gmap NodeID nodeItem;
  topoMgr : T;
  hostPathFilter : gmap filterKey filterValue;
  pendingEntries : gmap string goerror;
  persistent : P;
  cfg : DiskMgrConfig
}.

Definition set_allDisks (v : gmap DiskID diskItem) (d : manager) : manager :=
  mkManager v (allNodes d) (topoMgr d) (hostPathFilter d) (pendingEntries d)
            (persistent d) (cfg d).

Definition set_allNodes (v : gmap NodeID nodeItem) (d : manager) : manager :=
  mkManager (allDisks d) v (topoMgr d) (hostPathFilter d) (pendingEntries d)
            (persistent d) (cfg d).

Definition set_topoMgr (v : T) (d : manager) : manager :=
  mkManager (allDisks d) (allNodes d) v (hostPathFilter d) (pendingEntries d)
            (persistent d) (cfg d).

Definition set_hostPathFilter (v : gmap filterKey filterValue) (d : manager)
  : manager :=
  mkManager (allDisks d) (allNodes d) (topoMgr d) v (pendingEntries d)
            (persistent d) (cfg d).

Definition set_pendingEntries (v : gmap string goerror) (d : manager)
  : manager :=
  mkManager (allDisks d) (allNodes d) (topoMgr d) (hostPathFilter d) v
            (persistent d) (cfg d).

Definition set_persistent (v : P) (d : manager) : manager :=
  mkManager (allDisks d) (allNodes d) (topoMgr d) (hostPathFilter d)
            (pendingEntries d) v (cfg d).

Definition getDisk (d : manager) (id : DiskID) : option diskItem :=
  allDisks d !! id.

Definition getNode (d : manager) (id : NodeID) : option nodeItem :=
  allNodes d !! id.

(** [getAllDisk]: the disks in the order of one [range] over [allDisks]. *)
Definition getAllDisk (d : manager) : list diskItem :=
  omap (fun id => allDisks d !! id) (rangeKeys (dom (allDisks d))).

(** *** [SetStatus] *)

(** The first closure of [SetStatus], run under the read lock: the check
    of the request against the ladder.  [None] is the panic on a status
    outside the table. *)
Definition SetStatus_check (disk : diskItem) (status : DiskStatus)
    (afterSeq : Z) (isCommit : bool) : option goerror :=
  if N.eqb (dStatus (info disk)) status then Some None
  else if dropping disk && negb (N.eqb status DiskStatusDropped) then
    if negb isCommit then Some (Some ErrChangeDiskStatusNotAllow)
    else Some None
  else
    match validSetStatus (dStatus (info disk)) with
    | None => None
    | Some beforeSeq =>
      if (beforeSeq >? afterSeq)
         || ((afterSeq - beforeSeq >? 1)
             && negb (N.eqb status DiskStatusDropped))
      then
        if negb isCommit then Some (Some ErrChangeDiskStatusNotAllow)
        else Some None
      else Some None
    end.

(** The last closure of [SetStatus], run under the write lock: persist,
    set the status, and drop the traces of a disk that is no longer
    filterable. *)
Definition SetStatus_commit (id : DiskID) (status : DiskStatus)
    (disk : diskItem) (node : option nodeItem) (d : manager)
  : outcome manager goerror :=
  if N.eqb (dStatus (info disk)) status then Returns None d
  else
    let '(err, p) :=
      if N.eqb status DiskStatusDropped then droppedDisk id (persistent d)
      else updateDiskStatusNoLocked id status (persistent d) in
    match err with
    | Some e =>
      Returns (Some (ErrInfo e "diskMgr.SetStatus update disk info failed"))
              (set_persistent p d)
    | None =>
      let disk' := set_status status disk in
      let d1 := set_allDisks (<[id := disk']> (allDisks d))
                             (set_persistent p d) in
      let d2 :=
        if negb (needFilter disk')
        then set_hostPathFilter
               (delete (diskFilterKey disk') (hostPathFilter d1)) d1
        else d1 in
      let d3 :=
        match node with
        | Some n =>
          if negb (needFilter disk')
          then set_topoMgr
                 (RemoveDiskFromDiskSet (nDiskType (ninfo n))
                    (nNodeSetID (ninfo n)) disk' (topoMgr d2)) d2
          else d2
        | None => d2
        end in
      Returns None d3
    end.

Definition SetStatus (id : DiskID) (status : DiskStatus) (isCommit : bool)
    (d : manager) : outcome manager goerror :=
  match validSetStatus status with
  | None => Returns (Some ErrInvalidStatus) d
  | Some afterSeq =>
    match getDisk d id with
    | None => Returns (Some ErrCMDiskNotFound) d
    | Some disk =>
      match SetStatus_check disk status afterSeq isCommit with
      | None => Panics
      | Some (Some err) => Returns (Some err) d
      | Some None =>
        if negb isCommit then Returns None d
        else SetStatus_commit id status disk
               (getNode d (dNodeID (info disk))) d
      end
    end
  end.

(** *** [CheckDiskInfoDuplicated] *)

(** The check reads the manager and writes nothing: the state it returns
    is the state it was given. *)
Definition CheckDiskInfoDuplicated (diskID : DiskID) (diskInfo : DiskInfo)
    (nodeInfo : NodeInfo) (d : manager) : outcome manager goerror :=
  match getDisk d diskID with
  | Some di =>
    (* compatible case: disk register again to diskSet *)
    if N.eqb (dNodeID (info di)) InvalidNodeID
       && negb (N.eqb (dNodeID diskInfo) InvalidNodeID)
       && bool_decide (dHost (info di) = nHost nodeInfo)
       && bool_decide (dIdc (info di) = nIdc nodeInfo)
       && bool_decide (dRack (info di) = nRack nodeInfo)
    then Returns None d
    else Returns (Some ErrExist) d
  | None =>
    match hostPathFilter d !! DiskKey (nHost nodeInfo) (dPath diskInfo) with
    | Some _ => Returns (Some ErrIllegalArguments) d
    | None => Returns None d
    end
  end.

(** *** [IsDroppingDisk] *)

Definition IsDroppingDisk (id : DiskID) (d : manager) : bool * goerror :=
  match getDisk d id with
  | None => (false, Some ErrCMDiskNotFound)
  | Some disk => (dropping disk, None)
  end.

(** *** [applySwitchReadonly] *)

(** The result of [getDisk] is used unchecked: an unknown id is a nil
    dereference. *)
Definition applySwitchReadonly (diskID : DiskID) (readonly : bool)
    (d : manager) : outcome manager goerror :=
  match getDisk d diskID with
  | None => Panics
  | Some disk =>
    if Bool.eqb (dReadonly (info disk)) readonly then Returns None d
    else
      let disk1 := set_readonly readonly disk in
      let '(err, p) := updateDiskNoLocked disk1 (persistent d) in
      match err with
      | Some e =>
        Returns (Some e)
          (set_allDisks
             (<[diskID := set_readonly (negb readonly) disk1]> (allDisks d))
             (set_persistent p d))
      | None =>
        Returns None
          (set_allDisks (<[diskID := disk1]> (allDisks d))
             (set_persistent p d))
      end
  end.

(** *** [applyAddNode] *)

(** The node is given by its [NodeInfo]; the extra information of a shard
    node is not modelled. *)
Definition applyAddNode (nodeInfo : NodeInfo) (d : manager)
  : outcome manager goerror :=
  match getNode d (nNodeID nodeInfo) with
  | Some _ => Returns None d
  | None =>
    let '(nsid, t1) :=
      if N.eqb (nNodeSetID nodeInfo) nullNodeSetID
      then AllocNodeSetID nodeInfo (topoMgr d)
      else (nNodeSetID nodeInfo, topoMgr d) in
    let nodeInfo1 :=
      mkNodeInfo (nNodeID nodeInfo) (nHost nodeInfo) (nIdc nodeInfo)
                 (nRack nodeInfo) (nDiskType nodeInfo) (nRole nodeInfo)
                 NodeStatusNormal nsid in
    let ni := mkNodeItem (nNodeID nodeInfo) nodeInfo1 ∅ false in
    let '(err, p) := updateNodeNoLocked ni (persistent d) in
    match err with
    | Some e =>
      Returns (Some (ErrInfo e "ShardNodeManager.addNode add node failed"))
              (set_topoMgr t1 (set_persistent p d))
    | None =>
      Returns None
        (set_hostPathFilter
           (<[nodeFilterKey ni := NodeEntry (nodeID ni)]> (hostPathFilter d))
           (set_allNodes (<[nNodeID nodeInfo := ni]> (allNodes d))
              (set_topoMgr (AddNodeToNodeSet ni t1) (set_persistent p d))))
    end
  end.

(** *** [applyDroppingDisk] *)

Definition fmtApplyContextKey (opType id : string) : string :=
  opType +:+ "-" +:+ id.

(** [proto.DiskID.ToString] and [proto.NodeID.ToString]: the decimal
    numeral. *)
Definition ToString (id : N) : string := pretty id.

(** In the commit case an error travels through [pendingEntries]: it
    replaces the entry of the key when there is one. *)
Definition storePending (key : string) (e : error) (d : manager) : manager :=
  match pendingEntries d !! key with
  | Some _ => set_pendingEntries (<[key := Some e]> (pendingEntries d)) d
  | None => d
  end.

Definition applyDroppingDisk (id : DiskID) (isCommit : bool) (d : manager)
  : outcome manager (bool * goerror) :=
  match getDisk d id with
  | None => Returns (false, Some ErrCMDiskNotFound) d
  | Some disk =>
    if dropping disk then Returns (true, None) d
    else
      (* only normal and readonly disk can add into dropping list *)
      if negb (N.eqb (dStatus (info disk)) DiskStatusNormal)
         || negb (dReadonly (info disk))
      then
        if negb isCommit
        then Returns (false, Some ErrDiskAbnormalOrNotReadOnly) d
        else
          Returns (false, None)
            (storePending (fmtApplyContextKey "disk-dropping" (ToString id))
               ErrDiskAbnormalOrNotReadOnly d)
      else if negb isCommit then Returns (false, None) d
      else
        let '(err, p) := addDroppingDisk id (persistent d) in
        match err with
        | Some e => Returns (false, Some e) (set_persistent p d)
        | None =>
          let disk' := set_dropping true disk in
          let d1 := set_allDisks (<[id := disk']> (allDisks d))
                                 (set_persistent p d) in
          match getNode d1 (dNodeID (info disk')) with
          | Some node =>
            Returns (false, None)
              (set_topoMgr
                 (RemoveDiskFromDiskSet (nDiskType (ninfo node))
                    (nNodeSetID (ninfo node)) disk' (topoMgr d1)) d1)
          | None => Returns (false, None) d1
          end
        end
  end.

(** *** [applyDroppedDisk] *)

Definition applyDroppedDisk (id : DiskID) (d : manager)
  : outcome manager goerror :=
  let '(found, err) := isDroppingDisk id (persistent d) in
  match err with
  | Some e =>
    Returns (Some (ErrInfo e "diskMgr.droppedDisk get dropping disk failed")) d
  | None =>
    if negb found then Returns None d
    else
      match SetStatus id DiskStatusDropped true d with
      | Panics => Panics
      | Returns err1 d1 =>
        let err2 :=
          match err1 with
          | Some e =>
            Some (ErrInfo e
                    "diskMgr.droppedDisk set disk dropped status failed")
          | None => None
          end in
        match getDisk d1 id with
        | None => Panics
        | Some disk =>
          Returns err2
            (set_allDisks (<[id := set_dropping false disk]> (allDisks d1))
                          d1)
        end
      end
  end.

(** *** [applyDroppingNode] *)

(** The loop over the snapshot of the node's disks.  [Some r] is an early
    return of [r] out of the handler. *)
Fixpoint applyDroppingNode_loop (nid : NodeID) (isCommit : bool)
    (diskItems : list DiskID) (d : manager)
  : outcome manager (option (bool * goerror)) :=
  match diskItems with
  | [] => Returns None d
  | id :: rest =>
    match getDisk d id with
    | None => applyDroppingNode_loop nid isCommit rest d
    | Some di =>
      (* skip disk which is abnormal *)
      if negb (N.eqb (dStatus (info di)) DiskStatusNormal)
      then applyDroppingNode_loop nid isCommit rest d
      else
        match applyDroppingDisk (diskID di) isCommit d with
        | Panics => Panics
        | Returns (_, Some e) d1 =>
          if negb isCommit then Returns (Some (false, Some e)) d1
          else
            Returns (Some (false, None))
              (storePending
                 (fmtApplyContextKey "node-dropping" (ToString nid)) e d1)
        | Returns (_, None) d1 =>
          applyDroppingNode_loop nid isCommit rest d1
        end
    end
  end.

Definition applyDroppingNode (nid : NodeID) (isCommit : bool) (d : manager)
  : outcome manager (bool * goerror) :=
  match getNode d nid with
  | None => Returns (false, Some ErrCMNodeNotFound) d
  | Some node =>
    (* check node status *)
    if negb (isUsingStatus node) || ndropping node then Returns (true, None) d
    else
      match applyDroppingNode_loop nid isCommit (rangeKeys (disks node)) d
      with
      | Panics => Panics
      | Returns (Some r) d1 => Returns r d1
      | Returns None d1 =>
        if negb isCommit then Returns (false, None) d1
        else
          (* dropping the node *)
          let '(err, p) := addDroppingNode nid (persistent d1) in
          match err with
          | Some e => Returns (false, Some e) (set_persistent p d1)
          | None =>
            Returns (false, None)
              (set_allNodes (alter (set_ndropping true) nid (allNodes d1))
                 (set_persistent p d1))
          end
      end
  end.

(** *** [applyDroppedNode] *)

(** The check of the node's disks: the error of the first disk found in
    use. *)
Fixpoint checkDisksInUse (diskItems : list DiskID) (d : manager) : goerror :=
  match diskItems with
  | [] => None
  | id :: rest =>
    match getDisk d id with
    | Some di =>
      if needFilter di
      then Some (ErrNew ("node has disk[" +:+ ToString (diskID di)
                         +:+ "] in use"))
      else checkDisksInUse rest d
    | None => checkDisksInUse rest d
    end
  end.

Definition applyDroppedNode (nid : NodeID) (d : manager)
  : outcome manager goerror :=
  let '(found, err) := isDroppingNode nid (persistent d) in
  match err with
  | Some e =>
    Returns (Some (ErrInfo e "applyDroppedNode get dropping node failed")) d
  | None =>
    if negb found then Returns None d
    else
      match getNode d nid with
      | None => Returns (Some ErrCMNodeNotFound) d
      | Some node =>
        (* check disk status again *)
        match checkDisksInUse (rangeKeys (disks node)) d with
        | Some _ => Returns None d
        | None =>
          let '(err1, p) := droppedNode (nodeID node) (persistent d) in
          match err1 with
          | Some e =>
            Returns
              (Some (ErrInfo e "diskMgr.droppedNode dropped node failed"))
              (set_persistent p d)
          | None =>
            let node' :=
              set_ndropping false
                (set_ninfo (set_nStatus NodeStatusDropped (ninfo node))
                   node) in
            let d1 := set_allNodes (<[nid := node']> (allNodes d))
                                   (set_persistent p d) in
            Returns None
              (set_topoMgr (RemoveNodeFromNodeSet node' (topoMgr d1)) d1)
          end
        end
      end
  end.

(** *** Heartbeats *)

(** [RefreshExpireTime], with the reading [now] of the clock made
    explicit. *)
Definition RefreshExpireTime (now : Z) (d : manager) : manager :=
  let t := now + wrap64 (HeartbeatExpireIntervalS (cfg d) * Second) in
  set_allDisks
    ((fun di => mkDiskItem (diskID di) (info di) (extraInfo di) (dropping di)
                           t t) <$> allDisks d) d.

(** The body of the loop of [GetHeartbeatChangeDisks]: the events one disk
    contributes to a sweep made at [now]. *)
Definition heartbeatChange (now : Z) (c : DiskMgrConfig) (disk : diskItem)
  : list HeartbeatEvent :=
  (* notify topper level when heartbeat expire or heartbeat recover *)
  if isExpire now disk && needFilter disk then
    (* expired disk has been notified already, then ignore it *)
    if time_Since now (expireTime disk)
       >=? wrap64 (wrap64 (2 * HeartbeatExpireIntervalS c) * Second)
    then []
    else [mkHeartbeatEvent (diskID disk) false]
  else if time_Sub (expireTime disk) (lastExpireTime disk)
          >? wrap64 (wrap64 (1 * HeartbeatExpireIntervalS c) * Second)
  then [mkHeartbeatEvent (diskID disk) true]
  else [].

(** [GetHeartbeatChangeDisks], with the reading [now] of the clock made
    explicit: one reading serves the whole sweep. *)
Definition GetHeartbeatChangeDisks (now : Z) (d : manager)
  : list HeartbeatEvent :=
  flat_map (heartbeatChange now (cfg d)) (getAllDisk d).

(** Modelled from the spec: the heartbeat handler, declared outside the
    sources at hand.  It stores the payload, moves [expireTime] to
    [lastExpireTime] and sets [expireTime] one interval after [now]. *)
Definition applyHeartbeat (id : DiskID) (extra : heartbeatInfo) (now : Z)
    (d : manager) : outcome manager goerror :=
  match getDisk d id with
  | None => Returns (Some ErrCMDiskNotFound) d
  | Some disk =>
    Returns None
      (set_allDisks
         (<[id := mkDiskItem (diskID disk) (info disk) (Some extra)
                    (dropping disk)
                    (now + wrap64 (HeartbeatExpireIntervalS (cfg d) * Second))
                    (expireTime disk)]> (allDisks d)) d)
  end.

(** Modelled from the spec: the handler of AddDisk, declared outside the
    sources at hand.  It double-checks that the id is new, checks
    [hostPathFilter], persists the disk, assigns it to a DiskSet inside the
    NodeSet of its node, and registers it in [allDisks], in the [disks] of
    its node and in [hostPathFilter].  A new disk is not dropping. *)
Definition applyAddDisk (id : DiskID) (i : DiskInfo) (now : Z) (d : manager)
  : outcome manager goerror :=
  match getDisk d id with
  | Some _ => Returns None d
  | None =>
    let t := now + wrap64 (HeartbeatExpireIntervalS (cfg d) * Second) in
    let disk := mkDiskItem id i None false t t in
    match hostPathFilter d !! diskFilterKey disk with
    | Some _ => Returns (Some ErrIllegalArguments) d
    | None =>
      let '(err, p) := addDiskNoLocked disk (persistent d) in
      match err with
      | Some e => Returns (Some e) (set_persistent p d)
      | None =>
        let d1 := set_allDisks (<[id := disk]> (allDisks d))
                               (set_persistent p d) in
        let d2 :=
          if needFilter disk
          then set_hostPathFilter
                 (<[diskFilterKey disk := DiskEntry]> (hostPathFilter d1)) d1
          else d1 in
        match getNode d2 (dNodeID i) with
        | Some node =>
          Returns None
            (set_topoMgr
               (AddDiskToDiskSet (nDiskType (ninfo node))
                  (nNodeSetID (ninfo node)) disk (topoMgr d2))
               (set_allNodes
                  (<[dNodeID i :=
                      mkNodeItem (nodeID node) (ninfo node)
                                 ({[id]} ∪ disks node) (ndropping node)]>
                     (allNodes d2)) d2))
        | None => Returns None d2
        end
      end
    end
  end.

End Manager.

(** ** Runs of the manager *)

(** The requests that change the manager. *)
Inductive op : Type :=
| OpAddNode (nodeInfo : NodeInfo)
| OpAddDisk (id : DiskID) (i : DiskInfo) (now : Z)
| OpSetStatus (id : DiskID) (status : DiskStatus) (isCommit : bool)
| OpSwitchReadonly (id : DiskID) (readonly : bool)
| OpDroppingDisk (id : DiskID) (isCommit : bool)
| OpDroppedDisk (id : DiskID)
| OpDroppingNode (id : NodeID) (isCommit : bool)
| OpDroppedNode (id : NodeID)
| OpHeartbeat (id : DiskID) (extra : heartbeatInfo) (now : Z)
| OpRefreshExpireTime (now : Z).

Section Runs.

Context {P T : Type} {PH : persistentHandler P} {TM : topoMgrAPI T}
        {MR : mapRange}.

Definition stateOf {A : Type} (o : outcome (@manager P T) A)
  : option (@manager P T) :=
  match o with
  | Returns _ d => Some d
  | Panics => None
  end.

(** The manager after one request; [None] when the handler panics. *)
Definition apply_op (o : op) (d : @manager P T) : option (@manager P T) :=
  match o with
  | OpAddNode nodeInfo => stateOf (applyAddNode nodeInfo d)
  | OpAddDisk id i now => stateOf (applyAddDisk id i now d)
  | OpSetStatus id status isCommit => stateOf (SetStatus id status isCommit d)
  | OpSwitchReadonly id readonly => stateOf (applySwitchReadonly id readonly d)
  | OpDroppingDisk id isCommit => stateOf (applyDroppingDisk id isCommit d)
  | OpDroppedDisk id => stateOf (applyDroppedDisk id d)
  | OpDroppingNode id isCommit => stateOf (applyDroppingNode id isCommit d)
  | OpDroppedNode id => stateOf (applyDroppedNode id d)
  | OpHeartbeat id extra now => stateOf (applyHeartbeat id extra now d)
  | OpRefreshExpireTime now => Some (RefreshExpireTime now d)
  end.

Fixpoint apply_ops (l : list op) (d : @manager P T)
  : option (@manager P T) :=
  match l with
  | [] => Some d
  | o :: rest =>
    match apply_op o d with
    | Some d1 => apply_ops rest d1
    | None => None
    end
  end.

(** A request that commits the status Dropped, through [SetStatus] itself
    and not through [applyDroppedDisk], on a disk that is dropping. *)
Definition dropsDroppingDirectly (o : op) (d : @manager P T) : bool :=
  match o with
  | OpSetStatus id status true =>
    N.eqb status DiskStatusDropped
    && match getDisk d id with
       | Some disk => dropping disk
       | None => false
       end
  | _ => false
  end.

(** No request of the run is of that kind in the state it meets. *)
Fixpoint noDirectDrop (l : list op) (d : @manager P T) : bool :=
  match l with
  | [] => true
  | o :: rest =>
    negb (dropsDroppingDirectly o d)
    && match apply_op o d with
       | Some d1 => noDirectDrop rest d1
       | None => true
       end
  end.

(** A Dropped disk is not dropping. *)
Definition droppedNotDropping (disks : gmap DiskID diskItem) : Prop :=
  forall id disk,
    disks !! id = Some disk ->
    dStatus (info disk) = DiskStatusDropped -> dropping disk = false.

(** Every disk is stored under its own id. *)
Definition disksKeyed (disks : gmap DiskID diskItem) : Prop :=
  forall id disk, disks !! id = Some disk -> diskID disk = id.

End Runs.

(** ** The writable space estimator *)

(** The fields of [nodeAllocator] that the estimator reads. *)
Record nodeAllocator : Type := mkNodeAllocator {
  naHost : string;
  naDisks : list DiskID;
  naWeight : Z;
  naFree : Z
}.

(** What a computation run with a bound on its loop iterations gives: a
    value, a panic, or neither within the bound. *)
Inductive fueled (A : Type) : Type :=
| Finished (a : A)
| Crashed
| OutOfFuel.

Arguments Finished {A} a.
Arguments Crashed {A}.
Arguments OutOfFuel {A}.

(** Modelled from the spec: [maxHeap], declared outside the sources at
    hand, under the operations of [container/heap].  It is a max-heap of
    [int64]: [heap.Pop] removes and returns a greatest element.  The heap
    is held as the list of its elements in descending order. *)
Definition maxHeap := list Z.

Fixpoint heap_Push (x : Z) (h : maxHeap) : maxHeap :=
  match h with
  | [] => [x]
  | y :: h' => if y <? x then x :: y :: h' else y :: heap_Push x h'
  end.

Definition heap_Init (l : list Z) : maxHeap := foldr heap_Push [] l.

Definition heap_Pop (h : maxHeap) : option (Z * maxHeap) :=
  match h with
  | [] => None
  | x :: h' => Some (x, h')
  end.

(** The lists that a heap is held as. *)
Definition descending (l : list Z) : Prop :=
  StronglySorted (fun x y : Z => y <= x) l.

(** What the heap of [calIDCWritableFunc] holds: positive [int64]
    counts. *)
Definition token (x : Z) : Prop := 0 < x <= MaxInt64.

(** [getMaxSuCount]: the first code mode of greatest [N + M + L], and that
    sum.  [None] is the index out of range when no code mode is
    configured. *)
Fixpoint getMaxSuCount_loop (modes : list Tactic) (i idx : nat) (suCount : Z)
  : nat * Z :=
  match modes with
  | [] => (idx, suCount)
  | t :: rest =>
    let su := wrap64 (wrap64 (Tactic_N t + Tactic_M t) + Tactic_L t) in
    if su >? suCount then getMaxSuCount_loop rest (S i) i su
    else getMaxSuCount_loop rest (S i) idx suCount
  end.

Definition getMaxSuCount (c : DiskMgrConfig) : option (Tactic * Z) :=
  let '(idx, suCount) := getMaxSuCount_loop (CodeModes c) 0 0 0 in
  match CodeModes c !! idx with
  | Some t => Some (t, suCount)
  | None => None
  end.

(** The first loop of [calIDCWritableFunc]: the positive quotients
    [free / itemSize] of the nodes.  [None] is the division by zero. *)
Fixpoint loadTokens (itemSize : Z) (stgs : list nodeAllocator)
  : option (list Z) :=
  match stgs with
  | [] => Some []
  | v :: rest =>
    if itemSize =? 0 then None
    else
      let count := wrap64 (Z.quot (naFree v) itemSize) in
      match loadTokens itemSize rest with
      | None => None
      | Some lefts => Some (if count >? 0 then count :: lefts else lefts)
      end
  end.

(** [idcSuCount] calls of [heap.Pop] into [stripe]. *)
Fixpoint popStripe (k : nat) (lefts : maxHeap) : option (list Z * maxHeap) :=
  match k with
  | O => Some ([], lefts)
  | S k' =>
    match heap_Pop lefts with
    | None => None
    | Some (x, h) =>
      match popStripe k' h with
      | None => None
      | Some (stripe, h') => Some (x :: stripe, h')
      end
    end
  end.

(** The loop that takes [min] off every element of [stripe] and pushes
    what stays positive. *)
Fixpoint pushBack (stripe : list Z) (lefts : maxHeap) : maxHeap :=
  match stripe with
  | [] => lefts
  | x :: rest =>
    let x' := wrap64 (x - 10) in
    pushBack rest (if x' >? 0 then heap_Push x' lefts else lefts)
  end.

(** The [for] loop of [calIDCWritableFunc], run for at most [fuel]
    rounds. *)
Fixpoint calIDCWritable_loop (fuel : nat) (idcSuCount : Z) (lefts : maxHeap)
    (n : Z) : fueled Z :=
  match fuel with
  | O => OutOfFuel
  | S fuel' =>
    if Z.of_nat (length lefts) <? idcSuCount then Finished n
    else
      match popStripe (Z.to_nat idcSuCount) lefts with
      | None => Crashed
      | Some (stripe, lefts1) =>
        (* set minimum stripe count to 10 with more random selection *)
        calIDCWritable_loop fuel' idcSuCount (pushBack stripe lefts1)
                            (wrap64 (n + 10))
      end
  end.

(** [calIDCWritableFunc]; making a slice of negative length panics. *)
Definition calIDCWritableFunc (fuel : nat) (idcSuCount itemSize : Z)
    (stgs : list nodeAllocator) : fueled Z :=
  if idcSuCount <? 0 then Crashed
  else
    match loadTokens itemSize stgs with
    | None => Crashed
    | Some lefts =>
      calIDCWritable_loop fuel idcSuCount (heap_Init lefts) 0
    end.

(** The loops [for idc := range nodeStgs] that keep the least count. *)
Fixpoint minimumOver (f : list nodeAllocator -> fueled Z)
    (idcs : list (string * list nodeAllocator)) (minimum : Z) : fueled Z :=
  match idcs with
  | [] => Finished minimum
  | (_, stgs) :: rest =>
    match f stgs with
    | Finished n => minimumOver f rest (if n <? minimum then n else minimum)
    | Crashed => Crashed
    | OutOfFuel => OutOfFuel
    end
  end.

(** The inner loop of the branch that is not host aware: the sum of the
    quotients [free / itemSize] of the nodes of one IDC. *)
Fixpoint idcChunkNum (itemSize : Z) (stgs : list nodeAllocator) (acc : Z)
  : fueled Z :=
  match stgs with
  | [] => Finished acc
  | v :: rest =>
    if itemSize =? 0 then Crashed
    else idcChunkNum itemSize rest
           (wrap64 (acc + wrap64 (Z.quot (naFree v) itemSize)))
  end.

(** The item size [calculateWritable] settles on: the chunk size when it
    is set, overridden by the shard size when that is set. *)
Definition itemSizeOf (c : DiskMgrConfig) : Z :=
  if negb (ShardSize c =? 0) then ShardSize c
  else if negb (ChunkSize c =? 0) then ChunkSize c
  else 0.

(** [calculateWritable]; of the manager it reads the configuration only. *)
Definition calculateWritable (fuel : nat) (c : DiskMgrConfig)
    (nodeStgs : gmap string (list nodeAllocator)) : fueled Z :=
  match getMaxSuCount c with
  | None => Crashed
  | Some (codeMode, suCount) =>
    if Z.of_nat (length (IDC c)) =? 0 then Crashed
    else
      let idcSuCount := Z.quot suCount (Z.of_nat (length (IDC c))) in
      let itemSize := itemSizeOf c in
      if HostAware c && (0 <? Z.of_nat (size nodeStgs)) then
        (* calculate minimum idc writable item num *)
        match minimumOver (calIDCWritableFunc fuel idcSuCount itemSize)
                (map_to_list nodeStgs) MaxInt64 with
        | Finished minimumStripeCount =>
          Finished (wrap64 (wrap64 (minimumStripeCount * Tactic_N codeMode)
                            * itemSize))
        | Crashed => Crashed
        | OutOfFuel => OutOfFuel
        end
      else if 0 <? Z.of_nat (size nodeStgs) then
        match minimumOver (fun stgs => idcChunkNum itemSize stgs 0)
                (map_to_list nodeStgs) MaxInt64 with
        | Finished minimumChunkNum =>
          if idcSuCount =? 0 then Crashed
          else
            Finished
              (wrap64 (wrap64 (wrap64 (Z.quot minimumChunkNum idcSuCount)
                               * Tactic_N codeMode) * itemSize))
        | Crashed => Crashed
        | OutOfFuel => OutOfFuel
        end
      else Finished 0
  end.

(** *** The host-aware estimate in the words of the specification *)

(** The tokens of an IDC: the quotients [free / item_size] of its nodes; a
    node whose quotient is not positive has no token. *)
Definition spec_tokens (itemSize : Z) (stgs : list nodeAllocator) : list Z :=
  filter (fun t => 0 < t) (map (fun v => Z.quot (naFree v) itemSize) stgs).

(** One round: pop the top [k] tokens, subtract [min(10, popped)] from
    each, and push back the positive remainders. *)
Definition spec_round (k : nat) (tokens : list Z) : list Z :=
  let sorted := heap_Init tokens in
  drop k sorted
  ++ filter (fun t => 0 < t) (map (fun x => x - Z.min 10 x) (take k sorted)).

(** Rounds are made while at least [k] tokens remain; a round counts for
    ten stripes. *)
Fixpoint spec_rounds (bound k : nat) (tokens : list Z) : Z :=
  match bound with
  | O => 0
  | S bound' =>
    if (length tokens <? k)%nat then 0
    else 10 + spec_rounds bound' k (spec_round k tokens)
  end.

Definition sumZ (l : list Z) : Z := foldr Z.add 0 l.

(** Every round of at least one token takes at least one unit off the sum
    of the tokens, which bounds the number of rounds. *)
Definition spec_stripe_count (k : nat) (tokens : list Z) : Z :=
  spec_rounds (S (Z.to_nat (sumZ tokens))) k tokens.

(** The least of a list of counts, [MaxInt64] when there is none. *)
Definition spec_minimum (counts : list Z) : Z := foldr Z.min MaxInt64 counts.

(** The stripe count of one IDC. *)
Definition spec_idc_count (k : nat) (itemSize : Z) (stgs : list nodeAllocator)
  : Z :=
  spec_stripe_count k (spec_tokens itemSize stgs).

(** The least stripe count over the IDCs that [nodeStgs] has an entry
    for. *)
Definition spec_stripes_present (k : nat) (itemSize : Z)
    (nodeStgs : gmap string (list nodeAllocator)) : Z :=
  spec_minimum (map (fun e => spec_idc_count k itemSize e.2)
                    (map_to_list nodeStgs)).

(** The least stripe count over all configured IDCs; an IDC without an
    entry in [nodeStgs] has no node. *)
Definition spec_stripes_configured (c : DiskMgrConfig) (k : nat)
    (itemSize : Z) (nodeStgs : gmap string (list nodeAllocator)) : Z :=
  spec_minimum (map (fun idc => spec_idc_count k itemSize
                                  (default [] (nodeStgs !! idc)))
                    (IDC c)).

(** ** Concrete collaborators *)

(** Modelled from the spec: a persistence backend, after the persisted
    state layout: a record per disk and per node and the two dropping
    lists.  When [msFailing] holds a code, every write fails with it and
    changes nothing. *)
Record memStore : Type := mkMemStore {
  msDisks : gmap DiskID diskItem;
  msNodes : gmap NodeID nodeItem;
  msDroppingDisks : gset DiskID;
  msDroppingNodes : gset NodeID;
  msFailing : option N
}.

Definition memWrite (f : memStore -> memStore) (s : memStore)
  : goerror * memStore :=
  match msFailing s with
  | Some code => (Some (ErrBackend code), s)
  | None => (None, f s)
  end.

#[global] Instance memStore_handler : persistentHandler memStore := {|
  updateDiskNoLocked di :=
    memWrite (fun s =>
      mkMemStore (<[diskID di := di]> (msDisks s)) (msNodes s)
                 (msDroppingDisks s) (msDroppingNodes s) (msFailing s));
  updateDiskStatusNoLocked id st :=
    memWrite (fun s =>
      mkMemStore (alter (set_status st) id (msDisks s)) (msNodes s)
                 (msDroppingDisks s) (msDroppingNodes s) (msFailing s));
  addDiskNoLocked di :=
    memWrite (fun s =>
      mkMemStore (<[diskID di := di]> (msDisks s)) (msNodes s)
                 (msDroppingDisks s) (msDroppingNodes s) (msFailing s));
  updateNodeNoLocked n :=
    memWrite (fun s =>
      mkMemStore (msDisks s) (<[nodeID n := n]> (msNodes s))
                 (msDroppingDisks s) (msDroppingNodes s) (msFailing s));
  addDroppingDisk id :=
    memWrite (fun s =>
      mkMemStore (msDisks s) (msNodes s) ({[id]} ∪ msDroppingDisks s)
                 (msDroppingNodes s) (msFailing s));
  addDroppingNode id :=
    memWrite (fun s =>
      mkMemStore (msDisks s) (msNodes s) (msDroppingDisks s)
                 ({[id]} ∪ msDroppingNodes s) (msFailing s));
  isDroppingDisk id s := (bool_decide (id ∈ msDroppingDisks s), None);
  isDroppingNode id s := (bool_decide (id ∈ msDroppingNodes s), None);
  droppedDisk id :=
    memWrite (fun s =>
      mkMemStore (alter (set_status DiskStatusDropped) id (msDisks s))
                 (msNodes s) (msDroppingDisks s ∖ {[id]})
                 (msDroppingNodes s) (msFailing s));
  droppedNode id :=
    memWrite (fun s =>
      mkMemStore (msDisks s)
                 (alter (fun n => set_ninfo
                                    (set_nStatus NodeStatusDropped (ninfo n))
                                    n) id (msNodes s))
                 (msDroppingDisks s) (msDroppingNodes s ∖ {[id]})
                 (msFailing s))
|}.

(** Modelled from the spec: a topology index.  It keeps the members of
    every NodeSet, by disk type and NodeSet id, and the members of every
    DiskSet, by disk type, NodeSet id and DiskSet id.  Every node is
    assigned to NodeSet 1. *)
Record memTopo : Type := mkMemTopo {
  mtNodeSets : gmap (DiskType * NodeSetID) (gset NodeID);
  mtDiskSets : gmap (DiskType * NodeSetID * DiskSetID) (gset DiskID)
}.

Definition memTopo_addNode (n : nodeItem) (t : memTopo) : memTopo :=
  let k := (nDiskType (ninfo n), nNodeSetID (ninfo n)) in
  mkMemTopo (<[k := {[nodeID n]} ∪ default ∅ (mtNodeSets t !! k)]>
               (mtNodeSets t))
            (mtDiskSets t).

Definition memTopo_removeNode (n : nodeItem) (t : memTopo) : memTopo :=
  let k := (nDiskType (ninfo n), nNodeSetID (ninfo n)) in
  mkMemTopo (alter (fun s => s ∖ {[nodeID n]}) k (mtNodeSets t))
            (mtDiskSets t).

Definition memTopo_addDisk (dt : DiskType) (ns : NodeSetID) (di : diskItem)
    (t : memTopo) : memTopo :=
  let k := (dt, ns, dDiskSetID (info di)) in
  mkMemTopo (mtNodeSets t)
            (<[k := {[diskID di]} ∪ default ∅ (mtDiskSets t !! k)]>
               (mtDiskSets t)).

Definition memTopo_removeDisk (dt : DiskType) (ns : NodeSetID)
    (di : diskItem) (t : memTopo) : memTopo :=
  let k := (dt, ns, dDiskSetID (info di)) in
  mkMemTopo (mtNodeSets t)
            (alter (fun s => s ∖ {[diskID di]}) k (mtDiskSets t)).

#[global] Instance memTopo_api : topoMgrAPI memTopo := {|
  AllocNodeSetID _ t := (1%N, t);
  AddNodeToNodeSet := memTopo_addNode;
  AddDiskToDiskSet := memTopo_addDisk;
  RemoveDiskFromDiskSet := memTopo_removeDisk;
  RemoveNodeFromNodeSet := memTopo_removeNode
|}.

(** A [range] that visits the keys in the order of [elements]. *)
#[global] Instance elementsRange : mapRange := {|
  rangeKeys := elements;
  rangeKeys_perm := fun s => Permutation_refl (elements s)
|}.

Definition emptyStore : memStore := mkMemStore ∅ ∅ ∅ ∅ None.
Definition emptyTopo : memTopo := mkMemTopo ∅ ∅.

Definition sampleConfig : DiskMgrConfig :=
  mkDiskMgrConfig true false 60 ["z0"; "z1"; "z2"] [mkTactic 6 6 0]
                  (16 * 2 ^ 30) 0.

(** The manager before anything is registered. *)
Definition emptyManager : @manager memStore memTopo :=
  mkManager ∅ ∅ emptyTopo ∅ ∅ emptyStore sampleConfig.

(** ** Queries and checks of the manager *)

(** [ErrDiskNotExist], an error of the package itself. *)
Definition ErrDiskNotExist : error := ErrNew "disk not exist".

(** How [fmt] prints a slice of ids under the verb v: the decimal numerals
    between brackets, one space apart. *)
Fixpoint fmtIDs_body (ids : list N) : string :=
  match ids with
  | [] => ""
  | [id] => ToString id
  | id :: rest => ToString id +:+ " " +:+ fmtIDs_body rest
  end.

Definition fmtIDs (ids : list N) : string := "[" +:+ fmtIDs_body ids +:+ "]".

Section Queries.

Context {P T : Type} {PH : persistentHandler P} {TM : topoMgrAPI T}
        {MR : mapRange}.

(** [CheckNodeInfoDuplicated]: the key is that of a node that has the host
    and the disk type of [info] and nothing else.  The value found is
    asserted to be a node id: an entry of another kind is a panic. *)
Definition CheckNodeInfoDuplicated (i : NodeInfo) (d : @manager P T)
  : outcome (@manager P T) (NodeID * bool) :=
  let node :=
    mkNodeItem 0%N
      (mkNodeInfo 0%N (nHost i) "" "" (nDiskType i) 0%N 0%N 0%N) ∅ false in
  match hostPathFilter d !! nodeFilterKey node with
  | Some (NodeEntry id) => Returns (id, true) d
  | Some DiskEntry => Panics
  | None => Returns (InvalidNodeID, false) d
  end.

(** [IsFrequentHeartBeat], with the reading [now] of the clock made
    explicit. *)
Definition IsFrequentHeartBeat (now : Z) (id : DiskID)
    (HeartbeatNotifyIntervalS : Z) (d : @manager P T) : bool * goerror :=
  match getDisk d id with
  | None => (false, Some ErrCMDiskNotFound)
  | Some diskInfo =>
    let newExpireTime :=
      now + wrap64 (HeartbeatExpireIntervalS (cfg d) * Second) in
    if time_Sub newExpireTime (expireTime diskInfo)
       <? wrap64 (HeartbeatNotifyIntervalS * Second)
    then (true, None)
    else (false, None)
  end.

(** The loop of the host-aware branch of [validateAllocRet];
    [selectedHost] holds the hosts whose entry of the Go map is true, and
    [all] is the whole selection, for the message. *)
Fixpoint validateAllocRet_hosts (all disks : list DiskID)
    (selectedHost : gset string) (d : @manager P T) : goerror :=
  match disks with
  | [] => None
  | id :: rest =>
    match getDisk d id with
    | None =>
      Some (ErrInfo ErrDiskNotExist ("disk[" +:+ ToString id +:+ "]"))
    | Some disk =>
      if bool_decide (dHost (info disk) ∈ selectedHost)
      then Some (ErrNew ("duplicated host, selected disks: "
                         +:+ fmtIDs all))
      else validateAllocRet_hosts all rest
             ({[dHost (info disk)]} ∪ selectedHost) d
    end
  end.

(** The loop of the other branch. *)
Fixpoint validateAllocRet_disks (all disks : list DiskID)
    (selectedDisk : gset DiskID) : goerror :=
  match disks with
  | [] => None
  | id :: rest =>
    if bool_decide (id ∈ selectedDisk)
    then Some (ErrNew ("duplicated disk, selected disks: " +:+ fmtIDs all))
    else validateAllocRet_disks all rest ({[id]} ∪ selectedDisk)
  end.

Definition validateAllocRet (disks : list DiskID) (d : @manager P T)
  : goerror :=
  if HostAware (cfg d) then validateAllocRet_hosts disks disks ∅ d
  else validateAllocRet_disks disks disks ∅.

(** The hosts of the registered disks among [disks], in order. *)
Definition hostsOf (disks : list DiskID) (d : @manager P T) : list string :=
  omap (fun id => dHost ∘ info <$> getDisk d id) disks.

End Queries.

(** ** Sample states *)

Definition sampleNodeInfo : NodeInfo :=
  mkNodeInfo 1%N "h1" "z0" "r1" 1%N 1%N NodeStatusNormal 1%N.

Definition sampleDiskInfo : DiskInfo :=
  mkDiskInfo 1%N "h1" "/d1" "z0" "r1" DiskStatusNormal false 1%N.

Definition sampleNode : nodeItem := mkNodeItem 1%N sampleNodeInfo {[10%N]} false.

Definition sampleDisk : diskItem :=
  mkDiskItem 10%N sampleDiskInfo None false 60000000000 60000000000.

(** A manager with one node, of id 1, and its one disk, of id 10, which is
    Normal, writable and not dropping. *)
Definition managerWith (disk : diskItem) (node : nodeItem) (store : memStore)
  : @manager memStore memTopo :=
  mkManager {[10%N := disk]} {[1%N := node]}
    (mkMemTopo {[(1%N, 1%N) := {[1%N]}]} {[(1%N, 1%N, 1%N) := {[10%N]}]})
    (<[diskFilterKey disk := DiskEntry]>
       {[nodeFilterKey node := NodeEntry 1%N]})
    ∅ store sampleConfig.

Definition sampleStore : memStore :=
  mkMemStore {[10%N := sampleDisk]} {[1%N := sampleNode]} ∅ ∅ None.

Definition sampleManager : @manager memStore memTopo :=
  managerWith sampleDisk sampleNode sampleStore.

Definition readonlyDisk : diskItem := set_readonly true sampleDisk.
Definition droppingDisk : diskItem := set_dropping true readonlyDisk.
Definition repairedDisk : diskItem :=
  set_status DiskStatusRepaired sampleDisk.
Definition legacyDisk : diskItem :=
  set_info (mkDiskInfo InvalidNodeID "h1" "/d1" "z0" "r1" DiskStatusNormal
              false 0%N) sampleDisk.
Definition droppingNode : nodeItem := set_ndropping true sampleNode.

(** A backend that lists node 1 as dropping. *)
Definition droppingNodeStore : memStore :=
  mkMemStore {[10%N := sampleDisk]} {[1%N := droppingNode]} ∅ {[1%N]} None.

(** A backend whose writes fail. *)
Definition failingStore : memStore :=
  mkMemStore {[10%N := sampleDisk]} {[1%N := sampleNode]} ∅ ∅ (Some 5%N).

(** The run that registers node 1 and disk 10, makes the disk readonly and
    drops it. *)
Definition dropRun : list op :=
  [OpAddNode sampleNodeInfo; OpAddDisk 10%N sampleDiskInfo 0;
   OpSwitchReadonly 10%N true; OpDroppingDisk 10%N true; OpDroppedDisk 10%N].

(** The run that, once the disk is dropping, commits Dropped through
    [SetStatus] itself. *)
Definition directDropRun : list op :=
  [OpAddNode sampleNodeInfo; OpAddDisk 10%N sampleDiskInfo 0;
   OpSwitchReadonly 10%N true; OpDroppingDisk 10%N true;
   OpSetStatus 10%N DiskStatusDropped true].

(** The configuration of the estimator example: host aware, three IDCs,
    one code mode with [N + M + L = 12], items of [itemSize] bytes. *)
Definition estimatorConfig (n m l itemSize : Z) : DiskMgrConfig :=
  mkDiskMgrConfig true false 60 ["z0"; "z1"; "z2"] [mkTactic n m l]
                  itemSize 0.

(** Four hosts with one disk each, of ten free items. *)
Definition fourHosts (itemSize : Z) : list nodeAllocator :=
  [mkNodeAllocator "h1" [1%N] 10 (10 * itemSize);
   mkNodeAllocator "h2" [2%N] 10 (10 * itemSize);
   mkNodeAllocator "h3" [3%N] 10 (10 * itemSize);
   mkNodeAllocator "h4" [4%N] 10 (10 * itemSize)].

Definition threeIdcs (itemSize : Z) : gmap string (list nodeAllocator) :=
  <["z0" := fourHosts itemSize]>
    (<["z1" := fourHosts itemSize]> {["z2" := fourHosts itemSize]}).

(** Only one of the three configured IDCs has nodes to allocate from. *)
Definition oneIdc (itemSize : Z) : gmap string (list nodeAllocator) :=
  {["z0" := fourHosts itemSize]}.

(** ** The storage of the allocator *)

(** Of [clustermgr.SpaceStatInfo], the fields the pass over the disks
    writes. *)
Record SpaceStatInfo : Type := mkSpaceStatInfo {
  TotalSpace : Z;
  FreeSpace : Z;
  ReadOnlySpace : Z;
  UsedSpace : Z;
  WritableSpace : Z;
  TotalDisk : Z
}.

(** [clustermgr.DiskStatInfo], the counters of one IDC. *)
Record DiskStatInfo : Type := mkDiskStatInfo {
  dsIDC : string;
  dsTotal : Z;
  dsTotalChunk : Z;
  dsTotalFreeChunk : Z;
  dsTotalOversoldFreeChunk : Z;
  dsTotalShard : Z;
  dsTotalFreeShard : Z;
  dsAvailable : Z;
  dsReadonly : Z;
  dsExpired : Z;
  dsBroken : Z;
  dsRepairing : Z;
  dsRepaired : Z;
  dsDropping : Z;
  dsDropped : Z
}.

Inductive statField : Type :=
| FTotal | FTotalChunk | FTotalFreeChunk | FTotalOversoldFreeChunk
| FTotalShard | FTotalFreeShard | FAvailable | FReadonly | FExpired
| FBroken | FRepairing | FRepaired | FDropping | FDropped.

(** The counter of a field, and the statement [s.f += n]. *)
Definition dsGet (f : statField) (s : DiskStatInfo) : Z :=
  match f with
  | FTotal => dsTotal s
  | FTotalChunk => dsTotalChunk s
  | FTotalFreeChunk => dsTotalFreeChunk s
  | FTotalOversoldFreeChunk => dsTotalOversoldFreeChunk s
  | FTotalShard => dsTotalShard s
  | FTotalFreeShard => dsTotalFreeShard s
  | FAvailable => dsAvailable s
  | FReadonly => dsReadonly s
  | FExpired => dsExpired s
  | FBroken => dsBroken s
  | FRepairing => dsRepairing s
  | FRepaired => dsRepaired s
  | FDropping => dsDropping s
  | FDropped => dsDropped s
  end.

Definition dsAdd (f : statField) (n : Z) (s : DiskStatInfo) : DiskStatInfo :=
  let v (g : statField) : Z :=
    match f, g with
    | FTotal, FTotal | FTotalChunk, FTotalChunk
    | FTotalFreeChunk, FTotalFreeChunk
    | FTotalOversoldFreeChunk, FTotalOversoldFreeChunk
    | FTotalShard, FTotalShard | FTotalFreeShard, FTotalFreeShard
    | FAvailable, FAvailable | FReadonly, FReadonly | FExpired, FExpired
    | FBroken, FBroken | FRepairing, FRepairing | FRepaired, FRepaired
    | FDropping, FDropping | FDropped, FDropped => wrap64 (dsGet g s + n)
    | _, _ => dsGet g s
    end in
  mkDiskStatInfo (dsIDC s) (v FTotal) (v FTotalChunk) (v FTotalFreeChunk)
    (v FTotalOversoldFreeChunk) (v FTotalShard) (v FTotalFreeShard)
    (v FAvailable) (v FReadonly) (v FExpired) (v FBroken) (v FRepairing)
    (v FRepaired) (v FDropping) (v FDropped).

(** [rackAllocator] and [idcAllocator].  The node allocators they point to
    are given by value, as they stand when the pass returns; a nil map of
    racks is [None]. *)
Record rackAllocator : Type := mkRackAllocator {
  raRack : string;
  raWeight : Z;
  raNodeStorages : list nodeAllocator
}.

Record idcAllocator : Type := mkIdcAllocator {
  iaIdc : string;
  iaWeight : Z;
  iaDiffRack : bool;
  iaDiffHost : bool;
  iaRackStorages : option (gmap string rackAllocator);
  iaNodeStorages : list nodeAllocator
}.

(** The four variables [free], [size], [diskFreeItem] and [diskMaxItem],
    which are declared before the loop over the disks and so keep their
    values from one disk to the next. *)
Record carried : Type := mkCarried {
  cFree : Z;
  cSize : Z;
  cDiskFreeItem : Z;
  cDiskMaxItem : Z
}.

(** The maps the loop fills.  A [*nodeAllocator] is the host it is stored
    under in [nodeStgs]: the slices of [idcNodeStgs] and [rackNodeStgs] hold
    hosts, and what is appended to an allocator later is seen through
    them. *)
Record storages : Type := mkStorages {
  nodeStgs : gmap string nodeAllocator;
  idcFreeItems : gmap string Z;
  idcRackStgs : gmap string (gmap string rackAllocator);
  idcNodeStgs : gmap string (list string);
  rackNodeStgs : gmap string (list string);
  rackFreeItems : gmap string Z
}.

(** The state of the loop between two disks. *)
Record pass : Type := mkPass {
  locals : carried;
  maps : storages;
  spaceStatInfo : SpaceStatInfo;
  diskStatInfosM : gmap string DiskStatInfo
}.

(** The node allocators behind a slice of pointers. *)
Definition deref (nodes : gmap string nodeAllocator) (ptrs : list string)
  : list nodeAllocator :=
  omap (fun host => nodes !! host) ptrs.

Section Storage.

Context {P T : Type}.

Implicit Types (d : @manager P T).

(** The IDC, the rack and the host a disk is filed under: those of its
    node when the node is registered, its own otherwise. *)
Definition diskLocality d (disk : diskItem) : string * string * string :=
  match getNode d (dNodeID (info disk)) with
  | Some node => (nIdc (ninfo node), nRack (ninfo node), nHost (ninfo node))
  | None => (dIdc (info disk), dRack (info disk), dHost (info disk))
  end.

(** The two type assertions on the heartbeat payload.  In the first, the
    short declaration of [diskFreeItem] beside [originalDiskFreeItem] makes
    a new variable: the oversold count goes to the statistics and the
    variable of the function keeps the plain count of free chunks.  A disk
    without payload leaves the four variables as the disk before left
    them. *)
Definition readHeartbeat (disk : diskItem) (idc : string) (c : carried)
    (stats : gmap string DiskStatInfo) : carried * gmap string DiskStatInfo :=
  match extraInfo disk with
  | Some (DiskHeartBeatInfo Free Size FreeChunkCnt OversoldFreeChunkCnt
            MaxChunkCnt) =>
    let originalDiskFreeItem := FreeChunkCnt in
    let diskFreeItem :=
      if OversoldFreeChunkCnt >? FreeChunkCnt then OversoldFreeChunkCnt
      else FreeChunkCnt in
    (mkCarried Free Size FreeChunkCnt MaxChunkCnt,
     alter (fun s =>
              dsAdd FTotalChunk MaxChunkCnt
                (dsAdd FTotalOversoldFreeChunk diskFreeItem
                   (dsAdd FTotalFreeChunk originalDiskFreeItem s)))
           idc stats)
  | Some (ShardNodeDiskHeartbeatInfo Free Size FreeShardCnt MaxShardCnt) =>
    (mkCarried Free Size FreeShardCnt MaxShardCnt,
     alter (fun s =>
              dsAdd FTotalShard MaxShardCnt
                (dsAdd FTotalFreeShard FreeShardCnt s))
           idc stats)
  | None => (c, stats)
  end.

(** The closure that reads one disk, with the reading [now] of the clock
    made explicit.  It gives the four variables, the two statistics and the
    error that makes the loop skip the disk. *)
Definition readDisk (now : Z) d (disk : diskItem) (c : carried)
    (space : SpaceStatInfo) (stats : gmap string DiskStatInfo)
  : carried * SpaceStatInfo * gmap string DiskStatInfo * goerror :=
  let '(idc, _, _) := diskLocality d disk in
  (* idc disk status num calculate *)
  let stats :=
    match stats !! idc with
    | None =>
      <[idc := mkDiskStatInfo idc 0 0 0 0 0 0 0 0 0 0 0 0 0 0]> stats
    | Some _ => stats
    end in
  let '(c, stats) := readHeartbeat disk idc c stats in
  let readonly := dReadonly (info disk) in
  let status := dStatus (info disk) in
  let space :=
    mkSpaceStatInfo (TotalSpace space) (FreeSpace space)
      (ReadOnlySpace space) (UsedSpace space) (WritableSpace space)
      (wrap64 (TotalDisk space + 1)) in
  let stats := alter (dsAdd FTotal 1) idc stats in
  let stats := if readonly then alter (dsAdd FReadonly 1) idc stats
               else stats in
  let stats :=
    if (status =? DiskStatusBroken)%N then alter (dsAdd FBroken 1) idc stats
    else if (status =? DiskStatusRepairing)%N
    then alter (dsAdd FRepairing 1) idc stats
    else if (status =? DiskStatusRepaired)%N
    then alter (dsAdd FRepaired 1) idc stats
    else if (status =? DiskStatusDropped)%N
    then alter (dsAdd FDropped 1) idc stats
    else stats in
  let stats := if dropping disk then alter (dsAdd FDropping 1) idc stats
               else stats in
  (* filter abnormal disk *)
  if negb (status =? DiskStatusNormal)%N
  then (c, space, stats, Some (ErrNew "abnormal disk"))
  else
    let space :=
      mkSpaceStatInfo (wrap64 (TotalSpace space + cSize c)) (FreeSpace space)
        (ReadOnlySpace space) (UsedSpace space) (WritableSpace space)
        (TotalDisk space) in
    if readonly (* include dropping disk *)
    then
      (c,
       mkSpaceStatInfo (TotalSpace space) (FreeSpace space)
         (wrap64 (ReadOnlySpace space + cFree c)) (UsedSpace space)
         (WritableSpace space) (TotalDisk space),
       stats, Some (ErrNew "readonly disk"))
    else
      let space :=
        mkSpaceStatInfo (TotalSpace space)
          (wrap64 (FreeSpace space + cFree c)) (ReadOnlySpace space)
          (UsedSpace space) (WritableSpace space) (TotalDisk space) in
      let stats := alter (dsAdd FAvailable 1) idc stats in
      (* filter expired disk *)
      if isExpire now disk
      then (c, space, alter (dsAdd FExpired 1) idc stats,
            Some (ErrNew "expired disk"))
      else (c, space, stats, None).

(** The rest of the body of the loop, for a disk that was not skipped. *)
Definition buildAllocators (idc rack host : string) (c : carried)
    (disk : diskItem) (s : storages) : storages :=
  (* build for idcRackStorage *)
  let idcRackStgs1 :=
    match idcRackStgs s !! idc with
    | None => <[idc := ∅]> (idcRackStgs s)
    | Some _ => idcRackStgs s
    end in
  let idcRackStgs2 :=
    alter (fun racks =>
             match racks !! rack with
             | None => <[rack := mkRackAllocator rack 0 []]> racks
             | Some _ => racks
             end) idc idcRackStgs1 in
  (* build for idcAllocator *)
  let '(idcNodeStgs1, idcFreeItems1) :=
    match idcNodeStgs s !! idc with
    | None => (<[idc := []]> (idcNodeStgs s), <[idc := 0]> (idcFreeItems s))
    | Some _ => (idcNodeStgs s, idcFreeItems s)
    end in
  let idcFreeItems2 :=
    <[idc := wrap64 (default 0 (idcFreeItems1 !! idc) + cDiskFreeItem c)]>
      idcFreeItems1 in
  (* build for rackAllocator *)
  let '(rackNodeStgs1, rackFreeItems1) :=
    match rackNodeStgs s !! rack with
    | None =>
      (<[rack := []]> (rackNodeStgs s), <[rack := 0]> (rackFreeItems s))
    | Some _ => (rackNodeStgs s, rackFreeItems s)
    end in
  let rackFreeItems2 :=
    <[rack := wrap64 (default 0 (rackFreeItems1 !! rack) + cDiskFreeItem c)]>
      rackFreeItems1 in
  (* build for nodeAllocator *)
  let '(nodeStgs1, idcNodeStgs2, rackNodeStgs2) :=
    match nodeStgs s !! host with
    | None =>
      (<[host := mkNodeAllocator host [] 0 0]> (nodeStgs s),
       (* append idc data node *)
       <[idc := default [] (idcNodeStgs1 !! idc) ++ [host]]> idcNodeStgs1,
       (* append rack data node *)
       <[rack := default [] (rackNodeStgs1 !! rack) ++ [host]]>
         rackNodeStgs1)
    | Some _ => (nodeStgs s, idcNodeStgs1, rackNodeStgs1)
    end in
  let nodeStgs2 :=
    alter (fun n =>
             mkNodeAllocator (naHost n) (naDisks n ++ [diskID disk])
               (wrap64 (naWeight n + cDiskFreeItem c))
               (wrap64 (naFree n + cFree c))) host nodeStgs1 in
  mkStorages nodeStgs2 idcFreeItems2 idcRackStgs2 idcNodeStgs2 rackNodeStgs2
             rackFreeItems2.

(** The body of the loop over the disks. *)
Definition generateDiskSetStorage_disk (now : Z) d (p : pass)
    (disk : diskItem) : pass :=
  let '(idc, rack, host) := diskLocality d disk in
  let '(c, space, stats, err) :=
    readDisk now d disk (locals p) (spaceStatInfo p) (diskStatInfosM p) in
  (* rack can be the same in different idc, so we make rack string with
     idc *)
  let rack := idc +:+ "-" +:+ rack in
  match err with
  | Some _ => mkPass c (maps p) space stats
  | None => mkPass c (buildAllocators idc rack host c disk (maps p)) space stats
  end.

Definition generateDiskSetStorage_loop (now : Z) d (disks : list diskItem)
    (spaceStatInfo : SpaceStatInfo)
    (diskStatInfosM : gmap string DiskStatInfo) : pass :=
  foldl (generateDiskSetStorage_disk now d)
    (mkPass (mkCarried 0 0 0 0) (mkStorages ∅ ∅ ∅ ∅ ∅ ∅) spaceStatInfo
       diskStatInfosM)
    disks.

(** The rack allocators once the loop is over: each gets the weight and
    the nodes filed under its key. *)
Definition finishRacks (s : storages)
  : gmap string (gmap string rackAllocator) :=
  (fun rackStgs : gmap string rackAllocator =>
     map_imap (fun rack r =>
                 Some (mkRackAllocator (raRack r)
                         (default 0 (rackFreeItems s !! rack))
                         (deref (nodeStgs s)
                            (default [] (rackNodeStgs s !! rack)))))
              rackStgs) <$> idcRackStgs s.

(** The loop over the configured IDCs, which makes the map that is
    returned and adds up the free items. *)
Definition idcAllocators (c : DiskMgrConfig) (s : storages)
  : gmap string idcAllocator * Z :=
  foldl (fun '(ret, freeChunk) idc =>
           (<[idc := mkIdcAllocator idc (default 0 (idcFreeItems s !! idc))
                       (RackAware c) (HostAware c) (finishRacks s !! idc)
                       (deref (nodeStgs s)
                          (default [] (idcNodeStgs s !! idc)))]> ret,
            wrap64 (freeChunk + default 0 (idcFreeItems s !! idc))))
        (∅, 0) (IDC c).

(** [generateDiskSetStorage].  Beside the map and the count of free chunks
    it returns, it gives the two statistics it is handed and writes to.  The
    map is [None] for the nil map. *)
Definition generateDiskSetStorage (fuel : nat) (now : Z)
    (disks : list diskItem) (spaceStatInfo0 : SpaceStatInfo)
    (diskStatInfosM0 : gmap string DiskStatInfo) d
  : fueled (option (gmap string idcAllocator) * Z * SpaceStatInfo
            * gmap string DiskStatInfo) :=
  let p := generateDiskSetStorage_loop now d disks spaceStatInfo0
             diskStatInfosM0 in
  let s := maps p in
  let space := spaceStatInfo p in
  let space :=
    mkSpaceStatInfo (TotalSpace space) (FreeSpace space)
      (ReadOnlySpace space)
      (wrap64 (wrap64 (TotalSpace space - FreeSpace space)
               - ReadOnlySpace space))
      (WritableSpace space) (TotalDisk space) in
  if (0 <? size (idcRackStgs s))%nat then
    let '(ret, freeChunk) := idcAllocators (cfg d) s in
    match calculateWritable fuel (cfg d)
            (deref (nodeStgs s) <$> idcNodeStgs s) with
    | Finished writable =>
      Finished
        (Some ret, freeChunk,
         mkSpaceStatInfo (TotalSpace space) (FreeSpace space)
           (ReadOnlySpace space) (UsedSpace space)
           (wrap64 (WritableSpace space + writable)) (TotalDisk space),
         diskStatInfosM p)
    | Crashed => Crashed
    | OutOfFuel => OutOfFuel
    end
  else Finished (None, 0, space, diskStatInfosM p).

(** *** What the pass files, in closed form *)

(** The disks that are not skipped: Normal, writable and not expired. *)
Definition allocatable (now : Z) (disk : diskItem) : bool :=
  (dStatus (info disk) =? DiskStatusNormal)%N
  && negb (dReadonly (info disk)) && negb (isExpire now disk).

(** The four variables after a disk was read: those of its payload, or
    those left by the disk before when it has none. *)
Definition carry (c : carried) (disk : diskItem) : carried :=
  match extraInfo disk with
  | Some (DiskHeartBeatInfo Free Size FreeChunkCnt _ MaxChunkCnt) =>
    mkCarried Free Size FreeChunkCnt MaxChunkCnt
  | Some (ShardNodeDiskHeartbeatInfo Free Size FreeShardCnt MaxShardCnt) =>
    mkCarried Free Size FreeShardCnt MaxShardCnt
  | None => c
  end.

(** The disks of a pass, each with the four variables in force when it is
    filed. *)
Fixpoint withCarried (c : carried) (disks : list diskItem)
  : list (diskItem * carried) :=
  match disks with
  | [] => []
  | disk :: rest => (disk, carry c disk) :: withCarried (carry c disk) rest
  end.

(** The disks that are filed, and those filed under a host or an IDC. *)
Definition filed (now : Z) (disks : list diskItem)
  : list (diskItem * carried) :=
  filter (fun e => allocatable now e.1 = true)
         (withCarried (mkCarried 0 0 0 0) disks).

Definition filedUnderHost (now : Z) d (host : string)
    (disks : list diskItem) : list (diskItem * carried) :=
  filter (fun e => (diskLocality d e.1).2 = host) (filed now disks).

Definition filedUnderIdc (now : Z) d (idc : string)
    (disks : list diskItem) : list (diskItem * carried) :=
  filter (fun e => (diskLocality d e.1).1.1 = idc) (filed now disks).

(** The allocator of a host that holds the given disks. *)
Definition nodeAllocatorOf (host : string)
    (entries : list (diskItem * carried)) : nodeAllocator :=
  mkNodeAllocator host ((diskID ∘ fst) <$> entries)
    (wrap64 (sumZ ((cDiskFreeItem ∘ snd) <$> entries)))
    (wrap64 (sumZ ((cFree ∘ snd) <$> entries))).

End Storage.

(** ** More sample states *)

(** A backend whose writes never fail: it keeps the two dropping lists and
    nothing else. *)
Record listStore : Type := mkListStore {
  lsDroppingDisks : gset DiskID;
  lsDroppingNodes : gset NodeID
}.

#[global] Instance listStore_handler : persistentHandler listStore := {|
  updateDiskNoLocked _ s := (None, s);
  updateDiskStatusNoLocked _ _ s := (None, s);
  addDiskNoLocked _ s := (None, s);
  updateNodeNoLocked _ s := (None, s);
  addDroppingDisk id s :=
    (None, mkListStore ({[id]} ∪ lsDroppingDisks s) (lsDroppingNodes s));
  addDroppingNode id s :=
    (None, mkListStore (lsDroppingDisks s) ({[id]} ∪ lsDroppingNodes s));
  isDroppingDisk id s := (bool_decide (id ∈ lsDroppingDisks s), None);
  isDroppingNode id s := (bool_decide (id ∈ lsDroppingNodes s), None);
  droppedDisk id s :=
    (None, mkListStore (lsDroppingDisks s ∖ {[id]}) (lsDroppingNodes s));
  droppedNode id s :=
    (None, mkListStore (lsDroppingDisks s) (lsDroppingNodes s ∖ {[id]}))
|}.

(** Disk 10 readonly, and disk 10 readonly and dropping, field by
    field. *)
Definition lockedDisk : diskItem :=
  mkDiskItem 10%N
    (mkDiskInfo 1%N "h1" "/d1" "z0" "r1" DiskStatusNormal true 1%N)
    None false 60000000000 60000000000.

Definition markedDisk : diskItem :=
  mkDiskItem 10%N
    (mkDiskInfo 1%N "h1" "/d1" "z0" "r1" DiskStatusNormal true 1%N)
    None true 60000000000 60000000000.

(** Node 1 with two Normal disks: disk 10 is readonly, disk 11 is not. *)
Definition secondDisk : diskItem :=
  mkDiskItem 11%N
    (mkDiskInfo 1%N "h1" "/d2" "z0" "r1" DiskStatusNormal false 1%N)
    None false 60000000000 60000000000.

Definition twoDiskManager : @manager listStore memTopo :=
  mkManager (<[10%N := lockedDisk]> {[11%N := secondDisk]})
    {[1%N := mkNodeItem 1%N sampleNodeInfo {[10%N; 11%N]} false]}
    (mkMemTopo {[(1%N, 1%N) := {[1%N]}]}
       {[(1%N, 1%N, 1%N) := {[10%N; 11%N]}]})
    (<[DiskKey "h1" "/d1" := DiskEntry]>
       (<[DiskKey "h1" "/d2" := DiskEntry]>
          {[NodeKey "h1" 1%N := NodeEntry 1%N]}))
    ∅ (mkListStore ∅ ∅) sampleConfig.

(** A backend that lists disk 10 as dropping, and one that does so while
    its writes fail. *)
Definition droppingDiskStore : memStore :=
  mkMemStore {[10%N := markedDisk]} {[1%N := sampleNode]} {[10%N]} ∅ None.

Definition failingDroppingStore : memStore :=
  mkMemStore {[10%N := markedDisk]} {[1%N := sampleNode]} {[10%N]} ∅
             (Some 5%N).

(** The empty manager over a backend whose writes fail. *)
Definition failingEmptyManager : @manager memStore memTopo :=
  mkManager ∅ ∅ emptyTopo ∅ ∅ (mkMemStore ∅ ∅ ∅ ∅ (Some 5%N)) sampleConfig.

(** Disk 10 after an outage: its last heartbeat moved [expireTime] from 0
    to 120 s. *)
Definition recoveredDisk : diskItem :=
  mkDiskItem 10%N sampleDiskInfo None false 120000000000 0.

(** A configuration that is not host aware. *)
Definition spreadConfig : DiskMgrConfig :=
  mkDiskMgrConfig false false 60 ["z0"; "z1"; "z2"] [mkTactic 6 6 0] 16 0.

(** A configuration with fewer units to a stripe than IDCs. *)
Definition thinConfig : DiskMgrConfig :=
  mkDiskMgrConfig true false 60 ["z0"; "z1"; "z2"] [mkTactic 1 1 0] 16 0.


(** Three code modes, the widest in the middle. *)
Definition mixedConfig : DiskMgrConfig :=
  mkDiskMgrConfig true false 60 ["z0"]
                  [mkTactic 2 1 0; mkTactic 6 6 0; mkTactic 4 4 4] 16 0.

(** [RefreshExpireTime] with every reading of the clock made explicit: the
    loop reads the clock twice for each disk, and [clock di] is the pair of
    readings made for [di], the first for [lastExpireTime] and the second
    for [expireTime]. *)
Definition RefreshExpireTime_readings {P T : Type}
    (clock : diskItem -> Z * Z) (d : @manager P T) : @manager P T :=
  let interval := wrap64 (HeartbeatExpireIntervalS (cfg d) * Second) in
  set_allDisks
    ((fun di => mkDiskItem (diskID di) (info di) (extraInfo di) (dropping di)
                           ((clock di).2 + interval)
                           ((clock di).1 + interval)) <$> allDisks d) d.

(** Three disks of node 1 as a pass finds them: disk 10 reports 4 free
    chunks, 6 when oversold, and 64 GiB free; disk 11 has not sent a
    heartbeat yet; disk 12 is Broken. *)
Definition reportingDisk : diskItem :=
  mkDiskItem 10%N sampleDiskInfo
    (Some (DiskHeartBeatInfo (64 * 2 ^ 30) (128 * 2 ^ 30) 4 6 8)) false
    60000000000 60000000000.

Definition brokenDisk : diskItem :=
  mkDiskItem 12%N
    (mkDiskInfo 1%N "h1" "/d3" "z0" "r1" DiskStatusBroken false 1%N)
    None false 60000000000 60000000000.

Definition passDisks : list diskItem :=
  [reportingDisk; secondDisk; brokenDisk].

Definition noSpace : SpaceStatInfo := mkSpaceStatInfo 0 0 0 0 0 0.

(** The sample manager under the configuration with fewer units to a
    stripe than IDCs. *)
Definition thinManager : @manager memStore memTopo :=
  mkManager {[10%N := sampleDisk]} {[1%N := sampleNode]} emptyTopo ∅ ∅
            sampleStore thinConfig.

(** * Properties *)

Section ManagerFacts.

Context {P T : Type} {PH : persistentHandler P} {TM : topoMgrAPI T}
        {MR : mapRange}.

Implicit Types (d : @manager P T) (disk : diskItem) (node : nodeItem).

(** The ordinals of the ladder: Normal 0, Broken 1, Repairing 2,
    Repaired 3, Dropped 4, and no other status has one. *)
Lemma validSetStatus_table (s : DiskStatus) (o : Z) :
  validSetStatus s = Some o <->
  (s = DiskStatusNormal /\ o = 0) \/ (s = DiskStatusBroken /\ o = 1)
  \/ (s = DiskStatusRepairing /\ o = 2) \/ (s = DiskStatusRepaired /\ o = 3)
  \/ (s = DiskStatusDropped /\ o = 4).
Proof.
  unfold validSetStatus. split.
  - destruct (N.eqb_spec s DiskStatusNormal) as [-> | ?];
      [intros [= <-]; tauto |].
    destruct (N.eqb_spec s DiskStatusBroken) as [-> | ?];
      [intros [= <-]; tauto |].
    destruct (N.eqb_spec s DiskStatusRepairing) as [-> | ?];
      [intros [= <-]; tauto |].
    destruct (N.eqb_spec s DiskStatusRepaired) as [-> | ?];
      [intros [= <-]; tauto |].
    destruct (N.eqb_spec s DiskStatusDropped) as [-> | ?];
      [intros [= <-]; tauto |].
    intros [=].
  - intros [[-> ->] | [[-> ->] | [[-> ->] | [[-> ->] | [-> ->]]]]];
      reflexivity.
Qed.

Lemma validSetStatus_range (s : DiskStatus) (o : Z) :
  validSetStatus s = Some o -> 0 <= o <= 4.
Proof. rewrite validSetStatus_table. lia. Qed.

(** What the check of [SetStatus] answers in pre-check mode to a request
    that changes the status of a disk of a known status. *)
Lemma SetStatus_check_precheck disk status before after :
  dStatus (info disk) <> status ->
  validSetStatus (dStatus (info disk)) = Some before ->
  SetStatus_check disk status after false =
  Some (if dropping disk && negb (N.eqb status DiskStatusDropped)
        then Some ErrChangeDiskStatusNotAllow
        else if (before >? after)
                || ((after - before >? 1)
                    && negb (N.eqb status DiskStatusDropped))
        then Some ErrChangeDiskStatusNotAllow
        else None).
Proof.
  intros Hne Hb. unfold SetStatus_check.
  destruct (N.eqb_spec (dStatus (info disk)) status) as [? | _]; [done |].
  destruct (dropping disk && negb (status =? DiskStatusDropped)%N); [done |].
  rewrite Hb. simpl.
  by destruct ((before >? after)
               || ((after - before >? 1)
                   && negb (status =? DiskStatusDropped)%N)).
Qed.

(** The boolean test of the ladder, and what it decides. *)
Lemma ladder_test_spec (status : DiskStatus) (before after : Z) :
  (before >? after)
  || ((after - before >? 1) && negb (N.eqb status DiskStatusDropped)) = true
  <-> before > after \/ (after - before > 1 /\ status <> DiskStatusDropped).
Proof.
  rewrite orb_true_iff, andb_true_iff, negb_true_iff, N.eqb_neq.
  rewrite !Z.gtb_ltb, !Z.ltb_lt. lia.
Qed.

(** C1: for a registered disk and a request for another status, both on
    the ladder, [SetStatus] in pre-check mode changes nothing and, when the
    disk is not dropping, returns [ErrChangeDiskStatusNotAllow] exactly
    when the ordinal goes down or goes up by more than one to a status other
    than Dropped, and nil otherwise; so every jump to Dropped is accepted.
    When the disk is dropping, every status other than Dropped is rejected
    with [ErrChangeDiskStatusNotAllow]. *)
Theorem SetStatus_precheck_ladder d id disk status before after :
  getDisk d id = Some disk ->
  dStatus (info disk) <> status ->
  validSetStatus (dStatus (info disk)) = Some before ->
  validSetStatus status = Some after ->
  (dropping disk = false ->
   (SetStatus id status false d
    = Returns (Some ErrChangeDiskStatusNotAllow) d
    <-> before > after
        \/ (after - before > 1 /\ status <> DiskStatusDropped))
   /\ (~ (before > after
          \/ (after - before > 1 /\ status <> DiskStatusDropped)) ->
       SetStatus id status false d = Returns None d)
   /\ (status = DiskStatusDropped ->
       SetStatus id status false d = Returns None d))
  /\ (dropping disk = true ->
      status <> DiskStatusDropped ->
      SetStatus id status false d
      = Returns (Some ErrChangeDiskStatusNotAllow) d).
Proof.
  intros Hd Hne Hb Ha.
  assert (Hrun : SetStatus id status false d =
                 match SetStatus_check disk status after false with
                 | None => Panics
                 | Some (Some err) => Returns (Some err) d
                 | Some None => Returns None d
                 end).
  { unfold SetStatus. rewrite Ha, Hd. reflexivity. }
  rewrite Hrun, (SetStatus_check_precheck disk status before after Hne Hb).
  pose proof (validSetStatus_range _ _ Hb) as Rb.
  pose proof (ladder_test_spec status before after) as Ht.
  split.
  - intros ->. simpl.
    destruct ((before >? after)
              || ((after - before >? 1)
                  && negb (N.eqb status DiskStatusDropped))) eqn:E.
    + apply proj1 in Ht. specialize (Ht eq_refl).
      split; [tauto |]. split; [tauto |].
      intros ->. apply validSetStatus_table in Ha. exfalso.
      unfold DiskStatusDropped, DiskStatusNormal, DiskStatusBroken,
        DiskStatusRepairing, DiskStatusRepaired in *.
      destruct Ha as [[? ?] | [[? ?] | [[? ?] | [[? ?] | [? ?]]]]];
        try discriminate; lia.
    + split; [| done].
      split; [discriminate |].
      intros H'. apply Ht in H'. discriminate.
  - intros -> Hs. apply N.eqb_neq in Hs. rewrite Hs. reflexivity.
Qed.

(** C7: the registration check changes nothing and returns nil for the
    compatible re-registration (the id is known with the invalid node id,
    the request carries a valid node id, and host, IDC and rack of the known
    disk are those of the registering node), [ErrExist] for any other known
    id, [ErrIllegalArguments] for a new id whose host and path are in
    [hostPathFilter], and nil otherwise. *)
Theorem CheckDiskInfoDuplicated_cases d (id : DiskID) (diskInfo : DiskInfo)
    (nodeInfo : NodeInfo) :
  let compatible di :=
    dNodeID (info di) = InvalidNodeID /\ dNodeID diskInfo <> InvalidNodeID
    /\ dHost (info di) = nHost nodeInfo /\ dIdc (info di) = nIdc nodeInfo
    /\ dRack (info di) = nRack nodeInfo in
  let key := DiskKey (nHost nodeInfo) (dPath diskInfo) in
  (forall di, getDisk d id = Some di -> compatible di ->
     CheckDiskInfoDuplicated id diskInfo nodeInfo d = Returns None d)
  /\ (forall di, getDisk d id = Some di -> ~ compatible di ->
        CheckDiskInfoDuplicated id diskInfo nodeInfo d
        = Returns (Some ErrExist) d)
  /\ (getDisk d id = None -> is_Some (hostPathFilter d !! key) ->
        CheckDiskInfoDuplicated id diskInfo nodeInfo d
        = Returns (Some ErrIllegalArguments) d)
  /\ (getDisk d id = None -> hostPathFilter d !! key = None ->
        CheckDiskInfoDuplicated id diskInfo nodeInfo d = Returns None d).
Proof.
  intros compatible key. unfold CheckDiskInfoDuplicated.
  split; [| split; [| split]].
  - intros di -> (H1 & H2 & H3 & H4 & H5).
    rewrite H1, H3, H4, H5, !bool_decide_eq_true_2 by done.
    apply N.eqb_neq in H2. by rewrite H2.
  - intros di -> Hn.
    destruct (_ && _) eqn:E; [| done].
    exfalso. apply Hn.
    rewrite !andb_true_iff, negb_true_iff, N.eqb_eq, N.eqb_neq in E.
    rewrite !bool_decide_eq_true in E. unfold compatible. tauto.
  - intros -> [v Hv]. fold key. by rewrite Hv.
  - intros -> Hv. fold key. by rewrite Hv.
Qed.

Lemma set_readonly_back disk (readonly : bool) :
  dReadonly (info disk) <> readonly ->
  set_readonly (negb readonly) (set_readonly readonly disk) = disk.
Proof.
  destruct disk as [i [nd h pa idc ra st ro ds] x dr e l]. simpl.
  intros H. unfold set_readonly, set_info, set_dReadonly. simpl.
  by destruct ro, readonly.
Qed.

(** C9: for a registered disk, [applySwitchReadonly] returns nil and
    touches nothing, the backend included, when the readonly bit already
    has the requested value; otherwise it hands the disk with the new bit to
    the backend and, when the write succeeds, returns nil and keeps the new
    bit: the disk found under the id afterwards has the requested bit and is
    otherwise as it was, and nothing else of the manager has changed but the
    backend; when the write fails it returns the error of the backend and
    the disk is back as it was, so that the manager differs at most by the
    state the backend was left in.  The disk with the new bit and the two
    managers are written out field by field. *)
Theorem applySwitchReadonly_cases d (id : DiskID) disk (readonly : bool) :
  let switched :=
    mkDiskItem (diskID disk)
      (mkDiskInfo (dNodeID (info disk)) (dHost (info disk))
         (dPath (info disk)) (dIdc (info disk)) (dRack (info disk))
         (dStatus (info disk)) readonly (dDiskSetID (info disk)))
      (extraInfo disk) (dropping disk) (expireTime disk)
      (lastExpireTime disk) in
  getDisk d id = Some disk ->
  (dReadonly (info disk) = readonly ->
     applySwitchReadonly id readonly d = Returns None d)
  /\ (dReadonly (info disk) <> readonly ->
      forall p,
        updateDiskNoLocked switched (persistent d) = (None, p) ->
        applySwitchReadonly id readonly d
        = Returns None
            (mkManager (<[id := switched]> (allDisks d)) (allNodes d)
               (topoMgr d) (hostPathFilter d) (pendingEntries d) p (cfg d))
        /\ forall d',
             applySwitchReadonly id readonly d = Returns None d' ->
             (dReadonly ∘ info <$> getDisk d' id) = Some readonly
             /\ forall k, k <> id -> getDisk d' k = getDisk d k)
  /\ (dReadonly (info disk) <> readonly ->
      forall e p,
        updateDiskNoLocked switched (persistent d) = (Some e, p) ->
        applySwitchReadonly id readonly d
        = Returns (Some e)
            (mkManager (allDisks d) (allNodes d) (topoMgr d)
               (hostPathFilter d) (pendingEntries d) p (cfg d))
        /\ forall d',
             applySwitchReadonly id readonly d = Returns (Some e) d' ->
             getDisk d' id = Some disk).
Proof.
  intros switched Hd. unfold applySwitchReadonly. rewrite Hd.
  change (set_readonly readonly disk) with switched.
  split; [| split].
  - intros ->. by rewrite eqb_reflx.
  - intros Hne p Hp.
    destruct (Bool.eqb_spec (dReadonly (info disk)) readonly); [done |].
    rewrite Hp. split; [reflexivity |].
    intros d' [= <-]. unfold getDisk. simpl. split.
    + by rewrite lookup_insert_eq.
    + intros k Hk. by rewrite lookup_insert_ne.
  - intros Hne e p Hp.
    destruct (Bool.eqb_spec (dReadonly (info disk)) readonly); [done |].
    rewrite Hp.
    assert (set_readonly (negb readonly) switched = disk) as ->.
    { apply (set_readonly_back disk readonly Hne). }
    assert (<[id := disk]> (allDisks d) = allDisks d) as Hid
      by by apply insert_id.
    split.
    + unfold set_allDisks, set_persistent. simpl. by rewrite Hid.
    + intros d' [= <-]. unfold getDisk. simpl. by rewrite lookup_insert_eq.
Qed.

(** C6: for a registered disk, [applyDroppingDisk] answers "already" with
    no error and no change when the disk is dropping; for a disk that is not
    dropping and is not both Normal and readonly, the pre-check returns
    [ErrDiskAbnormalOrNotReadOnly] with no change; for a disk that is not
    dropping, Normal and readonly, the commit records the disk in the
    dropping list of the backend and, when that succeeds, sets [dropping]
    and takes the disk out of the DiskSet of its node. *)
Theorem applyDroppingDisk_cases d (id : DiskID) disk :
  getDisk d id = Some disk ->
  (dropping disk = true ->
     forall isCommit,
       applyDroppingDisk id isCommit d = Returns (true, None) d)
  /\ (dropping disk = false ->
      dStatus (info disk) <> DiskStatusNormal
      \/ dReadonly (info disk) = false ->
      applyDroppingDisk id false d
      = Returns (false, Some ErrDiskAbnormalOrNotReadOnly) d)
  /\ (dropping disk = false ->
      dStatus (info disk) = DiskStatusNormal ->
      dReadonly (info disk) = true ->
      forall p,
        addDroppingDisk id (persistent d) = (None, p) ->
        let disk' := set_dropping true disk in
        applyDroppingDisk id true d
        = Returns (false, None)
            (mkManager (<[id := disk']> (allDisks d)) (allNodes d)
               match getNode d (dNodeID (info disk)) with
               | Some node =>
                 RemoveDiskFromDiskSet (nDiskType (ninfo node))
                   (nNodeSetID (ninfo node)) disk' (topoMgr d)
               | None => topoMgr d
               end
               (hostPathFilter d) (pendingEntries d) p (cfg d))).
Proof.
  intros Hd. unfold applyDroppingDisk. rewrite Hd.
  split; [| split].
  - by intros ->.
  - intros -> Hor.
    destruct (_ || _) eqn:E; [done |].
    rewrite orb_false_iff, !negb_false_iff, N.eqb_eq in E.
    destruct Hor as [? | H']; [tauto |].
    destruct E as [_ E]. congruence.
  - intros -> Hs Hr p Hp.
    rewrite Hs, Hr, Hp. simpl.
    unfold getNode. simpl.
    by destruct (allNodes d !! dNodeID (info disk)).
Qed.

(** C10: for a registered node that is not in use or is dropping,
    [applyDroppingNode] answers "already" with a nil error, whether in
    pre-check or in commit mode, and the manager is as it was. *)
Theorem applyDroppingNode_already d (nid : NodeID) node (isCommit : bool) :
  getNode d nid = Some node ->
  isUsingStatus node = false \/ ndropping node = true ->
  applyDroppingNode nid isCommit d = Returns (true, None) d.
Proof.
  intros Hn Hor. unfold applyDroppingNode. rewrite Hn.
  destruct Hor as [-> | ->]; [done |].
  by rewrite orb_true_r.
Qed.

Lemma elem_of_rangeKeys (s : gset N) (x : N) : x ∈ rangeKeys s <-> x ∈ s.
Proof. by rewrite (rangeKeys_perm s), elem_of_elements. Qed.

Lemma checkDisksInUse_None d (l : list DiskID) :
  checkDisksInUse l d = None <->
  forall id di, id ∈ l -> getDisk d id = Some di -> needFilter di = false.
Proof.
  induction l as [| x l IH]; simpl.
  - split; [| done]. intros _ id di Hin. by apply elem_of_nil in Hin.
  - destruct (getDisk d x) as [dx |] eqn:Ex.
    + destruct (needFilter dx) eqn:En.
      * split; [done |]. intros H.
        specialize (H x dx (list_elem_of_here _ _) Ex). congruence.
      * rewrite IH. split.
        -- intros H id di [-> | Hin]%elem_of_cons Hg; [congruence | eauto].
        -- intros H id di Hin. apply H. by apply list_elem_of_further.
    + rewrite IH. split.
      * intros H id di [-> | Hin]%elem_of_cons Hg; [congruence | eauto].
      * intros H id di Hin. apply H. by apply list_elem_of_further.
Qed.

(** C8: for a node that the backend lists as dropping and that is
    registered, [applyDroppedNode] returns nil and leaves the manager as it
    was when some disk of the node is still filterable; when none is, it
    asks the backend to record the node as dropped and, when that succeeds,
    returns nil with the status of the node Dropped, its [dropping] flag
    cleared and the node removed from its NodeSet. *)
Theorem applyDroppedNode_cases d (nid : NodeID) node :
  isDroppingNode nid (persistent d) = (true, None) ->
  getNode d nid = Some node ->
  ((exists id di,
       id ∈ disks node /\ getDisk d id = Some di /\ needFilter di = true) ->
     applyDroppedNode nid d = Returns None d)
  /\ ((forall id di,
         id ∈ disks node -> getDisk d id = Some di -> needFilter di = false) ->
      forall p,
        droppedNode (nodeID node) (persistent d) = (None, p) ->
        let node' :=
          mkNodeItem (nodeID node)
            (set_nStatus NodeStatusDropped (ninfo node)) (disks node) false in
        applyDroppedNode nid d
        = Returns None
            (mkManager (allDisks d) (<[nid := node']> (allNodes d))
               (RemoveNodeFromNodeSet node' (topoMgr d))
               (hostPathFilter d) (pendingEntries d) p (cfg d))).
Proof.
  intros Hp Hn. unfold applyDroppedNode. rewrite Hp, Hn. simpl.
  split.
  - intros (id & di & Hin & Hg & Hf).
    destruct (checkDisksInUse _ d) eqn:E; [done |].
    rewrite checkDisksInUse_None in E.
    rewrite (E id di) in Hf; [done | by apply elem_of_rangeKeys | done].
  - intros Hall p Hd.
    assert (checkDisksInUse (rangeKeys (disks node)) d = None) as ->.
    { apply checkDisksInUse_None. intros id di Hin.
      apply Hall. by apply elem_of_rangeKeys. }
    by rewrite Hd.
Qed.

(** *** The heartbeat sweep *)

Lemma wrap64_small (z : Z) : MinInt64 <= z <= MaxInt64 -> wrap64 z = z.
Proof.
  unfold wrap64, MinInt64, MaxInt64. intros H.
  rewrite Z.mod_small; lia.
Qed.

Lemma expire_threshold (k S : Z) :
  0 <= k <= 2 -> 0 <= S <= 4611686018 ->
  wrap64 (wrap64 (k * S) * Second) = k * S * Second.
Proof.
  intros Hk HS. unfold Second.
  rewrite (wrap64_small (k * S)) by (unfold MinInt64, MaxInt64; nia).
  apply wrap64_small. unfold MinInt64, MaxInt64. nia.
Qed.

(** What a sweep made at [now] says of one disk that is expired and still
    filterable: the event with [IsAlive] false while less than two
    intervals have passed since [expireTime], and nothing from then on. *)
Lemma heartbeatChange_expired (now : Z) (c : DiskMgrConfig) disk :
  0 <= HeartbeatExpireIntervalS c <= 4611686018 ->
  isExpire now disk = true ->
  needFilter disk = true ->
  heartbeatChange now c disk
  = if now - expireTime disk <? 2 * HeartbeatExpireIntervalS c * Second
    then [mkHeartbeatEvent (diskID disk) false]
    else [].
Proof.
  intros HS He Hf. unfold heartbeatChange. rewrite He, Hf. simpl andb. cbv iota.
  rewrite expire_threshold by lia.
  unfold isExpire in He. apply Z.ltb_lt in He.
  unfold time_Since, time_Sub.
  assert (2 * HeartbeatExpireIntervalS c * Second <= MaxInt64)
    by (unfold Second, MaxInt64; lia).
  destruct (Z.ltb_spec (now - expireTime disk) MinInt64);
    [unfold MinInt64 in *; lia |].
  destruct (Z.ltb_spec MaxInt64 (now - expireTime disk)).
  - rewrite Z.geb_leb.
    destruct (Z.leb_spec (2 * HeartbeatExpireIntervalS c * Second) MaxInt64);
      [| lia].
    destruct (Z.ltb_spec (now - expireTime disk)
                (2 * HeartbeatExpireIntervalS c * Second)); [lia | done].
  - rewrite Z.geb_leb.
    destruct (Z.leb_spec (2 * HeartbeatExpireIntervalS c * Second)
                (now - expireTime disk)),
             (Z.ltb_spec (now - expireTime disk)
                (2 * HeartbeatExpireIntervalS c * Second)); done || lia.
Qed.

Lemma heartbeatChange_id (now : Z) (c : DiskMgrConfig) disk ev :
  ev ∈ heartbeatChange now c disk -> evDiskID ev = diskID disk.
Proof.
  unfold heartbeatChange.
  repeat match goal with |- context [if ?b then _ else _] => destruct b end;
    intros H; try (by apply elem_of_nil in H);
    by apply list_elem_of_singleton in H as ->.
Qed.

Lemma elem_of_getAllDisk d disk :
  disk ∈ getAllDisk d <-> exists id, allDisks d !! id = Some disk.
Proof.
  unfold getAllDisk. rewrite list_elem_of_omap. split.
  - intros (id & _ & H). eauto.
  - intros (id & H). exists id. split; [| done].
    apply elem_of_rangeKeys, elem_of_dom. eauto.
Qed.

(** C4, as amended: in a manager that holds every disk under its own id
    and whose heartbeat interval is between 0 and 4611686018 seconds, so
    that twice the interval counted in nanoseconds fits an int64, for a
    registered disk that is expired and still filterable, the event with its
    id and [IsAlive] false is in the list a sweep returns exactly when less
    than two heartbeat intervals have passed since [expireTime] at the time
    of the sweep.  The sweep keeps no record of what it has told: every
    sweep inside that window returns the event again, and no sweep after the
    window returns it. *)
Theorem GetHeartbeatChangeDisks_expired (now : Z) d (id : DiskID) disk :
  disksKeyed (allDisks d) ->
  getDisk d id = Some disk ->
  0 <= HeartbeatExpireIntervalS (cfg d) <= 4611686018 ->
  isExpire now disk = true ->
  needFilter disk = true ->
  mkHeartbeatEvent id false ∈ GetHeartbeatChangeDisks now d
  <-> now - expireTime disk
      < 2 * HeartbeatExpireIntervalS (cfg d) * Second.
Proof.
  intros Hk Hd HS He Hf. unfold GetHeartbeatChangeDisks.
  rewrite list_elem_of_In, in_flat_map.
  pose proof (heartbeatChange_expired now (cfg d) disk HS He Hf) as Hc.
  assert (Hid : diskID disk = id) by (by apply Hk).
  split.
  - intros (disk' & Hin & Hev).
    apply list_elem_of_In in Hin, Hev.
    apply elem_of_getAllDisk in Hin as (id' & Hin).
    pose proof (heartbeatChange_id _ _ _ _ Hev) as Hid'. simpl in Hid'.
    rewrite (Hk _ _ Hin) in Hid'. subst id'.
    unfold getDisk in Hd. rewrite Hd in Hin. injection Hin as <-.
    rewrite Hc in Hev.
    destruct (Z.ltb_spec (now - expireTime disk)
                (2 * HeartbeatExpireIntervalS (cfg d) * Second));
      [done | by apply elem_of_nil in Hev].
  - intros Hlt. exists disk. split.
    + apply list_elem_of_In, elem_of_getAllDisk. eauto.
    + apply list_elem_of_In. rewrite Hc.
      apply Z.ltb_lt in Hlt. rewrite Hlt, Hid. apply list_elem_of_here.
Qed.

(** *** Commit mode of [SetStatus] *)

(** In commit mode the check of the ladder has no say: whatever it finds,
    the write section runs. *)
Lemma SetStatus_commit_unchecked d (id : DiskID) disk (status : DiskStatus)
    (before after : Z) :
  getDisk d id = Some disk ->
  validSetStatus (dStatus (info disk)) = Some before ->
  validSetStatus status = Some after ->
  SetStatus id status true d
  = SetStatus_commit id status disk (getNode d (dNodeID (info disk))) d.
Proof.
  intros Hd Hb Ha. unfold SetStatus. rewrite Ha, Hd.
  unfold SetStatus_check. rewrite Hb. simpl.
  destruct (N.eqb_spec (dStatus (info disk)) status) as [He | He].
  - unfold SetStatus_commit. apply N.eqb_eq in He. by rewrite He.
  - destruct (dropping disk && negb (status =? DiskStatusDropped)%N);
      [done |].
    by destruct ((before >? after)
                 || (after - before >? 1)
                    && negb (status =? DiskStatusDropped)%N).
Qed.

(** *** Dropped disks are not dropping *)

Lemma droppedNotDropping_insert (disks : gmap DiskID diskItem) (id : DiskID)
    disk :
  droppedNotDropping disks ->
  (dStatus (info disk) = DiskStatusDropped -> dropping disk = false) ->
  droppedNotDropping (<[id := disk]> disks).
Proof.
  intros Hinv Hd k dk. rewrite lookup_insert.
  case_decide as Hk; [intros [= <-]; done | apply Hinv].
Qed.

Lemma SetStatus_commit_disks d (id : DiskID) (status : DiskStatus) disk
    (node : option nodeItem) (r : goerror) d' :
  SetStatus_commit id status disk node d = Returns r d' ->
  allDisks d' = allDisks d
  \/ allDisks d' = <[id := set_status status disk]> (allDisks d).
Proof.
  unfold SetStatus_commit.
  destruct (dStatus (info disk) =? status)%N; [intros [= _ <-]; by left |].
  destruct (if (status =? DiskStatusDropped)%N then _ else _) as [[e |] p].
  - intros [= _ <-]. by left.
  - intros [= _ <-]. right.
    destruct (negb (needFilter (set_status status disk))), node; done.
Qed.

Lemma SetStatus_disks d (id : DiskID) (status : DiskStatus) (isCommit : bool)
    (r : goerror) d' :
  SetStatus id status isCommit d = Returns r d' ->
  allDisks d' = allDisks d
  \/ exists disk,
       getDisk d id = Some disk /\ isCommit = true
       /\ allDisks d' = <[id := set_status status disk]> (allDisks d).
Proof.
  unfold SetStatus.
  destruct (validSetStatus status); [| intros [= _ <-]; by left].
  destruct (getDisk d id) as [disk |] eqn:Hd; [| intros [= _ <-]; by left].
  destruct (SetStatus_check disk status z isCommit) as [[e |] |];
    [intros [= _ <-]; by left | | done].
  destruct isCommit; simpl; [| intros [= _ <-]; by left].
  intros H. apply SetStatus_commit_disks in H as [H | H]; [by left |].
  right. eauto.
Qed.

Lemma SetStatus_keeps_invariant d (id : DiskID) (status : DiskStatus)
    (isCommit : bool) (r : goerror) d' :
  droppedNotDropping (allDisks d) ->
  dropsDroppingDirectly (OpSetStatus id status isCommit) d = false ->
  SetStatus id status isCommit d = Returns r d' ->
  droppedNotDropping (allDisks d').
Proof.
  intros Hinv Hno H.
  apply SetStatus_disks in H as [-> | (disk & Hd & -> & ->)]; [done |].
  apply droppedNotDropping_insert; [done |].
  simpl in Hno. rewrite Hd in Hno. simpl.
  intros Hs. rewrite Hs in Hno. simpl in Hno. done.
Qed.

Lemma applyDroppedDisk_keeps_invariant d (id : DiskID) (r : goerror) d' :
  droppedNotDropping (allDisks d) ->
  applyDroppedDisk id d = Returns r d' ->
  droppedNotDropping (allDisks d').
Proof.
  intros Hinv. unfold applyDroppedDisk.
  destruct (isDroppingDisk id (persistent d)) as [found [e |]];
    [by intros [= _ <-] |].
  destruct found; simpl; [| by intros [= _ <-]].
  destruct (SetStatus id DiskStatusDropped true d) as [r1 d1 |] eqn:Hs;
    [| done].
  destruct (getDisk d1 id) as [disk1 |] eqn:Hd1; [| done].
  intros [= _ <-]. simpl.
  intros k dk. rewrite lookup_insert.
  case_decide as Hk; [by intros [= <-] |].
  apply SetStatus_disks in Hs as [-> | (disk & _ & _ & ->)].
  - apply Hinv.
  - rewrite lookup_insert_ne by done. apply Hinv.
Qed.

Lemma applySwitchReadonly_keeps_invariant d (id : DiskID) (readonly : bool)
    (r : goerror) d' :
  droppedNotDropping (allDisks d) ->
  applySwitchReadonly id readonly d = Returns r d' ->
  droppedNotDropping (allDisks d').
Proof.
  intros Hinv. unfold applySwitchReadonly.
  destruct (getDisk d id) as [disk |] eqn:Hd; [| done].
  destruct (Bool.eqb _ _); [by intros [= _ <-] |].
  destruct (updateDiskNoLocked _ _) as [[e |] p]; intros [= _ <-]; simpl;
    (apply droppedNotDropping_insert; [done |]); simpl; exact (Hinv id disk Hd).
Qed.

Lemma storePending_disks (key : string) (e : error) d :
  allDisks (storePending key e d) = allDisks d.
Proof. unfold storePending. by destruct (pendingEntries d !! key). Qed.

Lemma applyDroppingDisk_keeps_invariant d (id : DiskID) (isCommit : bool)
    (r : bool * goerror) d' :
  droppedNotDropping (allDisks d) ->
  applyDroppingDisk id isCommit d = Returns r d' ->
  droppedNotDropping (allDisks d').
Proof.
  intros Hinv. unfold applyDroppingDisk.
  destruct (getDisk d id) as [disk |] eqn:Hd; [| by intros [= _ <-]].
  destruct (dropping disk); [by intros [= _ <-] |].
  destruct (N.eqb_spec (dStatus (info disk)) DiskStatusNormal) as [Hs | Hs];
    simpl.
  2: { destruct isCommit; simpl; intros [= _ <-];
         [by rewrite storePending_disks | done]. }
  destruct (negb (dReadonly (info disk))).
  { destruct isCommit; simpl; intros [= _ <-];
      [by rewrite storePending_disks | done]. }
  destruct isCommit; simpl; [| by intros [= _ <-]].
  destruct (addDroppingDisk id (persistent d)) as [[e |] p];
    [by intros [= _ <-] |].
  assert (droppedNotDropping (<[id := set_dropping true disk]> (allDisks d)))
    as Hinv'.
  { apply droppedNotDropping_insert; [done |]. simpl. rewrite Hs. done. }
  destruct (getNode _ _); by intros [= _ <-].
Qed.

Lemma applyDroppingNode_loop_keeps_invariant (nid : NodeID)
    (isCommit : bool) (l : list DiskID) d (r : option (bool * goerror)) d' :
  droppedNotDropping (allDisks d) ->
  applyDroppingNode_loop nid isCommit l d = Returns r d' ->
  droppedNotDropping (allDisks d').
Proof.
  revert d. induction l as [| id l IH]; intros d Hinv; simpl.
  - by intros [= _ <-].
  - destruct (getDisk d id) as [di |]; [| by apply IH].
    destruct (negb _); [by apply IH |].
    destruct (applyDroppingDisk (diskID di) isCommit d)
      as [[b [e |]] d1 |] eqn:Hdd; [| | done].
    + apply applyDroppingDisk_keeps_invariant in Hdd; [| done].
      destruct isCommit; simpl; intros [= _ <-];
        [by rewrite storePending_disks | done].
    + apply applyDroppingDisk_keeps_invariant in Hdd; [| done].
      by apply IH.
Qed.

Lemma applyDroppingNode_keeps_invariant d (nid : NodeID) (isCommit : bool)
    (r : bool * goerror) d' :
  droppedNotDropping (allDisks d) ->
  applyDroppingNode nid isCommit d = Returns r d' ->
  droppedNotDropping (allDisks d').
Proof.
  intros Hinv. unfold applyDroppingNode.
  destruct (getNode d nid) as [node |]; [| by intros [= _ <-]].
  destruct (_ || _); [by intros [= _ <-] |].
  destruct (applyDroppingNode_loop _ _ _ _) as [[r1 |] d1 |] eqn:Hl;
    [| | done].
  - apply applyDroppingNode_loop_keeps_invariant in Hl; [| done].
    by intros [= _ <-].
  - apply applyDroppingNode_loop_keeps_invariant in Hl; [| done].
    destruct isCommit; simpl; [| by intros [= _ <-]].
    destruct (addDroppingNode nid (persistent d1)) as [[e |] p];
      by intros [= _ <-].
Qed.

Lemma applyDroppedNode_disks d (nid : NodeID) (r : goerror) d' :
  applyDroppedNode nid d = Returns r d' -> allDisks d' = allDisks d.
Proof.
  unfold applyDroppedNode.
  destruct (isDroppingNode nid (persistent d)) as [found [e |]];
    [by intros [= _ <-] |].
  destruct found; simpl; [| by intros [= _ <-]].
  destruct (getNode d nid) as [node |]; [| by intros [= _ <-]].
  destruct (checkDisksInUse _ _); [by intros [= _ <-] |].
  destruct (droppedNode _ _) as [[e |] p]; by intros [= _ <-].
Qed.

Lemma applyAddNode_disks d (nodeInfo : NodeInfo) (r : goerror) d' :
  applyAddNode nodeInfo d = Returns r d' -> allDisks d' = allDisks d.
Proof.
  unfold applyAddNode.
  destruct (getNode d _); [by intros [= _ <-] |].
  destruct (if (nNodeSetID nodeInfo =? nullNodeSetID)%N then _ else _)
    as [nsid t1].
  destruct (updateNodeNoLocked _ _) as [[e |] p]; by intros [= _ <-].
Qed.

Lemma applyAddDisk_keeps_invariant d (id : DiskID) (i : DiskInfo) (now : Z)
    (r : goerror) d' :
  droppedNotDropping (allDisks d) ->
  applyAddDisk id i now d = Returns r d' ->
  droppedNotDropping (allDisks d').
Proof.
  intros Hinv. unfold applyAddDisk.
  destruct (getDisk d id); [by intros [= _ <-] |].
  destruct (hostPathFilter d !! _); [by intros [= _ <-] |].
  destruct (addDiskNoLocked _ _) as [[e |] p]; [by intros [= _ <-] |].
  set (disk := mkDiskItem id i None false _ _).
  assert (droppedNotDropping (<[id := disk]> (allDisks d))) as Hinv'
    by (by apply droppedNotDropping_insert).
  destruct (needFilter disk); simpl; destruct (getNode _ _);
    by intros [= _ <-].
Qed.

Lemma applyHeartbeat_keeps_invariant d (id : DiskID) (extra : heartbeatInfo)
    (now : Z) (r : goerror) d' :
  droppedNotDropping (allDisks d) ->
  applyHeartbeat id extra now d = Returns r d' ->
  droppedNotDropping (allDisks d').
Proof.
  intros Hinv. unfold applyHeartbeat.
  destruct (getDisk d id) as [disk |] eqn:Hd; intros [= _ <-]; [| done].
  simpl. apply droppedNotDropping_insert; [done |]. simpl.
  exact (Hinv id disk Hd).
Qed.

Lemma RefreshExpireTime_keeps_invariant d (now : Z) :
  droppedNotDropping (allDisks d) ->
  droppedNotDropping (allDisks (RefreshExpireTime now d)).
Proof.
  intros Hinv id disk. unfold RefreshExpireTime. simpl.
  rewrite lookup_fmap.
  destruct (allDisks d !! id) as [di |] eqn:Hd; [| done].
  intros [= <-]. simpl. by apply (Hinv id).
Qed.

Lemma apply_op_keeps_invariant (o : op) d d' :
  droppedNotDropping (allDisks d) ->
  dropsDroppingDirectly o d = false ->
  apply_op o d = Some d' ->
  droppedNotDropping (allDisks d').
Proof.
  intros Hinv Hno.
  destruct o; simpl;
    match goal with
    | |- stateOf ?h = _ -> _ =>
      destruct h as [r d1 |] eqn:Hh; [| done]; intros [= <-]
    | |- _ => intros [= <-]
    end.
  - by rewrite (applyAddNode_disks _ _ _ _ Hh).
  - by eapply applyAddDisk_keeps_invariant.
  - by eapply SetStatus_keeps_invariant.
  - by eapply applySwitchReadonly_keeps_invariant.
  - by eapply applyDroppingDisk_keeps_invariant.
  - by eapply applyDroppedDisk_keeps_invariant.
  - by eapply applyDroppingNode_keeps_invariant.
  - by rewrite (applyDroppedNode_disks _ _ _ _ Hh).
  - by eapply applyHeartbeat_keeps_invariant.
  - by apply RefreshExpireTime_keeps_invariant.
Qed.

(** C3, as amended: along every run of the requests of the manager in
    which the status Dropped is never committed through [SetStatus] itself
    on a disk that is dropping (it is committed on such a disk through
    [applyDroppedDisk] only), a Dropped disk is never dropping, provided
    that this held at the start. *)
Theorem dropped_disk_not_dropping (l : list op) d d' :
  droppedNotDropping (allDisks d) ->
  noDirectDrop l d = true ->
  apply_ops l d = Some d' ->
  droppedNotDropping (allDisks d').
Proof.
  revert d. induction l as [| o l IH]; intros d Hinv Hno; simpl.
  - by intros [= <-].
  - simpl in Hno. apply andb_true_iff in Hno as [Hno Hrest].
    apply negb_true_iff in Hno.
    destruct (apply_op o d) as [d1 |] eqn:Ho; [| done].
    apply IH; [| done]. by eapply apply_op_keeps_invariant.
Qed.

End ManagerFacts.

(** * The properties on the sample states *)

Lemma SetStatus_precheck_ladder_witness :
  SetStatus 10%N DiskStatusRepairing false sampleManager
  = Returns (Some ErrChangeDiskStatusNotAllow) sampleManager
  /\ SetStatus 10%N DiskStatusDropped false sampleManager
     = Returns None sampleManager.
Proof.
  split.
  - destruct (SetStatus_precheck_ladder sampleManager 10%N sampleDisk
                DiskStatusRepairing 0 2
                eq_refl ltac:(discriminate) eq_refl eq_refl) as [H _].
    destruct (H eq_refl) as [Hiff _]. apply Hiff.
    right. split; [lia | discriminate].
  - destruct (SetStatus_precheck_ladder sampleManager 10%N sampleDisk
                DiskStatusDropped 0 4
                eq_refl ltac:(discriminate) eq_refl eq_refl) as [H _].
    destruct (H eq_refl) as (_ & _ & Hd). apply Hd. reflexivity.
Defined.

Lemma CheckDiskInfoDuplicated_cases_witness :
  CheckDiskInfoDuplicated 11%N sampleDiskInfo sampleNodeInfo sampleManager
  = Returns (Some ErrIllegalArguments) sampleManager
  /\ CheckDiskInfoDuplicated 10%N sampleDiskInfo sampleNodeInfo sampleManager
     = Returns (Some ErrExist) sampleManager
  /\ CheckDiskInfoDuplicated 10%N sampleDiskInfo sampleNodeInfo
       (managerWith legacyDisk sampleNode sampleStore)
     = Returns None (managerWith legacyDisk sampleNode sampleStore).
Proof.
  split; [| split].
  - apply (CheckDiskInfoDuplicated_cases sampleManager 11%N sampleDiskInfo
             sampleNodeInfo); [reflexivity |].
    exists DiskEntry. reflexivity.
  - apply (proj1 (proj2 (CheckDiskInfoDuplicated_cases sampleManager 10%N
                           sampleDiskInfo sampleNodeInfo)) sampleDisk);
      [reflexivity |].
    intros [H _]. discriminate H.
  - apply (proj1 (CheckDiskInfoDuplicated_cases
                    (managerWith legacyDisk sampleNode sampleStore) 10%N
                    sampleDiskInfo sampleNodeInfo) legacyDisk);
      [reflexivity |].
    repeat split; discriminate.
Defined.

Lemma applySwitchReadonly_cases_witness :
  applySwitchReadonly 10%N false sampleManager = Returns None sampleManager
  /\ (exists d',
        applySwitchReadonly 10%N true sampleManager = Returns None d'
        /\ (dReadonly ∘ info <$> getDisk sampleManager 10%N) = Some false
        /\ (dReadonly ∘ info <$> getDisk d' 10%N) = Some true)
  /\ applySwitchReadonly 10%N true
       (managerWith sampleDisk sampleNode failingStore)
     = Returns (Some (ErrBackend 5))
         (managerWith sampleDisk sampleNode failingStore).
Proof.
  split; [| split].
  - apply (proj1 (applySwitchReadonly_cases sampleManager 10%N sampleDisk
                    false eq_refl)).
    reflexivity.
  - assert (exists d', applySwitchReadonly 10%N true sampleManager
                       = Returns None d') as [d' Hrun]
      by (eexists; vm_compute; reflexivity).
    exists d'. split; [exact Hrun |]. split; [reflexivity |].
    destruct (proj1 (proj2 (applySwitchReadonly_cases
                              (PH := memStore_handler) sampleManager 10%N
                              sampleDisk true eq_refl)))
      with (p := mkMemStore
                   {[10%N := mkDiskItem 10%N
                               (mkDiskInfo 1%N "h1" "/d1" "z0" "r1"
                                  DiskStatusNormal true 1%N)
                               None false 60000000000 60000000000]}
                   {[1%N := sampleNode]} ∅ ∅ None)
      as [_ Hafter].
    + discriminate.
    + vm_compute. reflexivity.
    + exact (proj1 (Hafter d' Hrun)).
  - destruct (proj2 (proj2 (applySwitchReadonly_cases
                              (PH := memStore_handler)
                              (managerWith sampleDisk sampleNode failingStore)
                              10%N sampleDisk true eq_refl)))
      with (e := ErrBackend 5) (p := failingStore) as [Hrun _].
    + discriminate.
    + vm_compute. reflexivity.
    + rewrite Hrun. reflexivity.
Defined.

Lemma applyDroppingDisk_cases_witness :
  applyDroppingDisk 10%N true (managerWith droppingDisk sampleNode sampleStore)
  = Returns (true, None) (managerWith droppingDisk sampleNode sampleStore)
  /\ applyDroppingDisk 10%N false sampleManager
     = Returns (false, Some ErrDiskAbnormalOrNotReadOnly) sampleManager
  /\ exists d',
       applyDroppingDisk 10%N true
         (managerWith readonlyDisk sampleNode sampleStore)
       = Returns (false, None) d'
       /\ allDisks d' !! 10%N = Some droppingDisk
       /\ msDroppingDisks (persistent d') = {[10%N]}
       /\ mtDiskSets (topoMgr d') !! (1%N, 1%N, 1%N) = Some ∅.
Proof.
  split; [| split].
  - apply (proj1 (applyDroppingDisk_cases
                    (managerWith droppingDisk sampleNode sampleStore) 10%N
                    droppingDisk eq_refl)).
    reflexivity.
  - apply (proj1 (proj2 (applyDroppingDisk_cases sampleManager 10%N
                           sampleDisk eq_refl))); [reflexivity |].
    right. reflexivity.
  - eexists. split.
    + apply (proj2 (proj2 (applyDroppingDisk_cases
                             (managerWith readonlyDisk sampleNode sampleStore)
                             10%N readonlyDisk eq_refl))
               eq_refl eq_refl eq_refl).
      reflexivity.
    + split; [reflexivity |]. split; [| reflexivity].
      vm_compute. reflexivity.
Defined.

Lemma applyDroppedNode_cases_witness :
  applyDroppedNode 1%N (managerWith sampleDisk droppingNode droppingNodeStore)
  = Returns None (managerWith sampleDisk droppingNode droppingNodeStore)
  /\ exists d' node',
       applyDroppedNode 1%N
         (managerWith repairedDisk droppingNode droppingNodeStore)
       = Returns None d'
       /\ allNodes d' !! 1%N = Some node'
       /\ nStatus (ninfo node') = NodeStatusDropped
       /\ ndropping node' = false
       /\ mtNodeSets (topoMgr d') !! (1%N, 1%N) = Some ∅
       /\ msDroppingNodes (persistent d') = ∅.
Proof.
  split.
  - apply (proj1 (applyDroppedNode_cases (PH := memStore_handler)
                    (TM := memTopo_api) (MR := elementsRange)
                    (managerWith sampleDisk droppingNode droppingNodeStore)
                    1%N droppingNode ltac:(reflexivity) ltac:(reflexivity))).
    exists 10%N, sampleDisk. split; [| split]; [| reflexivity ..].
    vm_compute. reflexivity.
  - eexists. eexists. split.
    + apply (proj2 (applyDroppedNode_cases (PH := memStore_handler)
                    (TM := memTopo_api) (MR := elementsRange)
                      (managerWith repairedDisk droppingNode droppingNodeStore)
                      1%N droppingNode ltac:(reflexivity) ltac:(reflexivity))).
      * intros id di Hin.
        change (disks droppingNode) with ({[10%N]} : gset DiskID) in Hin.
        apply elem_of_singleton in Hin as ->.
        intros [= <-]. reflexivity.
      * reflexivity.
    + split; [reflexivity |]. split; [reflexivity |].
      split; [reflexivity |]. split; vm_compute; reflexivity.
Defined.

Lemma applyDroppingNode_already_witness :
  applyDroppingNode 1%N true (managerWith sampleDisk droppingNode sampleStore)
  = Returns (true, None) (managerWith sampleDisk droppingNode sampleStore)
  /\ applyDroppingNode 1%N false
       (managerWith sampleDisk droppingNode sampleStore)
     = Returns (true, None) (managerWith sampleDisk droppingNode sampleStore).
Proof.
  split;
    apply (applyDroppingNode_already
             (managerWith sampleDisk droppingNode sampleStore) 1%N
             droppingNode _ eq_refl);
    right; reflexivity.
Defined.

Lemma sampleManager_keyed : disksKeyed (allDisks sampleManager).
Proof.
  intros id disk H.
  change (allDisks sampleManager)
    with ({[10%N := sampleDisk]} : gmap DiskID diskItem) in H.
  apply lookup_singleton_Some in H as [<- <-]. reflexivity.
Defined.

Lemma GetHeartbeatChangeDisks_expired_witness :
  mkHeartbeatEvent 10%N false ∈ GetHeartbeatChangeDisks 70000000000 sampleManager
  /\ mkHeartbeatEvent 10%N false
     ∉ GetHeartbeatChangeDisks 180000000000 sampleManager.
Proof.
  split.
  - apply (GetHeartbeatChangeDisks_expired 70000000000 sampleManager 10%N
             sampleDisk sampleManager_keyed eq_refl);
      [simpl; lia | reflexivity | reflexivity | simpl; unfold Second; lia].
  - intros H.
    apply (GetHeartbeatChangeDisks_expired 180000000000 sampleManager 10%N
             sampleDisk sampleManager_keyed eq_refl) in H;
      [| simpl; lia | reflexivity | reflexivity].
    simpl in H. unfold Second in H. lia.
Defined.

(** C4, as stated, fails: the disk of the sample manager expires at 60 s
    and stays silent; the sweeps at 70 s and at 80 s both return the event
    with [IsAlive] false for it. *)
Lemma expired_event_is_repeated :
  isExpire 70000000000 sampleDisk = true
  /\ isExpire 80000000000 sampleDisk = true
  /\ needFilter sampleDisk = true
  /\ GetHeartbeatChangeDisks 70000000000 sampleManager
     = [mkHeartbeatEvent 10%N false]
  /\ GetHeartbeatChangeDisks 80000000000 sampleManager
     = [mkHeartbeatEvent 10%N false].
Proof. repeat split; vm_compute; reflexivity. Qed.

(** The bound on the interval is needed: with an interval of 4611686019
    seconds twice the interval in nanoseconds wraps to a negative
    [time.Duration], and the sweep at 70 s, ten seconds after the disk of
    the sample manager expired, returns nothing. *)
Lemma wide_interval_wraps :
  let c := mkDiskMgrConfig true false 4611686019 ["z0"; "z1"; "z2"]
             [mkTactic 6 6 0] (16 * 2 ^ 30) 0 in
  wrap64 (wrap64 (2 * HeartbeatExpireIntervalS c) * Second) < 0
  /\ isExpire 70000000000 sampleDisk = true
  /\ needFilter sampleDisk = true
  /\ heartbeatChange 70000000000 c sampleDisk = [].
Proof. repeat split; vm_compute; reflexivity. Qed.

(** C5 fails on the code: the request Normal to Repaired skips two rungs
    and the pre-check rejects it, yet in commit mode [SetStatus] returns nil
    and has set the status, removed the host and path of the disk from
    [hostPathFilter] and removed the disk from its DiskSet.  Likewise the
    backward request Repaired to Normal and the request for Broken on a
    dropping disk, both rejected by the pre-check, are carried out in commit
    mode. *)
Lemma SetStatus_commit_applies_rejected_request :
  (SetStatus 10%N DiskStatusRepaired false sampleManager
   = Returns (Some ErrChangeDiskStatusNotAllow) sampleManager
   /\ hostPathFilter sampleManager !! DiskKey "h1" "/d1" = Some DiskEntry
   /\ mtDiskSets (topoMgr sampleManager) !! (1%N, 1%N, 1%N) = Some {[10%N]}
   /\ exists d',
        SetStatus 10%N DiskStatusRepaired true sampleManager = Returns None d'
        /\ allDisks d' !! 10%N = Some repairedDisk
        /\ hostPathFilter d' !! DiskKey "h1" "/d1" = None
        /\ mtDiskSets (topoMgr d') !! (1%N, 1%N, 1%N) = Some ∅)
  /\ (SetStatus 10%N DiskStatusNormal false
        (managerWith repairedDisk sampleNode sampleStore)
      = Returns (Some ErrChangeDiskStatusNotAllow)
          (managerWith repairedDisk sampleNode sampleStore)
      /\ exists d',
           SetStatus 10%N DiskStatusNormal true
             (managerWith repairedDisk sampleNode sampleStore)
           = Returns None d'
           /\ allDisks d' !! 10%N = Some sampleDisk)
  /\ (SetStatus 10%N DiskStatusBroken false
        (managerWith droppingDisk sampleNode sampleStore)
      = Returns (Some ErrChangeDiskStatusNotAllow)
          (managerWith droppingDisk sampleNode sampleStore)
      /\ exists d',
           SetStatus 10%N DiskStatusBroken true
             (managerWith droppingDisk sampleNode sampleStore)
           = Returns None d'
           /\ allDisks d' !! 10%N
              = Some (set_status DiskStatusBroken droppingDisk)).
Proof.
  split; [| split].
  - split; [vm_compute; reflexivity |].
    split; [vm_compute; reflexivity |].
    split; [vm_compute; reflexivity |].
    eexists. split; [vm_compute; reflexivity |].
    split; [vm_compute; reflexivity |]. split; vm_compute; reflexivity.
  - split; [vm_compute; reflexivity |].
    eexists. split; vm_compute; reflexivity.
  - split; [vm_compute; reflexivity |].
    eexists. split; vm_compute; reflexivity.
Qed.

Lemma dropped_disk_not_dropping_witness :
  exists d',
    apply_ops dropRun emptyManager = Some d'
    /\ droppedNotDropping (allDisks d')
    /\ (dStatus ∘ info <$> allDisks d' !! 10%N) = Some DiskStatusDropped.
Proof.
  eexists. split; [vm_compute; reflexivity |].
  split; [| vm_compute; reflexivity].
  apply (dropped_disk_not_dropping dropRun emptyManager).
  - intros id disk H. discriminate H.
  - vm_compute. reflexivity.
  - vm_compute. reflexivity.
Defined.

(** C3, as stated, fails: after node 1 and disk 10 are registered, the
    disk made readonly and marked dropping, the commit of Dropped through
    [SetStatus] leaves the disk Dropped and dropping; the same three last
    requests do so from the sample manager, where the node and its Normal
    disk are registered already. *)
Lemma direct_drop_leaves_dropping :
  (exists d' disk,
     apply_ops directDropRun emptyManager = Some d'
     /\ allDisks d' !! 10%N = Some disk
     /\ dStatus (info disk) = DiskStatusDropped
     /\ dropping disk = true)
  /\ droppedNotDropping (allDisks sampleManager)
  /\ exists d' disk,
       apply_ops [OpSwitchReadonly 10%N true; OpDroppingDisk 10%N true;
                  OpSetStatus 10%N DiskStatusDropped true] sampleManager
       = Some d'
       /\ allDisks d' !! 10%N = Some disk
       /\ dStatus (info disk) = DiskStatusDropped
       /\ dropping disk = true.
Proof.
  split; [| split].
  - eexists. eexists. split; [vm_compute; reflexivity |].
    split; [vm_compute; reflexivity |]. split; reflexivity.
  - intros id disk H.
    change (allDisks sampleManager)
      with ({[10%N := sampleDisk]} : gmap DiskID diskItem) in H.
    apply lookup_singleton_Some in H as [<- <-]. discriminate.
  - eexists. eexists. split; [vm_compute; reflexivity |].
    split; [vm_compute; reflexivity |]. split; reflexivity.
Qed.

(** * The writable space estimator *)

Lemma heap_Push_perm (x : Z) (h : maxHeap) : heap_Push x h ≡ₚ x :: h.
Proof.
  induction h as [| y h IH]; simpl; [done |].
  destruct (y <? x); [done |].
  rewrite IH. apply Permutation_swap.
Qed.

Lemma heap_Push_descending (x : Z) (h : maxHeap) :
  descending h -> descending (heap_Push x h).
Proof.
  unfold descending. induction h as [| y h IH]; simpl; intros Hs.
  - repeat constructor.
  - apply StronglySorted_cons in Hs as [Hy Hs].
    destruct (Z.ltb_spec y x).
    + apply StronglySorted_cons. split.
      * constructor; [lia |]. eapply Forall_impl; [exact Hy |].
        simpl. intros; lia.
      * apply StronglySorted_cons. done.
    + apply StronglySorted_cons. split; [| by apply IH].
      rewrite heap_Push_perm. by constructor.
Qed.

Lemma heap_Init_perm (l : list Z) : heap_Init l ≡ₚ l.
Proof.
  induction l as [| x l IH]; simpl; [done |].
  by rewrite heap_Push_perm, IH.
Qed.

Lemma heap_Init_descending (l : list Z) : descending (heap_Init l).
Proof.
  induction l as [| x l IH]; simpl; [constructor |].
  by apply heap_Push_descending.
Qed.

Lemma descending_unique (l1 l2 : list Z) :
  descending l1 -> descending l2 -> l1 ≡ₚ l2 -> l1 = l2.
Proof.
  apply StronglySorted_unique_strong. intros; lia.
Qed.

Lemma heap_Init_descending_id (l : list Z) : descending l -> heap_Init l = l.
Proof.
  intros H. apply descending_unique;
    [apply heap_Init_descending | done | apply heap_Init_perm].
Qed.

Lemma popStripe_take (k : nat) (h : maxHeap) :
  (k <= length h)%nat -> popStripe k h = Some (take k h, drop k h).
Proof.
  revert h. induction k as [| k IH]; intros h Hk; simpl.
  - by rewrite drop_0.
  - destruct h as [| x h]; simpl in *; [lia |].
    rewrite IH by lia. done.
Qed.

Lemma pushBack_perm (stripe : list Z) (lefts : maxHeap) :
  Forall token stripe ->
  pushBack stripe lefts
  ≡ₚ lefts ++ filter (fun t => 0 < t) (map (fun x => x - Z.min 10 x) stripe).
Proof.
  revert lefts. induction stripe as [| x stripe IH]; intros lefts Hs; simpl.
  - by rewrite app_nil_r.
  - apply Forall_cons in Hs as [[Hx Hx'] Hs].
    rewrite wrap64_small by (unfold MinInt64, MaxInt64 in *; lia).
    rewrite filter_cons.
    destruct (Z.gtb_spec (x - 10) 0); case_decide; try lia.
    + rewrite IH, heap_Push_perm by done.
      replace (x - Z.min 10 x) with (x - 10) by lia.
      simpl. apply Permutation_middle.
    + by rewrite IH.
Qed.

Lemma pushBack_descending (stripe : list Z) (lefts : maxHeap) :
  descending lefts -> descending (pushBack stripe lefts).
Proof.
  revert lefts. induction stripe as [| x stripe IH]; intros lefts Hs; simpl;
    [done |].
  apply IH. destruct (_ >? 0); [by apply heap_Push_descending | done].
Qed.

Lemma token_perm (l1 l2 : list Z) :
  l1 ≡ₚ l2 -> Forall token l1 -> Forall token l2.
Proof. intros H. by rewrite H. Qed.

Lemma sumZ_app (l1 l2 : list Z) : sumZ (l1 ++ l2) = sumZ l1 + sumZ l2.
Proof. induction l1 as [| x l1 IH]; simpl; lia. Qed.

Lemma sumZ_perm (l1 l2 : list Z) : l1 ≡ₚ l2 -> sumZ l1 = sumZ l2.
Proof. induction 1; simpl; lia. Qed.

Lemma sumZ_remainders (l : list Z) :
  Forall token l ->
  sumZ (filter (fun t => 0 < t) (map (fun x => x - Z.min 10 x) l))
  <= sumZ l - Z.of_nat (length l).
Proof.
  induction 1 as [| x l [Hx _] _ IH]; simpl; [lia |].
  rewrite filter_cons. case_decide; simpl; lia.
Qed.

Lemma remainders_token (l : list Z) :
  Forall token l ->
  Forall token (filter (fun t => 0 < t) (map (fun x => x - Z.min 10 x) l)).
Proof.
  induction 1 as [| x l [Hx Hx'] _ IH]; simpl; [constructor |].
  rewrite filter_cons. case_decide; [| done].
  constructor; [| done]. unfold token in *. lia.
Qed.

Lemma spec_round_token (k : nat) (tokens : list Z) :
  Forall token tokens -> Forall token (spec_round k tokens).
Proof.
  intros H. unfold spec_round.
  assert (Forall token (heap_Init tokens)) as Hs
    by (by rewrite heap_Init_perm).
  rewrite <- (take_drop k (heap_Init tokens)) in Hs.
  apply Forall_app in Hs as [Ht Hd].
  apply Forall_app. split; [done |]. by apply remainders_token.
Qed.

Lemma spec_round_sum (k : nat) (tokens : list Z) :
  (0 < k <= length tokens)%nat ->
  Forall token tokens ->
  sumZ (spec_round k tokens) < sumZ tokens.
Proof.
  intros Hk H. unfold spec_round.
  assert (Forall token (heap_Init tokens)) as Hs
    by (by rewrite heap_Init_perm).
  assert (length (heap_Init tokens) = length tokens) as Hl
    by (by rewrite heap_Init_perm).
  rewrite <- (sumZ_perm _ _ (heap_Init_perm tokens)).
  rewrite <- (take_drop k (heap_Init tokens)) in Hs.
  apply Forall_app in Hs as [Ht Hd].
  rewrite <- (take_drop k (heap_Init tokens)) at 3.
  rewrite !sumZ_app.
  pose proof (sumZ_remainders _ Ht) as Hr.
  rewrite length_take in Hr. lia.
Qed.

Lemma spec_round_length (k : nat) (tokens : list Z) :
  (length (spec_round k tokens) <= length tokens)%nat.
Proof.
  unfold spec_round.
  rewrite length_app, length_drop.
  assert (length (heap_Init tokens) = length tokens) as ->
    by (by rewrite heap_Init_perm).
  etrans; [apply Nat.add_le_mono_l, length_filter |].
  rewrite length_map, length_take.
  assert (length (heap_Init tokens) = length tokens) as ->
    by (by rewrite heap_Init_perm).
  lia.
Qed.

(** One round of the loop leaves the heap of the tokens that one round in
    the words of the specification leaves. *)
Lemma round_agrees (k : nat) (tokens : list Z) :
  Forall token tokens ->
  pushBack (take k (heap_Init tokens)) (drop k (heap_Init tokens))
  = heap_Init (spec_round k tokens).
Proof.
  intros H.
  assert (Forall token (heap_Init tokens)) as Hs
    by (by rewrite heap_Init_perm).
  rewrite <- (take_drop k (heap_Init tokens)) in Hs.
  apply Forall_app in Hs as [Ht Hd].
  apply descending_unique.
  - apply pushBack_descending.
    pose proof (heap_Init_descending tokens) as Hdesc.
    rewrite <- (take_drop k (heap_Init tokens)) in Hdesc.
    by apply StronglySorted_app_1_r in Hdesc.
  - apply heap_Init_descending.
  - etrans; [by apply pushBack_perm |].
    symmetry. apply heap_Init_perm.
Qed.

Lemma spec_rounds_nonneg (bound k : nat) (tokens : list Z) :
  0 <= spec_rounds bound k tokens.
Proof.
  revert tokens. induction bound as [| b IH]; intros tokens; simpl; [lia |].
  destruct (_ <? _)%nat; [lia |]. specialize (IH (spec_round k tokens)). lia.
Qed.

(** The loop of [calIDCWritableFunc] counts what the rounds of the
    specification count, given fuel for every round and no overflow. *)
Lemma calIDCWritable_loop_spec (fuel bound k : nat) (tokens : list Z) (n : Z) :
  (0 < k)%nat ->
  Forall token tokens ->
  (Z.to_nat (sumZ tokens) < fuel)%nat ->
  (Z.to_nat (sumZ tokens) < bound)%nat ->
  0 <= n ->
  n + spec_rounds bound k tokens <= MaxInt64 ->
  calIDCWritable_loop fuel (Z.of_nat k) (heap_Init tokens) n
  = Finished (n + spec_rounds bound k tokens).
Proof.
  intros Hk. revert bound tokens n.
  induction fuel as [| fuel IH]; intros bound tokens n Ht Hf Hb Hn Hmax;
    [lia |].
  destruct bound as [| bound]; [lia |].
  simpl in *.
  assert (length (heap_Init tokens) = length tokens) as Hl
    by (by rewrite heap_Init_perm).
  rewrite Hl.
  destruct (Nat.ltb_spec (length tokens) k) as [Hlt | Hge].
  - destruct (Z.ltb_spec (Z.of_nat (length tokens)) (Z.of_nat k)); [| lia].
    f_equal. lia.
  - destruct (Z.ltb_spec (Z.of_nat (length tokens)) (Z.of_nat k)); [lia |].
    rewrite Nat2Z.id, popStripe_take by lia.
    rewrite round_agrees by done.
    pose proof (spec_rounds_nonneg bound k (spec_round k tokens)) as Hnn.
    pose proof (spec_round_sum k tokens ltac:(lia) Ht) as Hsum.
    assert (0 <= sumZ (spec_round k tokens)) as Hpos.
    { pose proof (spec_round_token k tokens Ht) as Htok.
      clear -Htok. induction Htok as [| x l [? _] _ IH]; simpl; lia. }
    rewrite wrap64_small by (unfold MinInt64, MaxInt64 in *; lia).
    rewrite (IH bound); [f_equal; lia | by apply spec_round_token | lia ..].
Qed.

Lemma quot_nonneg_le (a b : Z) : 0 <= a -> 0 < b -> 0 <= Z.quot a b <= a.
Proof.
  intros Ha Hb.
  pose proof (Z.quot_rem' a b) as Hq.
  pose proof (Z.rem_bound_pos a b Ha Hb).
  pose proof (Z.quot_pos a b Ha Hb). nia.
Qed.

Lemma quot_int64 (a b : Z) :
  0 < b -> MinInt64 <= a <= MaxInt64 -> MinInt64 <= Z.quot a b <= MaxInt64.
Proof.
  intros Hb Ha. unfold MinInt64, MaxInt64 in *.
  destruct (Z.le_gt_cases 0 a) as [Hpos | Hneg].
  - pose proof (quot_nonneg_le a b Hpos Hb). lia.
  - pose proof (quot_nonneg_le (- a) b ltac:(lia) Hb) as H.
    rewrite Z.quot_opp_l in H by lia. lia.
Qed.

Lemma loadTokens_spec (itemSize : Z) (stgs : list nodeAllocator) :
  0 < itemSize ->
  Forall (fun v => MinInt64 <= naFree v <= MaxInt64) stgs ->
  loadTokens itemSize stgs = Some (spec_tokens itemSize stgs).
Proof.
  intros Hi. unfold spec_tokens.
  induction 1 as [| v stgs Hv _ IH]; simpl; [done |].
  destruct (Z.eqb_spec itemSize 0); [lia |].
  rewrite IH, wrap64_small by (by apply quot_int64).
  rewrite filter_cons.
  destruct (Z.gtb_spec (Z.quot (naFree v) itemSize) 0); case_decide;
    done || lia.
Qed.

Lemma spec_tokens_token (itemSize : Z) (stgs : list nodeAllocator) :
  0 < itemSize ->
  Forall (fun v => MinInt64 <= naFree v <= MaxInt64) stgs ->
  Forall token (spec_tokens itemSize stgs).
Proof.
  intros Hi. unfold spec_tokens.
  induction 1 as [| v stgs Hv _ IH]; simpl; [constructor |].
  rewrite filter_cons. case_decide; [| done].
  constructor; [| done].
  pose proof (quot_int64 _ _ Hi Hv). unfold token. lia.
Qed.

(** [calIDCWritableFunc] returns the stripe count of the specification for
    its IDC. *)
Lemma calIDCWritableFunc_spec (fuel k : nat) (itemSize : Z)
    (stgs : list nodeAllocator) :
  (0 < k)%nat ->
  0 < itemSize ->
  Forall (fun v => MinInt64 <= naFree v <= MaxInt64) stgs ->
  spec_idc_count k itemSize stgs <= MaxInt64 ->
  (Z.to_nat (sumZ (spec_tokens itemSize stgs)) < fuel)%nat ->
  calIDCWritableFunc fuel (Z.of_nat k) itemSize stgs
  = Finished (spec_idc_count k itemSize stgs).
Proof.
  intros Hk Hi Hr Hmax Hf. unfold calIDCWritableFunc.
  destruct (Z.ltb_spec (Z.of_nat k) 0); [lia |].
  rewrite loadTokens_spec by done.
  unfold spec_idc_count, spec_stripe_count in *.
  rewrite (calIDCWritable_loop_spec fuel
             (S (Z.to_nat (sumZ (spec_tokens itemSize stgs)))));
    [done | done | by apply spec_tokens_token | lia ..].
Qed.

Lemma spec_minimum_le (counts : list Z) : spec_minimum counts <= MaxInt64.
Proof.
  unfold spec_minimum. induction counts as [| x l IH]; simpl; lia.
Qed.

Lemma minimumOver_spec (f : list nodeAllocator -> fueled Z)
    (g : list nodeAllocator -> Z) (idcs : list (string * list nodeAllocator))
    (minimum : Z) :
  Forall (fun e => f e.2 = Finished (g e.2)) idcs ->
  minimum <= MaxInt64 ->
  minimumOver f idcs minimum
  = Finished (Z.min minimum (spec_minimum (map (fun e => g e.2) idcs))).
Proof.
  intros H. revert minimum.
  induction H as [| [idc stgs] idcs Hf _ IH]; intros minimum Hm; simpl.
  - f_equal. unfold spec_minimum. simpl. lia.
  - simpl in Hf. rewrite Hf.
    destruct (Z.ltb_spec (g stgs) minimum); rewrite IH by lia;
      f_equal; unfold spec_minimum; simpl; lia.
Qed.

Lemma fuel_for_all (itemSize : Z) (idcs : list (string * list nodeAllocator)) :
  exists fuel0 : nat,
    Forall (fun e =>
              (Z.to_nat (sumZ (spec_tokens itemSize e.2)) < fuel0)%nat) idcs.
Proof.
  induction idcs as [| e idcs [fuel0 IH]].
  - exists O. constructor.
  - exists (S (Nat.max fuel0 (Z.to_nat (sumZ (spec_tokens itemSize e.2))))).
    constructor; [lia |].
    eapply Forall_impl; [exact IH |]. simpl. intros; lia.
Qed.

Lemma spec_minimum_nonneg (counts : list Z) :
  Forall (fun x => 0 <= x) counts -> 0 <= spec_minimum counts.
Proof.
  unfold spec_minimum. induction 1; simpl; [unfold MaxInt64 |]; lia.
Qed.

Lemma spec_idc_count_nonneg (k : nat) (itemSize : Z)
    (stgs : list nodeAllocator) :
  0 <= spec_idc_count k itemSize stgs.
Proof. apply spec_rounds_nonneg. Qed.

(** The host-aware branch, with the fuel it needs made explicit. *)
Lemma host_aware_estimate_with_fuel (fuel : nat) (c : DiskMgrConfig)
    (nodeStgs : gmap string (list nodeAllocator)) (codeMode : Tactic)
    (suCount : Z) (k : nat) :
  HostAware c = true ->
  getMaxSuCount c = Some (codeMode, suCount) ->
  IDC c <> [] ->
  Z.quot suCount (Z.of_nat (length (IDC c))) = Z.of_nat k ->
  (0 < k)%nat ->
  0 < itemSizeOf c ->
  nodeStgs <> ∅ ->
  map_Forall (fun _ stgs =>
                Forall (fun v => MinInt64 <= naFree v <= MaxInt64) stgs
                /\ spec_idc_count k (itemSizeOf c) stgs <= MaxInt64)
             nodeStgs ->
  0 <= Tactic_N codeMode ->
  spec_stripes_present k (itemSizeOf c) nodeStgs * Tactic_N codeMode
  * itemSizeOf c <= MaxInt64 ->
  map_Forall (fun _ stgs =>
                (Z.to_nat (sumZ (spec_tokens (itemSizeOf c) stgs)) < fuel)%nat)
             nodeStgs ->
  calculateWritable fuel c nodeStgs
  = Finished (spec_stripes_present k (itemSizeOf c) nodeStgs
              * Tactic_N codeMode * itemSizeOf c).
Proof.
  intros Hh Hm Hidc Hk Hk0 Hi Hne Hall HN Hmax Hfuel.
  unfold calculateWritable. rewrite Hm, Hh, Hk.
  destruct (Z.eqb_spec (Z.of_nat (length (IDC c))) 0) as [H0 | _].
  { destruct (IDC c); [done | simpl in H0; lia]. }
  assert (0 < size nodeStgs)%nat as Hsz.
  { destruct (decide (size nodeStgs = 0%nat)) as [E | E]; [| lia].
    by apply map_size_empty_iff in E. }
  destruct (Z.ltb_spec 0 (Z.of_nat (size nodeStgs))); [| lia].
  simpl andb. cbv iota.
  rewrite (minimumOver_spec _ (spec_idc_count k (itemSizeOf c))).
  - fold (spec_stripes_present k (itemSizeOf c) nodeStgs).
    pose proof (spec_minimum_le
                  (map (fun e => spec_idc_count k (itemSizeOf c) e.2)
                       (map_to_list nodeStgs))) as Hle.
    fold (spec_stripes_present k (itemSizeOf c) nodeStgs) in Hle.
    rewrite Z.min_r by done.
    assert (0 <= spec_stripes_present k (itemSizeOf c) nodeStgs) as Hnn.
    { apply spec_minimum_nonneg, Forall_map, Forall_forall.
      intros e _. apply spec_idc_count_nonneg. }
    f_equal.
    rewrite (wrap64_small (_ * Tactic_N codeMode))
      by (unfold MinInt64, MaxInt64 in *; nia).
    apply wrap64_small. unfold MinInt64, MaxInt64 in *. nia.
  - apply Forall_forall. intros [idc stgs] Hin. simpl.
    apply elem_of_map_to_list in Hin.
    destruct (Hall idc stgs Hin) as [Hr Hc].
    apply calIDCWritableFunc_spec; [done .. |]. exact (Hfuel idc stgs Hin).
  - done.
Qed.

Lemma fuel_for_map (itemSize : Z)
    (nodeStgs : gmap string (list nodeAllocator)) :
  exists fuel0 : nat,
    forall fuel : nat,
      (fuel0 <= fuel)%nat ->
      map_Forall (fun _ stgs =>
                    (Z.to_nat (sumZ (spec_tokens itemSize stgs)) < fuel)%nat)
                 nodeStgs.
Proof.
  destruct (fuel_for_all itemSize (map_to_list nodeStgs)) as [fuel0 H].
  exists fuel0. intros fuel Hge idc stgs Hin.
  apply elem_of_map_to_list in Hin.
  rewrite Forall_forall in H. specialize (H _ Hin). simpl in H. lia.
Qed.

(** C2, as amended: in host-aware mode, with at least one IDC in
    [nodeStgs], a positive item size and a positive [idcSuCount], and as long
    as no [int64] overflows, [calculateWritable] returns [S * N * itemSize],
    where [S] is the least, over the IDCs that have an entry in [nodeStgs],
    of the stripe count obtained by loading the positive quotients
    [free / itemSize] of the nodes into a max-heap and, while at least
    [idcSuCount] tokens remain, popping the top [idcSuCount] tokens,
    subtracting [min(10, popped)] from each and pushing back the positive
    remainders, every round counting for ten stripes.  A configured IDC
    without an entry in [nodeStgs] does not enter the minimum. *)
Theorem calculateWritable_host_aware (c : DiskMgrConfig)
    (nodeStgs : gmap string (list nodeAllocator)) (codeMode : Tactic)
    (suCount : Z) (k : nat) :
  HostAware c = true ->
  getMaxSuCount c = Some (codeMode, suCount) ->
  IDC c <> [] ->
  Z.quot suCount (Z.of_nat (length (IDC c))) = Z.of_nat k ->
  (0 < k)%nat ->
  0 < itemSizeOf c ->
  nodeStgs <> ∅ ->
  map_Forall (fun _ stgs =>
                Forall (fun v => MinInt64 <= naFree v <= MaxInt64) stgs
                /\ spec_idc_count k (itemSizeOf c) stgs <= MaxInt64)
             nodeStgs ->
  0 <= Tactic_N codeMode ->
  spec_stripes_present k (itemSizeOf c) nodeStgs * Tactic_N codeMode
  * itemSizeOf c <= MaxInt64 ->
  exists fuel0 : nat,
    forall fuel : nat,
      (fuel0 <= fuel)%nat ->
      calculateWritable fuel c nodeStgs
      = Finished (spec_stripes_present k (itemSizeOf c) nodeStgs
                  * Tactic_N codeMode * itemSizeOf c).
Proof.
  intros Hh Hm Hidc Hk Hk0 Hi Hne Hall HN Hmax.
  destruct (fuel_for_map (itemSizeOf c) nodeStgs) as [fuel0 Hfuel].
  exists fuel0. intros fuel Hge.
  apply (host_aware_estimate_with_fuel fuel c nodeStgs codeMode suCount k);
    auto.
Qed.

Lemma spec_stripes_present_const (k : nat) (itemSize v : Z)
    (nodeStgs : gmap string (list nodeAllocator)) :
  nodeStgs <> ∅ ->
  v <= MaxInt64 ->
  map_Forall (fun _ stgs => spec_idc_count k itemSize stgs = v) nodeStgs ->
  spec_stripes_present k itemSize nodeStgs = v.
Proof.
  intros Hne Hv Hall. unfold spec_stripes_present.
  assert (Forall (fun e => spec_idc_count k itemSize e.2 = v)
                 (map_to_list nodeStgs)) as H.
  { apply Forall_forall. intros [idc stgs] Hin.
    apply elem_of_map_to_list in Hin. exact (Hall idc stgs Hin). }
  assert (map_to_list nodeStgs <> []) as Hl.
  { intros E. by apply map_to_list_empty_iff in E. }
  unfold spec_minimum.
  induction H as [| e l He Hf IH]; [done |]. simpl. rewrite He.
  destruct l as [| e' l]; [simpl; lia |].
  rewrite IH by done. lia.
Qed.

Lemma fourHosts_count (itemSize : Z) :
  0 < itemSize ->
  spec_tokens itemSize (fourHosts itemSize) = [10; 10; 10; 10]
  /\ spec_idc_count 4 itemSize (fourHosts itemSize) = 10.
Proof.
  intros Hi.
  assert (spec_tokens itemSize (fourHosts itemSize) = [10; 10; 10; 10]) as E.
  { unfold spec_tokens, fourHosts. simpl map.
    rewrite Z.quot_mul by lia. reflexivity. }
  split; [done |]. unfold spec_idc_count. rewrite E. reflexivity.
Qed.

(** The example of the specification: three IDCs of four hosts with one
    disk of ten free items each, and a code mode of twelve units, so that
    [idcSuCount] is four.  Every IDC counts ten stripes and the writable
    space is [10 * N * itemSize]. *)
Lemma calculateWritable_three_idcs (n m l itemSize : Z) :
  0 <= n -> 0 <= m -> 0 <= l -> n + m + l = 12 ->
  0 < itemSize ->
  10 * itemSize <= MaxInt64 ->
  10 * n * itemSize <= MaxInt64 ->
  spec_idc_count 4 itemSize (fourHosts itemSize) = 10
  /\ forall fuel : nat,
       (41 <= fuel)%nat ->
       calculateWritable fuel (estimatorConfig n m l itemSize)
         (threeIdcs itemSize)
       = Finished (10 * n * itemSize).
Proof.
  intros Hn Hm Hl Hsum Hi Hfree Hmax.
  destruct (fourHosts_count itemSize Hi) as [Htok Hcount].
  split; [done |]. intros fuel Hfuel.
  assert (itemSizeOf (estimatorConfig n m l itemSize) = itemSize) as Hsize.
  { unfold itemSizeOf. simpl.
    destruct (Z.eqb_spec itemSize 0); [lia | done]. }
  assert (map_Forall (fun _ stgs => stgs = fourHosts itemSize)
                     (threeIdcs itemSize)) as Hall.
  { unfold threeIdcs.
    repeat (apply map_Forall_insert_2; [done |]).
    apply map_Forall_empty. }
  assert (threeIdcs itemSize <> ∅) as Hne by apply insert_non_empty.
  assert (spec_stripes_present 4 itemSize (threeIdcs itemSize) = 10) as HS.
  { apply spec_stripes_present_const; [done | unfold MaxInt64; lia |].
    intros idc stgs Hin. by rewrite (Hall idc stgs Hin). }
  pose proof (host_aware_estimate_with_fuel fuel
                (estimatorConfig n m l itemSize) (threeIdcs itemSize)
                (mkTactic n m l) 12 4) as Hrun.
  rewrite Hsize, HS in Hrun. simpl Tactic_N in Hrun.
  apply Hrun; clear Hrun.
  - reflexivity.
  - unfold getMaxSuCount. simpl.
    rewrite (wrap64_small (n + m)) by (unfold MinInt64, MaxInt64; lia).
    rewrite (wrap64_small (n + m + l)) by (unfold MinInt64, MaxInt64; lia).
    rewrite Hsum. reflexivity.
  - discriminate.
  - reflexivity.
  - lia.
  - exact Hi.
  - exact Hne.
  - intros idc stgs Hin. rewrite (Hall idc stgs Hin). split.
    + unfold fourHosts. unfold MinInt64.
      repeat constructor; simpl; lia.
    + rewrite Hcount. unfold MaxInt64. lia.
  - exact Hn.
  - exact Hmax.
  - intros idc stgs Hin. rewrite (Hall idc stgs Hin), Htok. simpl. lia.
Qed.

Lemma calculateWritable_host_aware_witness :
  exists fuel0 : nat,
    forall fuel : nat,
      (fuel0 <= fuel)%nat ->
      calculateWritable fuel (estimatorConfig 6 6 0 16) (threeIdcs 16)
      = Finished 960.
Proof.
  destruct (calculateWritable_host_aware (estimatorConfig 6 6 0 16)
              (threeIdcs 16) (mkTactic 6 6 0) 12 4) as [fuel0 H].
  - reflexivity.
  - vm_compute. reflexivity.
  - discriminate.
  - reflexivity.
  - lia.
  - vm_compute. reflexivity.
  - apply insert_non_empty.
  - unfold threeIdcs.
    repeat (apply map_Forall_insert_2;
            [split; [repeat constructor; vm_compute; discriminate
                    | vm_compute; discriminate] |]).
    apply map_Forall_empty.
  - simpl. lia.
  - vm_compute. discriminate.
  - exists fuel0. intros fuel Hge. rewrite (H fuel Hge).
    vm_compute. reflexivity.
Defined.

(** C2, as stated, fails: of the three configured IDCs only z0 has nodes;
    the least stripe count over all configured IDCs is zero, and
    [calculateWritable] returns the 960 bytes of the ten stripes of z0. *)
Lemma calculateWritable_skips_absent_idc :
  IDC (estimatorConfig 6 6 0 16) = ["z0"; "z1"; "z2"]
  /\ calculateWritable 100 (estimatorConfig 6 6 0 16) (oneIdc 16)
     = Finished 960
  /\ spec_stripes_configured (estimatorConfig 6 6 0 16) 4 16 (oneIdc 16)
     * 6 * 16 = 0.
Proof. repeat split; vm_compute; reflexivity. Qed.

(** With [idcSuCount] zero the loop of [calIDCWritableFunc] never ends. *)
Lemma calIDCWritable_loop_zero (fuel : nat) (lefts : maxHeap) (n : Z) :
  calIDCWritable_loop fuel 0 lefts n = OutOfFuel.
Proof.
  revert lefts n. induction fuel as [| fuel IH]; intros lefts n; simpl;
    [done |].
  destruct (Z.ltb_spec (Z.of_nat (length lefts)) 0); [lia |]. apply IH.
Qed.

(** Without any IDC in [nodeStgs] the estimate is zero. *)
Lemma calculateWritable_no_idc (fuel : nat) (c : DiskMgrConfig)
    (codeMode : Tactic) (suCount : Z) :
  getMaxSuCount c = Some (codeMode, suCount) ->
  IDC c <> [] ->
  calculateWritable fuel c ∅ = Finished 0.
Proof.
  intros Hm Hidc. unfold calculateWritable. rewrite Hm.
  destruct (Z.eqb_spec (Z.of_nat (length (IDC c))) 0) as [H0 | _].
  { destruct (IDC c); [done | simpl in H0; lia]. }
  rewrite map_size_empty. simpl. by rewrite andb_false_r.
Qed.

(** A round counts for ten stripes whatever it pops: four nodes of three
    free items each make one round, and the count of their IDC is ten. *)
Lemma calIDCWritableFunc_small_tokens :
  spec_tokens 16 [mkNodeAllocator "h1" [1%N] 3 48;
                  mkNodeAllocator "h2" [2%N] 3 48;
                  mkNodeAllocator "h3" [3%N] 3 48;
                  mkNodeAllocator "h4" [4%N] 3 48] = [3; 3; 3; 3]
  /\ calIDCWritableFunc 100 4 16
       [mkNodeAllocator "h1" [1%N] 3 48; mkNodeAllocator "h2" [2%N] 3 48;
        mkNodeAllocator "h3" [3%N] 3 48; mkNodeAllocator "h4" [4%N] 3 48]
     = Finished 10.
Proof. split; vm_compute; reflexivity. Qed.

(** * Further properties of the manager *)

Section MoreFacts.

Context {P T : Type} {PH : persistentHandler P} {TM : topoMgrAPI T}
        {MR : mapRange}.

Implicit Types (d : @manager P T) (disk : diskItem) (node : nodeItem).

(** *** More on [SetStatus] *)

Lemma SetStatus_check_same disk (after : Z) (isCommit : bool) :
  SetStatus_check disk (dStatus (info disk)) after isCommit = Some None.
Proof. unfold SetStatus_check. by rewrite N.eqb_refl. Qed.

(** X1: a pre-check call of [SetStatus] (isCommit = false) never changes the
    manager, whatever it returns. *)
Theorem SetStatus_precheck_pure d (id : DiskID) (status : DiskStatus)
    (r : goerror) d' :
  SetStatus id status false d = Returns r d' -> d' = d.
Proof.
  unfold SetStatus.
  destruct (validSetStatus status); [| by intros [= _ <-]].
  destruct (getDisk d id); [| by intros [= _ <-]].
  destruct (SetStatus_check _ _ _ _) as [[e |] |]; [| | done];
    by intros [= _ <-].
Qed.

Lemma SetStatus_commit_status d (id : DiskID) (status : DiskStatus) disk
    (node : option nodeItem) d' :
  getDisk d id = Some disk ->
  SetStatus_commit id status disk node d = Returns None d' ->
  exists disk', getDisk d' id = Some disk' /\ dStatus (info disk') = status.
Proof.
  intros Hd. unfold SetStatus_commit.
  destruct (N.eqb_spec (dStatus (info disk)) status) as [He | _].
  { intros [= <-]. eauto. }
  destruct (if (status =? DiskStatusDropped)%N then _ else _) as [[e |] p];
    [done |].
  intros [= <-]. exists (set_status status disk). split; [| done].
  unfold getDisk.
  destruct (negb (needFilter (set_status status disk))), node; simpl;
    apply lookup_insert_eq.
Qed.

(** X2: committing a status twice is harmless: once [SetStatus] in commit mode
    has returned nil, the same call on the manager it produced returns nil
    again and changes nothing. *)
Theorem SetStatus_commit_replay d (id : DiskID) (status : DiskStatus) d' :
  SetStatus id status true d = Returns None d' ->
  SetStatus id status true d' = Returns None d'.
Proof.
  unfold SetStatus at 1.
  destruct (validSetStatus status) as [after |] eqn:Ha; [| done].
  destruct (getDisk d id) as [disk |] eqn:Hd; [| done].
  destruct (SetStatus_check _ _ _ _) as [[e |] |]; [done | | done].
  simpl. intros H.
  destruct (SetStatus_commit_status _ _ _ _ _ _ Hd H) as (disk' & Hd' & Hs).
  unfold SetStatus. rewrite Ha, Hd'. subst status.
  rewrite SetStatus_check_same. simpl.
  unfold SetStatus_commit. by rewrite N.eqb_refl.
Qed.

(** X3: what [SetStatus] leaves alone. Whatever it returns, the nodes, the
    pending entries and the configuration are unchanged, every other disk is
    untouched, and the disk itself is as it was or as it was with the
    requested status. When it returns an error, the disks, the topology and
    the host/path filter are unchanged as well. *)
Theorem SetStatus_frame d (id : DiskID) (status : DiskStatus)
    (isCommit : bool) (r : goerror) d' :
  SetStatus id status isCommit d = Returns r d' ->
  allNodes d' = allNodes d
  /\ pendingEntries d' = pendingEntries d
  /\ cfg d' = cfg d
  /\ (forall k, k <> id -> allDisks d' !! k = allDisks d !! k)
  /\ (forall disk',
        allDisks d' !! id = Some disk' ->
        exists disk,
          allDisks d !! id = Some disk
          /\ (disk' = disk \/ disk' = set_status status disk))
  /\ (r <> None ->
      allDisks d' = allDisks d /\ topoMgr d' = topoMgr d
      /\ hostPathFilter d' = hostPathFilter d).
Proof.
  unfold SetStatus.
  assert (Hsame : forall d0 d1 : @manager P T,
             allDisks d1 = allDisks d0 -> allNodes d1 = allNodes d0 ->
             pendingEntries d1 = pendingEntries d0 -> cfg d1 = cfg d0 ->
             topoMgr d1 = topoMgr d0 -> hostPathFilter d1 = hostPathFilter d0 ->
             allNodes d1 = allNodes d0 /\ pendingEntries d1 = pendingEntries d0
             /\ cfg d1 = cfg d0
             /\ (forall k, k <> id -> allDisks d1 !! k = allDisks d0 !! k)
             /\ (forall disk',
                   allDisks d1 !! id = Some disk' ->
                   exists disk,
                     allDisks d0 !! id = Some disk
                     /\ (disk' = disk \/ disk' = set_status status disk))
             /\ (r <> None ->
                 allDisks d1 = allDisks d0 /\ topoMgr d1 = topoMgr d0
                 /\ hostPathFilter d1 = hostPathFilter d0)).
  { intros d0 d1 E1 E2 E3 E4 E5 E6. rewrite E1.
    split; [done |]. split; [done |]. split; [done |]. split; [done |].
    split; [| done]. intros disk' H. eauto. }
  destruct (validSetStatus status); [| intros [= _ <-]; by apply Hsame].
  destruct (getDisk d id) as [disk |] eqn:Hd;
    [| intros [= _ <-]; by apply Hsame].
  destruct (SetStatus_check _ _ _ _) as [[e |] |];
    [intros [= _ <-]; by apply Hsame | | done].
  destruct isCommit; simpl; [| intros [= _ <-]; by apply Hsame].
  unfold SetStatus_commit.
  destruct (dStatus (info disk) =? status)%N;
    [intros [= _ <-]; by apply Hsame |].
  destruct (if (status =? DiskStatusDropped)%N then _ else _) as [[e |] p].
  { intros [= _ <-]. by apply Hsame. }
  intros [= <- <-].
  match goal with
  | |- allNodes ?dd = _ /\ _ =>
    assert (allDisks dd = <[id := set_status status disk]> (allDisks d)
            /\ allNodes dd = allNodes d
            /\ pendingEntries dd = pendingEntries d /\ cfg dd = cfg d)
      as (E1 & E2 & E3 & E4)
      by (destruct (negb (needFilter (set_status status disk))),
            (getNode d (dNodeID (info disk))); done);
    rewrite E1, E2, E3, E4
  end.
  split; [done |]. split; [done |]. split; [done |].
  split; [intros k Hk; by rewrite lookup_insert_ne |].
  split; [| done].
  intros disk'. rewrite lookup_insert_eq. intros [= <-]. eauto.
Qed.

(** X4: committing Repaired or Dropped on a registered disk of another status,
    with a backend write that succeeds, removes the key of the disk's host and
    path from the filter, so that a disk id not yet registered passes
    [CheckDiskInfoDuplicated] for that host and path. *)
Theorem SetStatus_commit_frees_path d (id id2 : DiskID) disk
    (status : DiskStatus) (before after : Z) (p : P) (diskInfo : DiskInfo)
    (nodeInfo : NodeInfo) :
  getDisk d id = Some disk ->
  validSetStatus (dStatus (info disk)) = Some before ->
  validSetStatus status = Some after ->
  dStatus (info disk) <> status ->
  status = DiskStatusRepaired \/ status = DiskStatusDropped ->
  (if N.eqb status DiskStatusDropped then droppedDisk id (persistent d)
   else updateDiskStatusNoLocked id status (persistent d)) = (None, p) ->
  getDisk d id2 = None ->
  nHost nodeInfo = dHost (info disk) ->
  dPath diskInfo = dPath (info disk) ->
  exists d',
    SetStatus id status true d = Returns None d'
    /\ hostPathFilter d' !! diskFilterKey disk = None
    /\ CheckDiskInfoDuplicated id2 diskInfo nodeInfo d' = Returns None d'.
Proof.
  intros Hd Hb Ha Hne Hs Hp Hd2 Hh Hpa.
  rewrite (SetStatus_commit_unchecked d id disk status before after Hd Hb Ha).
  unfold SetStatus_commit.
  destruct (N.eqb_spec (dStatus (info disk)) status); [done |].
  rewrite Hp.
  assert (needFilter (set_status status disk) = false) as Hnf.
  { unfold needFilter. simpl. by destruct Hs as [-> | ->]. }
  rewrite Hnf. simpl negb. cbv iota.
  eexists. split; [reflexivity |].
  assert (id2 <> id) as Hid by (intros ->; congruence).
  assert (diskFilterKey (set_status status disk) = diskFilterKey disk) as Hk
    by done.
  split.
  - destruct (getNode d (dNodeID (info disk))); simpl;
      rewrite Hk; apply lookup_delete_eq.
  - unfold CheckDiskInfoDuplicated.
    assert (forall d1 : @manager P T,
              allDisks d1 = <[id := set_status status disk]> (allDisks d) ->
              getDisk d1 id2 = None) as Hg.
    { intros d1 E. unfold getDisk. rewrite E, lookup_insert_ne by done.
      exact Hd2. }
    rewrite Hh, Hpa.
    destruct (getNode d (dNodeID (info disk))); simpl;
      (rewrite Hg by done); simpl; rewrite Hk;
      unfold diskFilterKey; by rewrite lookup_delete_eq.
Qed.

(** *** More on [applySwitchReadonly] *)

Lemma set_readonly_same disk (b : bool) :
  dReadonly (info disk) = b -> set_readonly b disk = disk.
Proof.
  destruct disk as [i [nd h pa idc ra st ro ds] x dr e l]. simpl.
  by intros ->.
Qed.

(** X5: what [applySwitchReadonly] leaves alone. Whenever it returns, the
    nodes, the topology, the host/path filter and the pending entries are
    unchanged and every other disk is untouched; the disk was registered and
    is either as it was or, when nil is returned, as it was with the requested
    readonly flag. A failed write therefore leaves the flag as it was. *)
Theorem applySwitchReadonly_frame d (id : DiskID) (readonly : bool)
    (r : goerror) d' :
  applySwitchReadonly id readonly d = Returns r d' ->
  allNodes d' = allNodes d
  /\ topoMgr d' = topoMgr d
  /\ hostPathFilter d' = hostPathFilter d
  /\ pendingEntries d' = pendingEntries d
  /\ (forall k, k <> id -> allDisks d' !! k = allDisks d !! k)
  /\ exists disk,
       allDisks d !! id = Some disk
       /\ (allDisks d' !! id = Some disk
           \/ (r = None
               /\ allDisks d' !! id = Some (set_readonly readonly disk))).
Proof.
  unfold applySwitchReadonly.
  destruct (getDisk d id) as [disk |] eqn:Hd; [| done].
  destruct (Bool.eqb_spec (dReadonly (info disk)) readonly) as [He | Hne].
  { intros [= _ <-]. repeat split. eauto. }
  destruct (updateDiskNoLocked _ _) as [[e |] p]; intros [= <- <-]; simpl.
  - rewrite set_readonly_back by done. repeat split.
    + intros k Hk. by rewrite lookup_insert_ne.
    + exists disk. split; [done |]. left. apply lookup_insert_eq.
  - repeat split.
    + intros k Hk. by rewrite lookup_insert_ne.
    + exists disk. split; [done |]. right. split; [done |].
      apply lookup_insert_eq.
Qed.

(** X6: once [applySwitchReadonly] has returned nil the disk carries the
    requested readonly flag, and the same call on the manager it produced
    returns nil again and changes nothing. *)
Theorem applySwitchReadonly_replay d (id : DiskID) (readonly : bool) d' :
  applySwitchReadonly id readonly d = Returns None d' ->
  applySwitchReadonly id readonly d' = Returns None d'
  /\ exists disk', getDisk d' id = Some disk'
                   /\ dReadonly (info disk') = readonly.
Proof.
  unfold applySwitchReadonly at 1.
  destruct (getDisk d id) as [disk |] eqn:Hd; [| done].
  destruct (Bool.eqb_spec (dReadonly (info disk)) readonly) as [He | Hne].
  - intros [= <-]. unfold applySwitchReadonly. rewrite Hd.
    destruct (Bool.eqb_spec (dReadonly (info disk)) readonly); [| done].
    eauto.
  - destruct (updateDiskNoLocked _ _) as [[e |] p]; [done |].
    intros [= <-]. unfold applySwitchReadonly, getDisk. simpl.
    rewrite lookup_insert_eq. simpl. rewrite eqb_reflx. eauto.
Qed.

(** *** More on the dropping of disks *)

(** X8: after [applyDroppingDisk] has committed a Normal, readonly disk with a
    backend write that succeeds, [IsDroppingDisk] answers true for it and
    every further call of [applyDroppingDisk], pre-check or commit, returns
    (true, nil) and changes nothing. *)
Theorem applyDroppingDisk_replay d (id : DiskID) disk (p : P) :
  getDisk d id = Some disk ->
  dropping disk = false ->
  dStatus (info disk) = DiskStatusNormal ->
  dReadonly (info disk) = true ->
  addDroppingDisk id (persistent d) = (None, p) ->
  exists d',
    applyDroppingDisk id true d = Returns (false, None) d'
    /\ IsDroppingDisk id d' = (true, None)
    /\ forall isCommit,
         applyDroppingDisk id isCommit d' = Returns (true, None) d'.
Proof.
  intros Hd Hdr Hs Hr Hp. unfold applyDroppingDisk at 1.
  rewrite Hd, Hdr, Hs, Hr, Hp. simpl.
  assert (forall d1 : @manager P T,
            allDisks d1 = <[id := set_dropping true disk]> (allDisks d) ->
            IsDroppingDisk id d1 = (true, None)
            /\ forall isCommit,
                 applyDroppingDisk id isCommit d1 = Returns (true, None) d1)
    as Hafter.
  { intros d1 E. unfold IsDroppingDisk, applyDroppingDisk, getDisk.
    by rewrite E, lookup_insert_eq. }
  unfold getNode. simpl.
  destruct (allNodes d !! dNodeID (info disk)); eexists;
    (split; [reflexivity |]); by apply Hafter.
Qed.

(** X9: in commit mode [applyDroppingDisk] never returns the refusal of a disk
    that is not Normal or not readonly: it returns (false, nil), leaves the
    disks, nodes, topology, filter and backend as they are, and stores
    ErrDiskAbnormalOrNotReadOnly under the key disk-dropping-<id> of the
    pending entries exactly when that key is already there. *)
Theorem applyDroppingDisk_commit_refusal d (id : DiskID) disk :
  getDisk d id = Some disk ->
  dropping disk = false ->
  dStatus (info disk) <> DiskStatusNormal \/ dReadonly (info disk) = false ->
  let key := fmtApplyContextKey "disk-dropping" (ToString id) in
  exists d',
    applyDroppingDisk id true d = Returns (false, None) d'
    /\ allDisks d' = allDisks d /\ allNodes d' = allNodes d
    /\ topoMgr d' = topoMgr d /\ hostPathFilter d' = hostPathFilter d
    /\ persistent d' = persistent d
    /\ (pendingEntries d !! key = None -> d' = d)
    /\ (is_Some (pendingEntries d !! key) ->
        pendingEntries d'
        = <[key := Some ErrDiskAbnormalOrNotReadOnly]> (pendingEntries d)).
Proof.
  intros Hd Hdr Hor key. unfold applyDroppingDisk. rewrite Hd, Hdr.
  assert (negb (dStatus (info disk) =? DiskStatusNormal)%N
          || negb (dReadonly (info disk)) = true) as ->.
  { destruct Hor as [H | ->]; [| by rewrite orb_true_r].
    apply N.eqb_neq in H. by rewrite H. }
  simpl. eexists. split; [reflexivity |].
  fold key. unfold storePending.
  destruct (pendingEntries d !! key) as [v |]; simpl; repeat split;
    try done.
Qed.

(** *** More on [applyDroppedDisk] *)

(** X10: the edges of [applyDroppedDisk]. A disk the backend does not list as
    dropping is left alone and nil is returned; an error of that lookup is
    returned wrapped, with nothing changed; a disk that is listed but not
    registered makes the function panic (the disk it looks up afterwards is
    nil). *)
Theorem applyDroppedDisk_edges d (id : DiskID) :
  (isDroppingDisk id (persistent d) = (false, None) ->
   applyDroppedDisk id d = Returns None d)
  /\ (forall found e,
        isDroppingDisk id (persistent d) = (found, Some e) ->
        applyDroppedDisk id d
        = Returns
            (Some (ErrInfo e "diskMgr.droppedDisk get dropping disk failed"))
            d)
  /\ (isDroppingDisk id (persistent d) = (true, None) ->
      getDisk d id = None ->
      applyDroppedDisk id d = Panics).
Proof.
  unfold applyDroppedDisk. split; [| split].
  - by intros ->.
  - by intros found e ->.
  - intros -> Hd.
    assert (SetStatus id DiskStatusDropped true d
            = Returns (Some ErrCMDiskNotFound) d) as E.
    { unfold SetStatus.
      change (validSetStatus DiskStatusDropped) with (Some 4).
      by rewrite Hd. }
    simpl negb. cbv iota. by rewrite E, Hd.
Qed.

(** X11: [applyDroppedDisk] on a registered disk that the backend lists as
    dropping and whose status is on the ladder and not yet Dropped, with a
    backend write that succeeds: it returns nil; the disk found under the id
    afterwards has its dropping flag false and the status Dropped and is
    otherwise as it was, every other disk is untouched, the host/path key of
    the disk is gone from the filter, and the disk is removed from the DiskSet
    of its node when the node is registered. The disk is written out field by
    field. *)
Theorem applyDroppedDisk_drops d (id : DiskID) disk (before : Z) (p : P) :
  let dropped :=
    mkDiskItem (diskID disk)
      (mkDiskInfo (dNodeID (info disk)) (dHost (info disk))
         (dPath (info disk)) (dIdc (info disk)) (dRack (info disk))
         DiskStatusDropped (dReadonly (info disk)) (dDiskSetID (info disk)))
      (extraInfo disk) (dropping disk) (expireTime disk)
      (lastExpireTime disk) in
  isDroppingDisk id (persistent d) = (true, None) ->
  getDisk d id = Some disk ->
  validSetStatus (dStatus (info disk)) = Some before ->
  dStatus (info disk) <> DiskStatusDropped ->
  droppedDisk id (persistent d) = (None, p) ->
  exists d' disk',
    applyDroppedDisk id d = Returns None d'
    /\ getDisk d' id = Some disk'
    /\ dropping disk' = false
    /\ dStatus (info disk') = DiskStatusDropped
    /\ disk'
       = mkDiskItem (diskID disk) (info dropped) (extraInfo disk) false
           (expireTime disk) (lastExpireTime disk)
    /\ (forall k, k <> id -> getDisk d' k = getDisk d k)
    /\ hostPathFilter d' = delete (diskFilterKey disk) (hostPathFilter d)
    /\ topoMgr d'
       = match getNode d (dNodeID (info disk)) with
         | Some node =>
           RemoveDiskFromDiskSet (nDiskType (ninfo node))
             (nNodeSetID (ninfo node)) dropped (topoMgr d)
         | None => topoMgr d
         end
    /\ persistent d' = p.
Proof.
  intros dropped Hl Hd Hb Hne Hp. unfold applyDroppedDisk. rewrite Hl. simpl.
  rewrite (SetStatus_commit_unchecked d id disk DiskStatusDropped before 4
             Hd Hb eq_refl).
  unfold SetStatus_commit.
  destruct (N.eqb_spec (dStatus (info disk)) DiskStatusDropped); [done |].
  simpl. rewrite Hp. simpl.
  change (set_status DiskStatusDropped disk) with dropped.
  destruct (getNode d (dNodeID (info disk))); simpl;
    unfold getDisk; simpl; rewrite lookup_insert_eq;
    eexists; eexists; (split; [reflexivity |]); simpl;
    (split; [apply lookup_insert_eq |]);
    (split; [reflexivity |]); (split; [reflexivity |]);
    (split; [reflexivity |]);
    (split; [intros k Hk; by rewrite !lookup_insert_ne by done |]);
    done.
Qed.

(** X12: for a registered disk that the backend lists as dropping and whose
    status is on the ladder and not Dropped: when the backend write of
    [applyDroppedDisk] fails, the error comes back wrapped twice and the
    manager is as it was but for the backend and for the disk, whose dropping
    flag is false afterwards while its info, the status included, is kept. The
    manager and the disk are written out field by field. *)
Theorem applyDroppedDisk_failed_write d (id : DiskID) disk (before : Z)
    (e : error) (p : P) :
  isDroppingDisk id (persistent d) = (true, None) ->
  getDisk d id = Some disk ->
  validSetStatus (dStatus (info disk)) = Some before ->
  dStatus (info disk) <> DiskStatusDropped ->
  droppedDisk id (persistent d) = (Some e, p) ->
  applyDroppedDisk id d
  = Returns
      (Some (ErrInfo
               (ErrInfo e "diskMgr.SetStatus update disk info failed")
               "diskMgr.droppedDisk set disk dropped status failed"))
      (mkManager
         (<[id := mkDiskItem (diskID disk) (info disk) (extraInfo disk) false
                    (expireTime disk) (lastExpireTime disk)]> (allDisks d))
         (allNodes d) (topoMgr d) (hostPathFilter d) (pendingEntries d) p
         (cfg d))
  /\ forall r d',
       applyDroppedDisk id d = Returns r d' ->
       exists disk',
         getDisk d' id = Some disk'
         /\ dropping disk' = false
         /\ info disk' = info disk.
Proof.
  intros Hl Hd Hb Hne Hp.
  assert (applyDroppedDisk id d
          = Returns
              (Some (ErrInfo
                       (ErrInfo e "diskMgr.SetStatus update disk info failed")
                       "diskMgr.droppedDisk set disk dropped status failed"))
              (mkManager
                 (<[id := mkDiskItem (diskID disk) (info disk)
                            (extraInfo disk) false (expireTime disk)
                            (lastExpireTime disk)]> (allDisks d))
                 (allNodes d) (topoMgr d) (hostPathFilter d)
                 (pendingEntries d) p (cfg d))) as Hrun.
  { unfold applyDroppedDisk. rewrite Hl. simpl.
    rewrite (SetStatus_commit_unchecked d id disk DiskStatusDropped before 4
               Hd Hb eq_refl).
    unfold SetStatus_commit.
    destruct (N.eqb_spec (dStatus (info disk)) DiskStatusDropped); [done |].
    simpl. rewrite Hp. simpl. unfold getDisk in *. simpl. by rewrite Hd. }
  split; [exact Hrun |].
  intros r d'. rewrite Hrun. intros [= _ <-].
  eexists. split; [apply lookup_insert_eq |]. done.
Qed.

(** *** More on [applyDroppingNode] *)

Lemma applyDroppingNode_loop_precheck (nid : NodeID) (l : list DiskID) d :
  disksKeyed (allDisks d) ->
  applyDroppingNode_loop nid false l d
  = Returns
      (if existsb
            (fun id =>
               match getDisk d id with
               | Some di =>
                 (dStatus (info di) =? DiskStatusNormal)%N
                 && negb (dropping di) && negb (dReadonly (info di))
               | None => false
               end) l
       then Some (false, Some ErrDiskAbnormalOrNotReadOnly)
       else None) d.
Proof.
  intros Hk. induction l as [| id l IH]; simpl; [done |].
  destruct (getDisk d id) as [di |] eqn:Hd; [| done].
  destruct (N.eqb_spec (dStatus (info di)) DiskStatusNormal) as [Hs | Hs];
    simpl; [| done].
  rewrite (Hk id di Hd). unfold applyDroppingDisk. rewrite Hd.
  destruct (dropping di); simpl; [done |].
  apply N.eqb_eq in Hs. rewrite Hs. simpl.
  by destruct (dReadonly (info di)).
Qed.

(** X13: the pre-check of [applyDroppingNode] on a registered node in use that
    is not dropping: it is refused with ErrDiskAbnormalOrNotReadOnly when some
    disk of the node is Normal, not dropping and writable, and passes with
    (false, nil) when every Normal disk of the node that is not dropping is
    readonly; the manager is unchanged either way. *)
Theorem applyDroppingNode_precheck d (nid : NodeID) node :
  disksKeyed (allDisks d) ->
  getNode d nid = Some node ->
  isUsingStatus node = true ->
  ndropping node = false ->
  ((exists id disk,
       id ∈ disks node /\ getDisk d id = Some disk
       /\ dStatus (info disk) = DiskStatusNormal
       /\ dropping disk = false /\ dReadonly (info disk) = false) ->
   applyDroppingNode nid false d
   = Returns (false, Some ErrDiskAbnormalOrNotReadOnly) d)
  /\ ((forall id disk,
         id ∈ disks node -> getDisk d id = Some disk ->
         dStatus (info disk) = DiskStatusNormal ->
         dropping disk = false -> dReadonly (info disk) = true) ->
      applyDroppingNode nid false d = Returns (false, None) d).
Proof.
  intros Hk Hn Hu Hdr. unfold applyDroppingNode.
  rewrite Hn, Hu, Hdr. simpl.
  rewrite applyDroppingNode_loop_precheck by done.
  split.
  - intros (id & disk & Hin & Hd & Hs & Hdd & Hr).
    destruct (existsb _ _) eqn:E; [done |].
    exfalso. rewrite <- not_true_iff_false in E. apply E.
    apply existsb_exists. exists id. split.
    + apply list_elem_of_In, elem_of_rangeKeys. exact Hin.
    + rewrite Hd, Hs, Hdd, Hr. reflexivity.
  - intros Hall.
    destruct (existsb _ _) eqn:E; [| done].
    exfalso. apply existsb_exists in E as (id & Hin & Hb).
    apply list_elem_of_In, elem_of_rangeKeys in Hin.
    destruct (getDisk d id) as [di |] eqn:Hd; [| done].
    rewrite !andb_true_iff, !negb_true_iff, N.eqb_eq in Hb.
    destruct Hb as [[Hs Hdd] Hr].
    rewrite (Hall id di Hin Hd Hs Hdd) in Hr. done.
Qed.

Lemma applyDroppingDisk_precheck_same d (id : DiskID)
    (r : bool * goerror) d' :
  applyDroppingDisk id false d = Returns r d' -> d' = d.
Proof.
  unfold applyDroppingDisk.
  destruct (getDisk d id) as [disk |]; [| by intros [= _ <-]].
  destruct (dropping disk); [by intros [= _ <-] |].
  destruct (_ || _); simpl; by intros [= _ <-].
Qed.

Lemma applyDroppingNode_loop_precheck_same (nid : NodeID) (l : list DiskID)
    d (r : option (bool * goerror)) d' :
  applyDroppingNode_loop nid false l d = Returns r d' -> d' = d.
Proof.
  induction l as [| id l IH]; simpl; [by intros [= _ <-] |].
  destruct (getDisk d id) as [di |]; [| done].
  destruct (negb _); [done |].
  destruct (applyDroppingDisk (diskID di) false d) as [[b [e |]] d1 |] eqn:E;
    [| | done].
  - apply applyDroppingDisk_precheck_same in E as ->. by intros [= _ <-].
  - apply applyDroppingDisk_precheck_same in E as ->. exact IH.
Qed.

(** X7: the pre-check calls (isCommit = false) of [applyDroppingDisk] and of
    [applyDroppingNode] never change the manager, whatever they return. *)
Theorem dropping_precheck_pure d d' :
  (forall (id : DiskID) (r : bool * goerror),
     applyDroppingDisk id false d = Returns r d' -> d' = d)
  /\ (forall (nid : NodeID) (r : bool * goerror),
        applyDroppingNode nid false d = Returns r d' -> d' = d).
Proof.
  split.
  - intros id r. apply applyDroppingDisk_precheck_same.
  - intros nid r. unfold applyDroppingNode.
    destruct (getNode d nid) as [node |]; [| by intros [= _ <-]].
    destruct (_ || _); [by intros [= _ <-] |].
    destruct (applyDroppingNode_loop _ _ _ _) as [[r1 |] d1 |] eqn:E;
      [| | done];
      apply applyDroppingNode_loop_precheck_same in E as ->;
      by intros [= _ <-].
Qed.

Lemma set_dropping_same disk (b : bool) :
  dropping disk = b -> set_dropping b disk = disk.
Proof. destruct disk. simpl. by intros ->. Qed.

Lemma disksKeyed_insert (m : gmap DiskID diskItem) (id : DiskID) disk :
  disksKeyed m -> diskID disk = id -> disksKeyed (<[id := disk]> m).
Proof.
  intros Hk Hid k dk. rewrite lookup_insert.
  case_decide; [by intros [= <-]; subst | apply Hk].
Qed.

Lemma applyDroppingNode_loop_commit (nid : NodeID) (l : list DiskID) d :
  (forall id p, (addDroppingDisk id p).1 = None) ->
  NoDup l ->
  disksKeyed (allDisks d) ->
  exists d',
    applyDroppingNode_loop nid true l d = Returns None d'
    /\ allNodes d' = allNodes d
    /\ forall id,
         allDisks d' !! id
         = (fun disk =>
              if bool_decide (id ∈ l)
                 && (dStatus (info disk) =? DiskStatusNormal)%N
                 && dReadonly (info disk)
              then set_dropping true disk else disk) <$> allDisks d !! id.
Proof.
  intros Hok Hnd. revert d.
  induction Hnd as [| x l Hx Hnd IH]; intros d Hk; simpl.
  { exists d. repeat split. intros id.
    by destruct (allDisks d !! id). }
  assert (forall d1 : @manager P T,
            allDisks d1 = allDisks d -> allNodes d1 = allNodes d ->
            (getDisk d x = None
             \/ exists di, getDisk d x = Some di
                  /\ (if (dStatus (info di) =? DiskStatusNormal)%N
                         && dReadonly (info di)
                      then set_dropping true di else di) = di) ->
            exists d',
              applyDroppingNode_loop nid true l d1 = Returns None d'
              /\ allNodes d' = allNodes d
              /\ forall id,
                   allDisks d' !! id
                   = (fun disk =>
                        if bool_decide (id ∈ x :: l)
                           && (dStatus (info disk) =? DiskStatusNormal)%N
                           && dReadonly (info disk)
                        then set_dropping true disk else disk)
                       <$> allDisks d !! id) as Hskip.
  { intros d1 E1 E2 Hx1.
    destruct (IH d1) as (d' & Hrun & Hn & Hl); [by rewrite E1 |].
    exists d'. split; [done |]. split; [congruence |].
    intros id. rewrite Hl, E1.
    destruct (decide (id = x)) as [-> | Hne].
    - rewrite (bool_decide_eq_false_2 (x ∈ l)) by done.
      rewrite (bool_decide_eq_true_2 (x ∈ x :: l)) by apply list_elem_of_here.
      simpl. unfold getDisk in Hx1.
      destruct Hx1 as [-> | (di & -> & Hdi)]; [done |].
      simpl. by rewrite Hdi.
    - destruct (allDisks d !! id) as [dk |]; [| done]. simpl.
      destruct (decide (id ∈ l)).
      + rewrite !bool_decide_eq_true_2; [done | | done].
        by apply list_elem_of_further.
      + rewrite !bool_decide_eq_false_2; [done | | done].
        intros [? | ?]%elem_of_cons; done. }
  destruct (getDisk d x) as [di |] eqn:Hd; [| apply Hskip; auto].
  destruct (N.eqb_spec (dStatus (info di)) DiskStatusNormal) as [Hs | Hs];
    simpl.
  2: { apply Hskip; [done .. |]. right. exists di. split; [done |].
       apply N.eqb_neq in Hs. by rewrite Hs. }
  rewrite (Hk x di Hd). unfold applyDroppingDisk. rewrite Hd.
  apply N.eqb_eq in Hs.
  destruct (dropping di) eqn:Hdr.
  { apply Hskip; [done .. |]. right. exists di. split; [done |].
    rewrite set_dropping_same by done. by destruct (_ && _). }
  rewrite Hs. simpl.
  destruct (dReadonly (info di)) eqn:Hr; simpl.
  2: { apply Hskip; [apply storePending_disks | | ].
       - unfold storePending. by destruct (pendingEntries d !! _).
       - right. exists di. split; [done |]. by rewrite Hs, Hr. }
  pose proof (Hok x (persistent d)) as Hw.
  destruct (addDroppingDisk x (persistent d)) as [e p]. simpl in Hw. subst e.
  assert (forall d1 : @manager P T,
            allDisks d1 = <[x := set_dropping true di]> (allDisks d) ->
            allNodes d1 = allNodes d ->
            exists d',
              applyDroppingNode_loop nid true l d1 = Returns None d'
              /\ allNodes d' = allNodes d
              /\ forall id,
                   allDisks d' !! id
                   = (fun disk =>
                        if bool_decide (id ∈ x :: l)
                           && (dStatus (info disk) =? DiskStatusNormal)%N
                           && dReadonly (info disk)
                        then set_dropping true disk else disk)
                       <$> allDisks d !! id) as Hset.
  { intros d1 E1 E2.
    destruct (IH d1) as (d' & Hrun & Hn & Hl).
    { rewrite E1. apply disksKeyed_insert; [done |]. simpl. by apply Hk. }
    exists d'. split; [done |]. split; [congruence |].
    intros id. rewrite Hl, E1.
    destruct (decide (id = x)) as [-> | Hne].
    - rewrite lookup_insert_eq.
      rewrite (bool_decide_eq_false_2 (x ∈ l)) by done.
      rewrite (bool_decide_eq_true_2 (x ∈ x :: l)) by apply list_elem_of_here.
      unfold getDisk in Hd. rewrite Hd.
      unfold fmap, option_fmap, option_map. by rewrite Hs, Hr.
    - rewrite lookup_insert_ne by done.
      destruct (allDisks d !! id) as [dk |]; [| done]. simpl.
      destruct (decide (id ∈ l)).
      + rewrite !bool_decide_eq_true_2; [done | | done].
        by apply list_elem_of_further.
      + rewrite !bool_decide_eq_false_2; [done | | done].
        intros [? | ?]%elem_of_cons; done. }
  unfold getNode. simpl.
  destruct (allNodes d !! dNodeID (info di)); by apply Hset.
Qed.

Lemma NoDup_rangeKeys (s : gset N) : NoDup (rangeKeys s).
Proof. rewrite (rangeKeys_perm s). apply NoDup_elements. Qed.

(** X14: the commit of [applyDroppingNode] over a backend whose writes
    succeed, on a registered node in use that is not dropping, in a manager
    that holds every disk under its own id: it returns (false, nil); the node
    found afterwards has its dropping flag true and is otherwise as it was;
    every registered disk keeps its id, info, payload and times, and its
    dropping flag is true afterwards when it is a Normal readonly disk of the
    node and as before otherwise. The Normal writable disks of the node are
    thus left out while the node is marked all the same. *)
Theorem applyDroppingNode_commit d (nid : NodeID) node :
  (forall id q, (addDroppingDisk id q).1 = None) ->
  (forall q, (addDroppingNode nid q).1 = None) ->
  disksKeyed (allDisks d) ->
  getNode d nid = Some node ->
  isUsingStatus node = true ->
  ndropping node = false ->
  exists d',
    applyDroppingNode nid true d = Returns (false, None) d'
    /\ getNode d' nid
       = Some (mkNodeItem (nodeID node) (ninfo node) (disks node) true)
    /\ forall id disk,
         getDisk d id = Some disk ->
         exists disk',
           getDisk d' id = Some disk'
           /\ diskID disk' = diskID disk /\ info disk' = info disk
           /\ extraInfo disk' = extraInfo disk
           /\ expireTime disk' = expireTime disk
           /\ lastExpireTime disk' = lastExpireTime disk
           /\ dropping disk'
              = if bool_decide (id ∈ disks node)
                   && (dStatus (info disk) =? DiskStatusNormal)%N
                   && dReadonly (info disk)
                then true else dropping disk.
Proof.
  intros Hok Hokn Hk Hn Hu Hdr. unfold applyDroppingNode.
  rewrite Hn, Hu, Hdr. simpl.
  destruct (applyDroppingNode_loop_commit nid (rangeKeys (disks node)) d
              Hok (NoDup_rangeKeys _) Hk) as (d1 & -> & Hnodes & Hdisks).
  pose proof (Hokn (persistent d1)) as Hw.
  destruct (addDroppingNode nid (persistent d1)) as [e q]. simpl in Hw.
  subst e. eexists. split; [reflexivity |]. split.
  - unfold getNode in *. simpl. rewrite Hnodes, lookup_alter_eq, Hn. done.
  - intros id disk Hd. unfold getDisk in *. simpl.
    rewrite Hdisks, Hd. simpl.
    eexists. split; [reflexivity |].
    destruct (decide (id ∈ disks node)) as [Hin | Hin].
    + rewrite (bool_decide_eq_true_2 (id ∈ disks node)) by done.
      rewrite bool_decide_eq_true_2 by by apply elem_of_rangeKeys.
      by destruct (dStatus (info disk) =? DiskStatusNormal)%N,
           (dReadonly (info disk)).
    + rewrite (bool_decide_eq_false_2 (id ∈ disks node)) by done.
      rewrite bool_decide_eq_false_2 by by rewrite elem_of_rangeKeys.
      done.
Qed.

(** *** Nodes *)

(** X15: [applyAddNode] of a node id that is not registered, with a backend
    write that succeeds: it returns nil, [getNode] then finds the node with
    status Normal, no disk and the NodeSet allocated for it, the disks are
    unchanged, [CheckNodeInfoDuplicated] now reports the node's id for its
    host and disk type, and adding the same node again returns nil and changes
    nothing. *)
Theorem applyAddNode_registers d (nodeInfo : NodeInfo) (p : P) :
  let alloc :=
    if N.eqb (nNodeSetID nodeInfo) nullNodeSetID
    then AllocNodeSetID nodeInfo (topoMgr d)
    else (nNodeSetID nodeInfo, topoMgr d) in
  let ni :=
    mkNodeItem (nNodeID nodeInfo)
      (mkNodeInfo (nNodeID nodeInfo) (nHost nodeInfo) (nIdc nodeInfo)
         (nRack nodeInfo) (nDiskType nodeInfo) (nRole nodeInfo)
         NodeStatusNormal alloc.1) ∅ false in
  getNode d (nNodeID nodeInfo) = None ->
  updateNodeNoLocked ni (persistent d) = (None, p) ->
  exists d',
    applyAddNode nodeInfo d = Returns None d'
    /\ getNode d' (nNodeID nodeInfo) = Some ni
    /\ topoMgr d' = AddNodeToNodeSet ni alloc.2
    /\ allDisks d' = allDisks d
    /\ CheckNodeInfoDuplicated nodeInfo d'
       = Returns (nNodeID nodeInfo, true) d'
    /\ applyAddNode nodeInfo d' = Returns None d'.
Proof.
  intros alloc ni Hn Hp. unfold applyAddNode at 1. rewrite Hn.
  fold alloc. destruct alloc as [nsid t1] eqn:Ea. simpl in ni.
  fold ni. rewrite Hp.
  eexists. split; [reflexivity |].
  split; [apply lookup_insert_eq |].
  split; [reflexivity |]. split; [reflexivity |].
  split.
  - unfold CheckNodeInfoDuplicated.
    change (nodeFilterKey
              (mkNodeItem 0%N
                 (mkNodeInfo 0%N (nHost nodeInfo) "" "" (nDiskType nodeInfo)
                    0%N 0%N 0%N) ∅ false)) with (nodeFilterKey ni).
    simpl. by rewrite lookup_insert_eq.
  - unfold applyAddNode, getNode. simpl. by rewrite lookup_insert_eq.
Qed.

(** X16: when [applyAddNode] returns an error, the nodes, the disks and the
    host/path filter are unchanged. *)
Theorem applyAddNode_failed_write d (nodeInfo : NodeInfo) (r : goerror) d' :
  applyAddNode nodeInfo d = Returns r d' ->
  r <> None ->
  allNodes d' = allNodes d /\ allDisks d' = allDisks d
  /\ hostPathFilter d' = hostPathFilter d.
Proof.
  unfold applyAddNode.
  destruct (getNode d _); [by intros [= <- <-] |].
  destruct (if (nNodeSetID nodeInfo =? nullNodeSetID)%N then _ else _)
    as [nsid t1].
  destruct (updateNodeNoLocked _ _) as [[e' |] q]; intros [= <- <-]; done.
Qed.

(** X17: what [applyDroppedNode] leaves alone. Whenever it returns, the disks,
    the host/path filter and the pending entries are unchanged and every other
    node is untouched; when it returns an error the nodes and the topology are
    unchanged too. As the filter keeps the key of a dropped node,
    [CheckNodeInfoDuplicated] gives for every node info the answer it gave
    before, and panics when it did before. *)
Theorem applyDroppedNode_frame d (nid : NodeID) (r : goerror) d' :
  applyDroppedNode nid d = Returns r d' ->
  allDisks d' = allDisks d
  /\ hostPathFilter d' = hostPathFilter d
  /\ pendingEntries d' = pendingEntries d
  /\ (forall k, k <> nid -> allNodes d' !! k = allNodes d !! k)
  /\ (r <> None -> allNodes d' = allNodes d /\ topoMgr d' = topoMgr d)
  /\ forall i : NodeInfo,
       (stateOf (CheckNodeInfoDuplicated i d') = None
        <-> stateOf (CheckNodeInfoDuplicated i d) = None)
       /\ forall answer : NodeID * bool,
            CheckNodeInfoDuplicated i d' = Returns answer d'
            <-> CheckNodeInfoDuplicated i d = Returns answer d.
Proof.
  unfold applyDroppedNode.
  assert (forall d0 : @manager P T,
            hostPathFilter d0 = hostPathFilter d ->
            forall i : NodeInfo,
              (stateOf (CheckNodeInfoDuplicated i d0) = None
               <-> stateOf (CheckNodeInfoDuplicated i d) = None)
              /\ forall answer : NodeID * bool,
                   CheckNodeInfoDuplicated i d0 = Returns answer d0
                   <-> CheckNodeInfoDuplicated i d = Returns answer d) as Hc.
  { intros d0 E i. unfold CheckNodeInfoDuplicated. rewrite E.
    destruct (hostPathFilter d !! _) as [[| nid'] |]; simpl;
      (split; [done |]); intros answer;
      split; intros [= <-]; done. }
  destruct (isDroppingNode nid (persistent d)) as [found [e |]].
  { intros [= <- <-]. repeat split; by apply Hc. }
  destruct found; simpl; [| intros [= <- <-]; repeat split; by apply Hc].
  destruct (getNode d nid) as [node |];
    [| intros [= <- <-]; repeat split; by apply Hc].
  destruct (checkDisksInUse _ _);
    [intros [= <- <-]; repeat split; by apply Hc |].
  destruct (droppedNode _ _) as [[e |] p]; intros [= <- <-]; simpl.
  - repeat split; by apply Hc.
  - split; [done |]. split; [done |]. split; [done |].
    split; [intros k Hk; by rewrite lookup_insert_ne |].
    split; [done | by apply Hc].
Qed.

(** *** [validateAllocRet] *)

Lemma validateAllocRet_hosts_ok (all l : list DiskID) (sel : gset string) d :
  validateAllocRet_hosts all l sel d = None <->
  (forall id, id ∈ l -> is_Some (getDisk d id))
  /\ NoDup (hostsOf l d)
  /\ (forall h, h ∈ hostsOf l d -> h ∉ sel).
Proof.
  revert sel. induction l as [| id l IH]; intros sel; simpl.
  - split; [| done]. intros _. split; [| split].
    + intros id Hin. by apply elem_of_nil in Hin.
    + constructor.
    + intros h Hin. by apply elem_of_nil in Hin.
  - unfold hostsOf. simpl.
    destruct (getDisk d id) as [disk |] eqn:Hd; simpl.
    + case_bool_decide as Hin.
      * split; [done |]. intros (_ & _ & Hsel).
        exfalso. apply (Hsel (dHost (info disk))); [| done].
        apply list_elem_of_here.
      * rewrite IH. fold (hostsOf l d). split.
        -- intros (Hreg & Hnd & Hsel). split; [| split].
           ++ intros k [-> | Hk]%elem_of_cons; [by rewrite Hd | auto].
           ++ constructor; [| done]. intros Hh.
              apply (Hsel _ Hh), elem_of_union_l. by apply elem_of_singleton.
           ++ intros h [-> | Hh]%elem_of_cons; [done |].
              intros Hx. apply (Hsel _ Hh). by apply elem_of_union_r.
        -- intros (Hreg & Hnd & Hsel).
           apply NoDup_cons in Hnd as [Hnotin Hnd].
           split; [| split]; [| done |].
           ++ intros k Hk. apply Hreg. by apply list_elem_of_further.
           ++ intros h Hh. apply not_elem_of_union. split.
              ** intros ->%elem_of_singleton. done.
              ** apply Hsel. by apply list_elem_of_further.
    + split; [done |]. intros (Hreg & _).
      destruct (Hreg id (list_elem_of_here _ _)) as [x Hx]. congruence.
Qed.

Lemma validateAllocRet_disks_ok (all l : list DiskID) (sel : gset DiskID) :
  validateAllocRet_disks all l sel = None <->
  NoDup l /\ (forall id, id ∈ l -> id ∉ sel).
Proof.
  revert sel. induction l as [| id l IH]; intros sel; simpl.
  - split; [| done]. intros _. split; [constructor |].
    intros id Hin. by apply elem_of_nil in Hin.
  - case_bool_decide as Hin.
    + split; [done |]. intros (_ & Hsel).
      exfalso. by apply (Hsel id (list_elem_of_here _ _)).
    + rewrite IH. split.
      * intros (Hnd & Hsel). split.
        -- constructor; [| done]. intros Hh.
           apply (Hsel _ Hh), elem_of_union_l. by apply elem_of_singleton.
        -- intros k [-> | Hk]%elem_of_cons; [done |].
           intros Hx. apply (Hsel _ Hk). by apply elem_of_union_r.
      * intros (Hnd & Hsel). apply NoDup_cons in Hnd as [Hnotin Hnd].
        split; [done |]. intros k Hk. apply not_elem_of_union. split.
        -- intros ->%elem_of_singleton. done.
        -- apply Hsel. by apply list_elem_of_further.
Qed.

(** X18: [validateAllocRet] accepts a selection exactly when, in host-aware
    mode, every selected disk is registered and no two of them are on the same
    host and, otherwise, no disk id is selected twice. *)
Theorem validateAllocRet_ok d (l : list DiskID) :
  validateAllocRet l d = None <->
  if HostAware (cfg d)
  then (forall id, id ∈ l -> is_Some (getDisk d id)) /\ NoDup (hostsOf l d)
  else NoDup l.
Proof.
  unfold validateAllocRet. destruct (HostAware (cfg d)).
  - rewrite validateAllocRet_hosts_ok. split; [tauto |].
    intros [? ?]. split; [done |]. split; [done |].
    intros h _. apply not_elem_of_empty.
  - rewrite validateAllocRet_disks_ok. split; [tauto |].
    intros ?. split; [done |]. intros id _. apply not_elem_of_empty.
Qed.

(** *** Snapshots and sweeps *)

Lemma omap_lookup_pairs (m : gmap DiskID diskItem)
    (l : list (DiskID * diskItem)) :
  Forall (fun e => m !! e.1 = Some e.2) l ->
  omap (fun id => m !! id) l.*1 = l.*2.
Proof.
  induction 1 as [| [k v] l Hkv _ IH]; simpl; [done |].
  simpl in Hkv. rewrite Hkv. simpl. f_equal. exact IH.
Qed.

(** X19: [getAllDisk] returns every registered disk once: its result is a
    permutation of the values of the disk table. *)
Theorem getAllDisk_snapshot d :
  getAllDisk d ≡ₚ (map_to_list (allDisks d)).*2.
Proof.
  unfold getAllDisk.
  assert (rangeKeys (dom (allDisks d)) ≡ₚ (map_to_list (allDisks d)).*1)
    as ->.
  { rewrite (rangeKeys_perm _). apply NoDup_Permutation.
    - apply NoDup_elements.
    - apply NoDup_fst_map_to_list.
    - intros k. rewrite elem_of_elements, elem_of_dom, list_elem_of_fmap.
      split.
      + intros [v Hv]. exists (k, v). split; [done |].
        by apply elem_of_map_to_list.
      + intros ([k' v] & -> & Hin). apply elem_of_map_to_list in Hin.
        eauto. }
  rewrite omap_lookup_pairs; [done |].
  apply Forall_forall. intros [k v] Hin. by apply elem_of_map_to_list.
Qed.

Lemma getAllDisk_ids d :
  disksKeyed (allDisks d) -> NoDup (diskID <$> getAllDisk d).
Proof.
  intros Hk. unfold getAllDisk.
  pose proof (NoDup_rangeKeys (dom (allDisks d))) as Hnd.
  induction Hnd as [| k l Hk' Hnd IH]; simpl; [constructor |].
  destruct (allDisks d !! k) as [disk |] eqn:E; [| done].
  simpl. constructor; [| done].
  rewrite (Hk k disk E). intros Hin.
  apply list_elem_of_fmap in Hin as (dk & Hid & Hin).
  apply list_elem_of_omap in Hin as (k' & Hk2 & Hl).
  rewrite (Hk k' dk Hl) in Hid. by subst k'.
Qed.

Lemma sweep_ids (now : Z) (c : DiskMgrConfig) (l : list diskItem) :
  NoDup (diskID <$> l) ->
  NoDup (evDiskID <$> flat_map (heartbeatChange now c) l).
Proof.
  induction l as [| disk l IH]; simpl; [constructor |].
  intros [Hnotin Hnd]%NoDup_cons. rewrite fmap_app.
  apply NoDup_app. split; [| split]; [| | by apply IH].
  - unfold heartbeatChange.
    repeat match goal with |- context [if ?b then _ else _] => destruct b end;
      simpl; repeat constructor; by intros ?%elem_of_nil.
  - intros id Hin1 Hin2. apply Hnotin.
    apply list_elem_of_fmap in Hin1 as (ev & -> & Hev).
    rewrite (heartbeatChange_id _ _ _ _ Hev) in Hin2.
    apply list_elem_of_fmap in Hin2 as (ev2 & Hid & Hev2).
    apply list_elem_of_In, in_flat_map in Hev2 as (dk & Hdk & Hev2).
    apply list_elem_of_In in Hdk, Hev2.
    rewrite Hid, (heartbeatChange_id _ _ _ _ Hev2).
    apply list_elem_of_fmap. eauto.
Qed.

(** X20: in a manager whose disk table is keyed by the disks' own ids, a sweep
    of [GetHeartbeatChangeDisks] holds at most one event for a disk id, and
    every event is about a registered disk. *)
Theorem GetHeartbeatChangeDisks_one_event_per_disk (now : Z) d :
  disksKeyed (allDisks d) ->
  NoDup (evDiskID <$> GetHeartbeatChangeDisks now d)
  /\ forall ev,
       ev ∈ GetHeartbeatChangeDisks now d ->
       is_Some (getDisk d (evDiskID ev)).
Proof.
  intros Hk. split.
  - apply sweep_ids, getAllDisk_ids, Hk.
  - intros ev Hin. unfold GetHeartbeatChangeDisks in Hin.
    apply list_elem_of_In, in_flat_map in Hin as (disk & Hdisk & Hev).
    apply list_elem_of_In in Hdisk, Hev.
    apply elem_of_getAllDisk in Hdisk as (id & Hid).
    rewrite (heartbeatChange_id _ _ _ _ Hev), (Hk id disk Hid).
    unfold getDisk. eauto.
Qed.

(** X21: the recovery event. For a registered disk that is not both expired
    and filterable, the sweep of [GetHeartbeatChangeDisks] reports {disk,
    alive = true} exactly when the disk's expire time is more than one
    heartbeat interval after its last expire time. *)
Theorem GetHeartbeatChangeDisks_recovered (now : Z) d (id : DiskID) disk :
  disksKeyed (allDisks d) ->
  getDisk d id = Some disk ->
  0 <= HeartbeatExpireIntervalS (cfg d) <= 4611686018 ->
  isExpire now disk && needFilter disk = false ->
  mkHeartbeatEvent id true ∈ GetHeartbeatChangeDisks now d
  <-> time_Sub (expireTime disk) (lastExpireTime disk)
      > HeartbeatExpireIntervalS (cfg d) * Second.
Proof.
  intros Hk Hd HS Hne. unfold GetHeartbeatChangeDisks.
  rewrite list_elem_of_In, in_flat_map.
  assert (Hid : diskID disk = id) by (by apply Hk).
  assert (heartbeatChange now (cfg d) disk
          = if time_Sub (expireTime disk) (lastExpireTime disk)
               >? HeartbeatExpireIntervalS (cfg d) * Second
            then [mkHeartbeatEvent id true] else []) as Hc.
  { unfold heartbeatChange. rewrite Hne, expire_threshold by lia.
    rewrite Hid. by rewrite Z.mul_1_l. }
  split.
  - intros (disk' & Hin & Hev).
    apply list_elem_of_In in Hin, Hev.
    apply elem_of_getAllDisk in Hin as (id' & Hin).
    pose proof (heartbeatChange_id _ _ _ _ Hev) as Hid'. simpl in Hid'.
    rewrite (Hk _ _ Hin) in Hid'. subst id'.
    unfold getDisk in Hd. rewrite Hd in Hin. injection Hin as <-.
    rewrite Hc in Hev.
    destruct (Z.gtb_spec (time_Sub (expireTime disk) (lastExpireTime disk))
                (HeartbeatExpireIntervalS (cfg d) * Second));
      [lia | by apply elem_of_nil in Hev].
  - intros Hgt. exists disk. split.
    + apply list_elem_of_In, elem_of_getAllDisk. eauto.
    + apply list_elem_of_In. rewrite Hc.
      destruct (Z.gtb_spec (time_Sub (expireTime disk) (lastExpireTime disk))
                  (HeartbeatExpireIntervalS (cfg d) * Second));
        [apply list_elem_of_here | lia].
Qed.

Lemma time_Sub_self (t : Z) : time_Sub t t = 0.
Proof. unfold time_Sub. rewrite Z.sub_diag. reflexivity. Qed.

Lemma RefreshExpireTime_one_reading (now : Z) d :
  RefreshExpireTime now d = RefreshExpireTime_readings (fun _ => (now, now)) d.
Proof. reflexivity. Qed.

(** X22: after [RefreshExpireTime], a sweep of [GetHeartbeatChangeDisks] made
    no later than one heartbeat interval after the readings of the clock
    reports nothing, provided the two readings taken for a disk are at most
    one interval apart. *)
Theorem RefreshExpireTime_silences (clock : diskItem -> Z * Z) (now' : Z) d :
  0 <= HeartbeatExpireIntervalS (cfg d) <= 4611686018 ->
  (forall disk,
     (clock disk).2 - (clock disk).1
     <= HeartbeatExpireIntervalS (cfg d) * Second
     /\ now' <= (clock disk).2 + HeartbeatExpireIntervalS (cfg d) * Second) ->
  GetHeartbeatChangeDisks now' (RefreshExpireTime_readings clock d) = [].
Proof.
  intros HS Hclock. unfold GetHeartbeatChangeDisks.
  assert (Forall (fun disk => heartbeatChange now' (cfg d) disk = [])
                 (getAllDisk (RefreshExpireTime_readings clock d))) as Hall.
  { apply Forall_forall. intros disk Hin.
    apply elem_of_getAllDisk in Hin as (id & Hin).
    unfold RefreshExpireTime_readings in Hin. simpl in Hin.
    rewrite lookup_fmap in Hin.
    destruct (allDisks d !! id) as [di |]; [| done].
    injection Hin as <-.
    destruct (Hclock di) as [Hgap Hnow].
    unfold heartbeatChange, isExpire. simpl.
    rewrite !expire_threshold by lia.
    rewrite (wrap64_small (_ * Second))
      by (unfold Second, MinInt64, MaxInt64; lia).
    destruct (Z.ltb_spec
                ((clock di).2 + HeartbeatExpireIntervalS (cfg d) * Second)
                now'); [lia |].
    simpl andb. cbv iota.
    destruct (Z.gtb_spec
                (time_Sub
                   ((clock di).2 + HeartbeatExpireIntervalS (cfg d) * Second)
                   ((clock di).1 + HeartbeatExpireIntervalS (cfg d) * Second))
                (1 * HeartbeatExpireIntervalS (cfg d) * Second)) as [Hgt |];
      [| done].
    exfalso. unfold time_Sub in Hgt.
    repeat match type of Hgt with
           | context [if ?a <? ?b then _ else _] =>
             destruct (Z.ltb_spec a b)
           end; unfold Second, MinInt64, MaxInt64 in *; lia. }
  change (cfg (RefreshExpireTime_readings clock d)) with (cfg d).
  induction Hall as [| disk l Hd _ IH]; simpl; [done |].
  by rewrite Hd, IH.
Qed.

(** X23: after [RefreshExpireTime], [IsFrequentHeartBeat] asked at [now']
    about a registered disk answers true exactly when less than
    HeartbeatNotifyIntervalS seconds have passed since the reading of the
    clock from which the disk's expire time was set. *)
Theorem IsFrequentHeartBeat_after_refresh (clock : diskItem -> Z * Z)
    (now' : Z) d (id : DiskID) disk (notify : Z) :
  0 <= HeartbeatExpireIntervalS (cfg d) <= 4611686018 ->
  0 <= notify <= 4611686018 ->
  getDisk d id = Some disk ->
  MinInt64 <= now' - (clock disk).2 <= MaxInt64 ->
  IsFrequentHeartBeat now' id notify (RefreshExpireTime_readings clock d)
  = (bool_decide (now' - (clock disk).2 < notify * Second), None).
Proof.
  intros HS Hn Hd Hr.
  unfold IsFrequentHeartBeat, getDisk, RefreshExpireTime_readings in *.
  simpl. rewrite lookup_fmap, Hd. simpl.
  rewrite !wrap64_small by (unfold Second, MinInt64, MaxInt64; lia).
  unfold time_Sub.
  replace (now' + HeartbeatExpireIntervalS (cfg d) * Second
           - ((clock disk).2 + HeartbeatExpireIntervalS (cfg d) * Second))
    with (now' - (clock disk).2) by lia.
  destruct (Z.ltb_spec (now' - (clock disk).2) MinInt64); [lia |].
  destruct (Z.ltb_spec MaxInt64 (now' - (clock disk).2)); [lia |].
  destruct (Z.ltb_spec (now' - (clock disk).2) (notify * Second)).
  - by rewrite bool_decide_eq_true_2.
  - by rewrite bool_decide_eq_false_2 by lia.
Qed.

End MoreFacts.

(** * More on the writable space estimator *)

Lemma getMaxSuCount_loop_spec (pre modes : list Tactic) (idx : nat)
    (su : Z) :
  Forall (fun t => MinInt64 <= Tactic_N t + Tactic_M t <= MaxInt64
                   /\ MinInt64 <= Tactic_N t + Tactic_M t + Tactic_L t
                      <= MaxInt64) modes ->
  Forall (fun t => Tactic_N t + Tactic_M t + Tactic_L t <= su) pre ->
  (su = 0 /\ idx = 0%nat)
  \/ (0 < su
      /\ exists t, pre !! idx = Some t
                   /\ Tactic_N t + Tactic_M t + Tactic_L t = su) ->
  let '(idx', su') := getMaxSuCount_loop modes (length pre) idx su in
  Forall (fun t => Tactic_N t + Tactic_M t + Tactic_L t <= su')
         (pre ++ modes)
  /\ ((su' = 0 /\ idx' = 0%nat)
      \/ (0 < su'
          /\ exists t, (pre ++ modes) !! idx' = Some t
                       /\ Tactic_N t + Tactic_M t + Tactic_L t = su')).
Proof.
  intros Hr. revert pre idx su.
  induction Hr as [| t modes [Hr1 Hr2] _ IH]; intros pre idx su Hle Hinv;
    simpl.
  - rewrite app_nil_r. done.
  - rewrite (wrap64_small (Tactic_N t + Tactic_M t)) by done.
    rewrite (wrap64_small (Tactic_N t + Tactic_M t + Tactic_L t)) by done.
    specialize (IH (pre ++ [t])).
    rewrite length_app, Nat.add_1_r in IH. rewrite (cons_middle t pre modes).
    rewrite app_assoc.
    destruct (Z.gtb_spec (Tactic_N t + Tactic_M t + Tactic_L t) su).
    + apply IH.
      * apply Forall_app. split; [| by repeat constructor].
        eapply Forall_impl; [exact Hle |]. simpl. intros; lia.
      * right. split; [destruct Hinv as [[-> _] | [? _]]; lia |].
        exists t. split; [| done].
        rewrite lookup_app_r by done. by rewrite Nat.sub_diag.
    + apply IH.
      * apply Forall_app. split; [done |]. by repeat constructor.
      * destruct Hinv as [? | (Hpos & t' & Ht' & Hs)]; [by left |].
        right. split; [done |]. exists t'. split; [| done].
        apply lookup_app_l_Some. done.
Qed.

(** X24: [getMaxSuCount] returns a configured code mode and the greatest N + M
    + L over the configured modes, or 0 when none is positive; a positive
    count is that of the mode returned, and with a count of 0 the mode
    returned is the first. It fails (the index is out of range) only when no
    mode is configured. *)
Theorem getMaxSuCount_greatest (c : DiskMgrConfig) :
  Forall (fun t => MinInt64 <= Tactic_N t + Tactic_M t <= MaxInt64
                   /\ MinInt64 <= Tactic_N t + Tactic_M t + Tactic_L t
                      <= MaxInt64) (CodeModes c) ->
  match getMaxSuCount c with
  | None => CodeModes c = []
  | Some (t, su) =>
    t ∈ CodeModes c
    /\ 0 <= su
    /\ Forall (fun t' => Tactic_N t' + Tactic_M t' + Tactic_L t' <= su)
              (CodeModes c)
    /\ (0 < su -> Tactic_N t + Tactic_M t + Tactic_L t = su)
    /\ (su = 0 -> CodeModes c !! 0%nat = Some t)
  end.
Proof.
  intros Hr. unfold getMaxSuCount.
  pose proof (getMaxSuCount_loop_spec [] (CodeModes c) 0 0 Hr
                (Forall_nil_2 _) (or_introl (conj eq_refl eq_refl))) as H.
  simpl in H.
  destruct (getMaxSuCount_loop (CodeModes c) 0 0 0) as [idx su].
  destruct H as [Hle Hinv].
  destruct Hinv as [[-> ->] | (Hpos & t & Ht & Hs)].
  - destruct (CodeModes c) as [| t l] eqn:E; simpl; [done |].
    split; [apply list_elem_of_here |]. split; [lia |].
    split; [done |]. split; [lia | done].
  - rewrite Ht. split; [by eapply list_elem_of_lookup_2 |].
    split; [lia |]. split; [done |]. split; [done | lia].
Qed.

Lemma spec_rounds_tens (bound k : nat) (tokens : list Z) :
  exists q, 0 <= q /\ spec_rounds bound k tokens = 10 * q.
Proof.
  revert tokens. induction bound as [| b IH]; intros tokens; simpl.
  - exists 0. lia.
  - destruct (_ <? _)%nat; [exists 0; lia |].
    destruct (IH (spec_round k tokens)) as (q & Hq & ->).
    exists (1 + q). lia.
Qed.

Lemma spec_stripe_count_zero (k : nat) (tokens : list Z) :
  spec_stripe_count k tokens = 0 <-> (length tokens < k)%nat.
Proof.
  unfold spec_stripe_count. simpl.
  destruct (Nat.ltb_spec (length tokens) k); [tauto |].
  pose proof (spec_rounds_nonneg (Z.to_nat (sumZ tokens)) k
                (spec_round k tokens)).
  split; lia.
Qed.

Lemma spec_tokens_length (itemSize : Z) (stgs : list nodeAllocator) :
  0 < itemSize ->
  length (spec_tokens itemSize stgs)
  = length (filter (fun v => itemSize <= naFree v) stgs).
Proof.
  intros Hi. unfold spec_tokens.
  induction stgs as [| v stgs IH]; simpl; [done |].
  rewrite !filter_cons.
  assert (0 < Z.quot (naFree v) itemSize <-> itemSize <= naFree v) as Hq.
  { destruct (Z.le_gt_cases 0 (naFree v)) as [Hpos | Hneg].
    - pose proof (Z.quot_rem' (naFree v) itemSize).
      pose proof (Z.rem_bound_pos (naFree v) itemSize Hpos Hi).
      pose proof (Z.quot_pos (naFree v) itemSize Hpos Hi). nia.
    - pose proof (quot_nonneg_le (- naFree v) itemSize ltac:(lia) Hi) as H.
      rewrite Z.quot_opp_l in H by lia. lia. }
  repeat case_decide; simpl; try tauto; by rewrite IH.
Qed.

(** X25: the stripe count of one IDC is a multiple of ten, and it is zero
    exactly when fewer nodes than a stripe needs units in the IDC have room
    for one item. *)
Theorem calIDCWritableFunc_zero (fuel k : nat) (itemSize : Z)
    (stgs : list nodeAllocator) :
  (0 < k)%nat ->
  0 < itemSize ->
  Forall (fun v => MinInt64 <= naFree v <= MaxInt64) stgs ->
  spec_idc_count k itemSize stgs <= MaxInt64 ->
  (Z.to_nat (sumZ (spec_tokens itemSize stgs)) < fuel)%nat ->
  exists q,
    0 <= q
    /\ calIDCWritableFunc fuel (Z.of_nat k) itemSize stgs = Finished (10 * q)
    /\ (q = 0
        <-> (length (filter (fun v => (itemSize <= naFree v)%Z) stgs)
             < k)%nat).
Proof.
  intros Hk Hi Hr Hmax Hf.
  rewrite calIDCWritableFunc_spec by done.
  unfold spec_idc_count.
  destruct (spec_rounds_tens (S (Z.to_nat (sumZ (spec_tokens itemSize stgs))))
              k (spec_tokens itemSize stgs)) as (q & Hq & E).
  exists q. split; [done |]. split; [by rewrite <- E |].
  rewrite <- spec_tokens_length by done.
  rewrite <- spec_stripe_count_zero. unfold spec_stripe_count. lia.
Qed.

Lemma minimumOver_first (f : list nodeAllocator -> fueled Z)
    (idcs : list (string * list nodeAllocator)) (minimum : Z) :
  idcs <> [] ->
  Forall (fun e => f e.2 = OutOfFuel) idcs ->
  minimumOver f idcs minimum = OutOfFuel.
Proof.
  intros Hne H. destruct H as [| [idc stgs] l Hf _]; [done |].
  simpl in *. by rewrite Hf.
Qed.

(** With no unit of a stripe to an IDC the heap loop never ends. *)
Lemma calculateWritable_spins (c : DiskMgrConfig)
    (nodeStgs : gmap string (list nodeAllocator)) (codeMode : Tactic)
    (suCount : Z) :
  HostAware c = true ->
  getMaxSuCount c = Some (codeMode, suCount) ->
  IDC c <> [] ->
  Z.quot suCount (Z.of_nat (length (IDC c))) = 0 ->
  itemSizeOf c <> 0 ->
  nodeStgs <> ∅ ->
  forall fuel : nat, calculateWritable fuel c nodeStgs = OutOfFuel.
Proof.
  intros Hh Hm Hidc Hk Hi Hne fuel.
  unfold calculateWritable. rewrite Hm, Hh, Hk.
  destruct (Z.eqb_spec (Z.of_nat (length (IDC c))) 0) as [H0 | _].
  { destruct (IDC c); [done | simpl in H0; lia]. }
  assert (0 < size nodeStgs)%nat as Hsz.
  { destruct (decide (size nodeStgs = 0%nat)) as [E | E]; [| lia].
    by apply map_size_empty_iff in E. }
  destruct (Z.ltb_spec 0 (Z.of_nat (size nodeStgs))); [| lia].
  simpl andb. cbv iota.
  rewrite minimumOver_first; [done | |].
  - intros E. by apply map_to_list_empty_iff in E.
  - apply Forall_forall. intros [idc stgs] _. simpl.
    unfold calIDCWritableFunc. simpl.
    assert (exists lefts, loadTokens (itemSizeOf c) stgs = Some lefts)
      as [lefts ->].
    { clear -Hi. induction stgs as [| v stgs [l IH]]; simpl; [eauto |].
      destruct (Z.eqb_spec (itemSizeOf c) 0); [done |].
      rewrite IH. eauto. }
    apply calIDCWritable_loop_zero.
Qed.

Lemma idcChunkNum_sum (itemSize : Z) (stgs : list nodeAllocator) (acc : Z) :
  0 < itemSize ->
  Forall (fun v => 0 <= naFree v <= MaxInt64) stgs ->
  0 <= acc ->
  acc + sumZ (map (fun v => Z.quot (naFree v) itemSize) stgs) <= MaxInt64 ->
  idcChunkNum itemSize stgs acc
  = Finished (acc + sumZ (map (fun v => Z.quot (naFree v) itemSize) stgs)).
Proof.
  intros Hi H. revert acc.
  induction H as [| v stgs Hv Hall IH]; intros acc Hacc Hmax; simpl in *.
  - f_equal. lia.
  - destruct (Z.eqb_spec itemSize 0); [lia |].
    pose proof (quot_nonneg_le (naFree v) itemSize ltac:(lia) Hi) as Hq.
    assert (0 <= sumZ (map (fun v => Z.quot (naFree v) itemSize) stgs))
      as Hs.
    { clear -Hall Hi. induction Hall as [| w l Hw _ IH]; simpl; [lia |].
      pose proof (quot_nonneg_le (naFree w) itemSize ltac:(lia) Hi). lia. }
    rewrite (wrap64_small (Z.quot _ _))
      by (unfold MinInt64, MaxInt64 in *; lia).
    rewrite wrap64_small by (unfold MinInt64, MaxInt64 in *; lia).
    rewrite IH by lia. f_equal. lia.
Qed.

(** X26: outside host-aware mode [calculateWritable] returns (least / k) * N *
    itemSize, where k is the number of units of a stripe per IDC and least is
    the smallest, over the IDCs of the node map, of the sums of free /
    itemSize over the nodes of the IDC. *)
Theorem calculateWritable_not_host_aware (c : DiskMgrConfig)
    (nodeStgs : gmap string (list nodeAllocator)) (codeMode : Tactic)
    (suCount k : Z) :
  let items stgs :=
    sumZ (map (fun v => Z.quot (naFree v) (itemSizeOf c)) stgs) in
  let least :=
    spec_minimum (map (fun e => items e.2) (map_to_list nodeStgs)) in
  HostAware c = false ->
  getMaxSuCount c = Some (codeMode, suCount) ->
  IDC c <> [] ->
  Z.quot suCount (Z.of_nat (length (IDC c))) = k ->
  0 < k ->
  0 < itemSizeOf c ->
  nodeStgs <> ∅ ->
  map_Forall (fun _ stgs =>
                Forall (fun v => 0 <= naFree v <= MaxInt64) stgs
                /\ items stgs <= MaxInt64) nodeStgs ->
  0 <= Tactic_N codeMode ->
  Z.quot least k * Tactic_N codeMode * itemSizeOf c <= MaxInt64 ->
  forall fuel : nat,
    calculateWritable fuel c nodeStgs
    = Finished (Z.quot least k * Tactic_N codeMode * itemSizeOf c).
Proof.
  intros items least Hh Hm Hidc Hk Hk0 Hi Hne Hall HN Hmax fuel.
  unfold calculateWritable. rewrite Hm, Hh, Hk.
  destruct (Z.eqb_spec (Z.of_nat (length (IDC c))) 0) as [H0 | _].
  { destruct (IDC c); [done | simpl in H0; lia]. }
  assert (0 < size nodeStgs)%nat as Hsz.
  { destruct (decide (size nodeStgs = 0%nat)) as [E | E]; [| lia].
    by apply map_size_empty_iff in E. }
  destruct (Z.ltb_spec 0 (Z.of_nat (size nodeStgs))); [| lia].
  simpl andb. cbv iota.
  rewrite (minimumOver_spec _ items).
  - fold least.
    pose proof (spec_minimum_le (map (fun e => items e.2)
                                     (map_to_list nodeStgs))) as Hle.
    fold least in Hle. rewrite Z.min_r by done.
    assert (0 <= least) as Hnn.
    { apply spec_minimum_nonneg, Forall_map, Forall_forall.
      intros [idc stgs] Hin. simpl. apply elem_of_map_to_list in Hin.
      destruct (Hall idc stgs Hin) as [Hr _]. unfold items.
      clear -Hr Hi. induction Hr as [| w l Hw _ IH]; simpl; [lia |].
      pose proof (quot_nonneg_le (naFree w) (itemSizeOf c) ltac:(lia) Hi).
      lia. }
    destruct (Z.eqb_spec k 0); [lia |].
    pose proof (quot_nonneg_le least k Hnn Hk0) as Hq.
    f_equal.
    rewrite (wrap64_small (Z.quot least k))
      by (unfold MinInt64, MaxInt64 in *; lia).
    rewrite (wrap64_small (_ * Tactic_N codeMode))
      by (unfold MinInt64, MaxInt64 in *; nia).
    apply wrap64_small. unfold MinInt64, MaxInt64 in *. nia.
  - apply Forall_forall. intros [idc stgs] Hin. simpl.
    apply elem_of_map_to_list in Hin.
    destruct (Hall idc stgs Hin) as [Hr Hc].
    rewrite idcChunkNum_sum; [done | done | done | lia |]. exact Hc.
  - done.
Qed.

(** *** The estimator returns *)

Lemma wrap64_range (z : Z) : MinInt64 <= wrap64 z <= MaxInt64.
Proof.
  unfold wrap64, MinInt64, MaxInt64.
  pose proof (Z.mod_pos_bound (z + 2 ^ 63) (2 ^ 64) ltac:(lia)). lia.
Qed.

Lemma sumZ_token_nonneg (l : list Z) : Forall token l -> 0 <= sumZ l.
Proof. induction 1 as [| x l [Hx _] _ IH]; simpl; lia. Qed.

(** Every round takes at least one unit off the tokens, so that the loop
    over the heap ends within as many rounds as there are units, whatever
    the count does. *)
Lemma calIDCWritable_loop_finishes (fuel k : nat) (lefts : maxHeap) (n : Z) :
  (0 < k)%nat ->
  Forall token lefts ->
  (Z.to_nat (sumZ lefts) < fuel)%nat ->
  exists m, calIDCWritable_loop fuel (Z.of_nat k) lefts n = Finished m.
Proof.
  intros Hk. revert lefts n.
  induction fuel as [| fuel IH]; intros lefts n Ht Hf; [lia |].
  simpl.
  destruct (Z.ltb_spec (Z.of_nat (length lefts)) (Z.of_nat k)); [eauto |].
  rewrite Nat2Z.id, popStripe_take by lia.
  pose proof Ht as Hs. rewrite <- (take_drop k lefts) in Hs.
  apply Forall_app in Hs as [Hstripe Hrest].
  pose proof (pushBack_perm (take k lefts) (drop k lefts) Hstripe) as Hperm.
  assert (Forall token (pushBack (take k lefts) (drop k lefts))) as Ht'.
  { apply (token_perm _ _ (Permutation_sym Hperm)).
    apply Forall_app. split; [done |]. by apply remainders_token. }
  apply IH; [done |].
  pose proof (sumZ_token_nonneg _ Ht') as Hnn.
  rewrite (sumZ_perm _ _ Hperm), sumZ_app in Hnn |- *.
  pose proof (sumZ_remainders (take k lefts) Hstripe) as Hrem.
  rewrite length_take in Hrem.
  assert (sumZ lefts = sumZ (take k lefts) + sumZ (drop k lefts)) as Hsum
    by (by rewrite <- sumZ_app, take_drop).
  lia.
Qed.

Lemma loadTokens_tokens (itemSize : Z) (stgs : list nodeAllocator) :
  itemSize <> 0 ->
  exists lefts, loadTokens itemSize stgs = Some lefts /\ Forall token lefts.
Proof.
  intros Hi. induction stgs as [| v stgs (lefts & IH & Ht)]; simpl.
  { exists []. split; [done | constructor]. }
  destruct (Z.eqb_spec itemSize 0); [done |]. rewrite IH.
  eexists. split; [reflexivity |].
  destruct (Z.gtb_spec (wrap64 (Z.quot (naFree v) itemSize)) 0); [| done].
  constructor; [| done].
  pose proof (wrap64_range (Z.quot (naFree v) itemSize)). unfold token. lia.
Qed.

Lemma calIDCWritableFunc_finishes (k : nat) (itemSize : Z)
    (stgs : list nodeAllocator) :
  (0 < k)%nat -> itemSize <> 0 ->
  exists fuel0 : nat,
    forall fuel : nat,
      (fuel0 <= fuel)%nat ->
      exists m,
        calIDCWritableFunc fuel (Z.of_nat k) itemSize stgs = Finished m.
Proof.
  intros Hk Hi. unfold calIDCWritableFunc.
  destruct (Z.ltb_spec (Z.of_nat k) 0); [lia |].
  destruct (loadTokens_tokens itemSize stgs Hi) as (lefts & -> & Ht).
  exists (S (Z.to_nat (sumZ (heap_Init lefts)))). intros fuel Hf.
  apply calIDCWritable_loop_finishes; [done | | lia].
  by rewrite heap_Init_perm.
Qed.

Lemma idcChunkNum_finishes (itemSize : Z) (stgs : list nodeAllocator)
    (acc : Z) :
  itemSize <> 0 -> exists m, idcChunkNum itemSize stgs acc = Finished m.
Proof.
  intros Hi. revert acc. induction stgs as [| v stgs IH]; intros acc; simpl.
  - eauto.
  - destruct (Z.eqb_spec itemSize 0); [done |]. apply IH.
Qed.

Lemma minimumOver_finishes (f : nat -> list nodeAllocator -> fueled Z)
    (idcs : list (string * list nodeAllocator)) :
  (forall stgs,
     exists fuel0 : nat,
       forall fuel, (fuel0 <= fuel)%nat -> exists m, f fuel stgs = Finished m) ->
  exists fuel0 : nat,
    forall fuel minimum,
      (fuel0 <= fuel)%nat ->
      exists m, minimumOver (f fuel) idcs minimum = Finished m.
Proof.
  intros Hf. induction idcs as [| [idc stgs] idcs [fuel1 IH]].
  { exists O. intros fuel minimum _. simpl. eauto. }
  destruct (Hf stgs) as [fuel2 H2].
  exists (Nat.max fuel1 fuel2). intros fuel minimum Hfuel. simpl.
  destruct (H2 fuel ltac:(lia)) as [m ->].
  apply IH. lia.
Qed.

(** [calculateWritable] returns, given a code mode, at least one unit of a
    stripe to an IDC, an item size that is not 0 and rounds enough. *)
Lemma calculateWritable_finishes (c : DiskMgrConfig)
    (nodes : gmap string (list nodeAllocator)) (codeMode : Tactic)
    (suCount : Z) :
  getMaxSuCount c = Some (codeMode, suCount) ->
  0 < Z.quot suCount (Z.of_nat (length (IDC c))) ->
  itemSizeOf c <> 0 ->
  exists fuel0 : nat,
    forall fuel : nat,
      (fuel0 <= fuel)%nat ->
      exists writable, calculateWritable fuel c nodes = Finished writable.
Proof.
  intros Hm Hk Hi. unfold calculateWritable. rewrite Hm.
  destruct (Z.eqb_spec (Z.of_nat (length (IDC c))) 0) as [H0 | _].
  { rewrite H0, Z.quot_0_r_ext in Hk by done. lia. }
  set (idcSuCount := Z.quot suCount (Z.of_nat (length (IDC c)))) in *.
  assert (idcSuCount = Z.of_nat (Z.to_nat idcSuCount)) as Hnat
    by (rewrite Z2Nat.id; lia).
  destruct (minimumOver_finishes
              (fun fuel => calIDCWritableFunc fuel idcSuCount (itemSizeOf c))
              (map_to_list nodes)) as [fuel0 Hmin].
  { intros stgs. rewrite Hnat.
    apply calIDCWritableFunc_finishes; [lia | done]. }
  exists fuel0. intros fuel Hfuel.
  destruct (HostAware c && (0 <? Z.of_nat (size nodes))).
  - destruct (Hmin fuel MaxInt64 Hfuel) as [m ->]. eauto.
  - destruct (0 <? Z.of_nat (size nodes)); [| eauto].
    destruct (minimumOver_finishes
                (fun _ stgs => idcChunkNum (itemSizeOf c) stgs 0)
                (map_to_list nodes)) as [fuel1 Hsum].
    { intros stgs. exists O. intros _ _.
      by apply idcChunkNum_finishes. }
    destruct (Hsum (Nat.max fuel fuel1) MaxInt64 ltac:(lia)) as [m ->].
    destruct (Z.eqb_spec idcSuCount 0); [lia | eauto].
Qed.

(** * Properties of the storage of the allocator *)

Lemma wrap64_add_l (a b : Z) : wrap64 (wrap64 a + b) = wrap64 (a + b).
Proof.
  unfold wrap64.
  replace ((a + 2 ^ 63) mod 2 ^ 64 - 2 ^ 63 + b + 2 ^ 63)
    with ((a + 2 ^ 63) mod 2 ^ 64 + b) by lia.
  rewrite Zplus_mod_idemp_l. f_equal. f_equal. lia.
Qed.

Section StorageFacts.

Context {P T : Type}.

Implicit Types (d : @manager P T) (disk : diskItem) (c : carried).

Lemma readHeartbeat_carry disk (idc : string) c
    (stats : gmap string DiskStatInfo) :
  (readHeartbeat disk idc c stats).1 = carry c disk.
Proof.
  unfold readHeartbeat, carry. by destruct (extraInfo disk) as [[] |].
Qed.

Lemma readDisk_spec (now : Z) d disk c (space : SpaceStatInfo)
    (stats : gmap string DiskStatInfo) :
  (readDisk now d disk c space stats).1.1.1 = carry c disk
  /\ ((readDisk now d disk c space stats).2 = None
      <-> allocatable now disk = true).
Proof.
  unfold readDisk, allocatable.
  destruct (diskLocality d disk) as [[idc rack] host].
  pose proof (readHeartbeat_carry disk idc c
                (match stats !! idc with
                 | Some _ => stats
                 | None =>
                   <[idc := mkDiskStatInfo idc 0 0 0 0 0 0 0 0 0 0 0 0 0 0]>
                     stats
                 end)) as Hc.
  destruct (readHeartbeat _ _ _ _) as [c' stats']. simpl in Hc. subst c'.
  destruct (dStatus (info disk) =? DiskStatusNormal)%N; simpl; [| done].
  destruct (dReadonly (info disk)); simpl; [done |].
  destruct (isExpire now disk); simpl; done.
Qed.

Lemma generateDiskSetStorage_disk_maps (now : Z) d (p : pass) disk :
  locals (generateDiskSetStorage_disk now d p disk) = carry (locals p) disk
  /\ maps (generateDiskSetStorage_disk now d p disk)
     = if allocatable now disk
       then
         let '(idc, rack, host) := diskLocality d disk in
         buildAllocators idc (idc +:+ "-" +:+ rack) host
           (carry (locals p) disk) disk (maps p)
       else maps p.
Proof.
  unfold generateDiskSetStorage_disk.
  destruct (readDisk_spec now d disk (locals p) (spaceStatInfo p)
              (diskStatInfosM p)) as [Hc Herr].
  destruct (diskLocality d disk) as [[idc rack] host].
  destruct (readDisk _ _ _ _ _ _) as [[[c' space'] stats'] err].
  simpl in Hc, Herr. subst c'.
  destruct err as [e |].
  - destruct (allocatable now disk); [| done].
    destruct Herr as [_ H]. by specialize (H eq_refl).
  - destruct Herr as [H _]. by rewrite (H eq_refl).
Qed.

Lemma generateDiskSetStorage_loop_snoc (now : Z) d (l : list diskItem) disk
    (space : SpaceStatInfo) (stats : gmap string DiskStatInfo) :
  generateDiskSetStorage_loop now d (l ++ [disk]) space stats
  = generateDiskSetStorage_disk now d
      (generateDiskSetStorage_loop now d l space stats) disk.
Proof. unfold generateDiskSetStorage_loop. by rewrite foldl_snoc. Qed.

Lemma generateDiskSetStorage_loop_locals (now : Z) d (l : list diskItem)
    (space : SpaceStatInfo) (stats : gmap string DiskStatInfo) :
  locals (generateDiskSetStorage_loop now d l space stats)
  = foldl carry (mkCarried 0 0 0 0) l.
Proof.
  induction l as [| disk l IH] using rev_ind; [done |].
  rewrite generateDiskSetStorage_loop_snoc, foldl_snoc.
  destruct (generateDiskSetStorage_disk_maps now d
              (generateDiskSetStorage_loop now d l space stats) disk)
    as [-> _].
  by rewrite IH.
Qed.

Lemma withCarried_snoc c (l : list diskItem) disk :
  withCarried c (l ++ [disk])
  = withCarried c l ++ [(disk, carry (foldl carry c l) disk)].
Proof.
  revert c. induction l as [| x l IH]; intros c; simpl; [done |].
  by rewrite IH.
Qed.

Lemma filed_snoc (now : Z) (l : list diskItem) disk :
  filed now (l ++ [disk])
  = filed now l
    ++ (if allocatable now disk
        then [(disk, carry (foldl carry (mkCarried 0 0 0 0) l) disk)]
        else []).
Proof.
  unfold filed. rewrite withCarried_snoc, filter_app. f_equal.
  rewrite filter_cons. simpl.
  destruct (allocatable now disk); by case_decide.
Qed.

Lemma filedUnderHost_snoc (now : Z) d (host : string) (l : list diskItem)
    disk :
  filedUnderHost now d host (l ++ [disk])
  = filedUnderHost now d host l
    ++ (if allocatable now disk
        then if decide ((diskLocality d disk).2 = host)
             then [(disk, carry (foldl carry (mkCarried 0 0 0 0) l) disk)]
             else []
        else []).
Proof.
  unfold filedUnderHost. rewrite filed_snoc, filter_app. f_equal.
  destruct (allocatable now disk); [| done].
  rewrite filter_cons. simpl. by case_decide.
Qed.

Lemma filedUnderIdc_snoc (now : Z) d (idc : string) (l : list diskItem)
    disk :
  filedUnderIdc now d idc (l ++ [disk])
  = filedUnderIdc now d idc l
    ++ (if allocatable now disk
        then if decide ((diskLocality d disk).1.1 = idc)
             then [(disk, carry (foldl carry (mkCarried 0 0 0 0) l) disk)]
             else []
        else []).
Proof.
  unfold filedUnderIdc. rewrite filed_snoc, filter_app. f_equal.
  destruct (allocatable now disk); [| done].
  rewrite filter_cons. simpl. by case_decide.
Qed.

Lemma nodeStgs_buildAllocators (idc rack host : string) c disk
    (s : storages) :
  nodeStgs (buildAllocators idc rack host c disk s)
  = alter (fun n =>
             mkNodeAllocator (naHost n) (naDisks n ++ [diskID disk])
               (wrap64 (naWeight n + cDiskFreeItem c))
               (wrap64 (naFree n + cFree c))) host
      (match nodeStgs s !! host with
       | None => <[host := mkNodeAllocator host [] 0 0]> (nodeStgs s)
       | Some _ => nodeStgs s
       end).
Proof.
  unfold buildAllocators.
  destruct (idcNodeStgs s !! idc), (rackNodeStgs s !! rack),
    (nodeStgs s !! host); reflexivity.
Qed.

Lemma nodeAllocatorOf_snoc (host : string)
    (entries : list (diskItem * carried)) disk c :
  nodeAllocatorOf host (entries ++ [(disk, c)])
  = mkNodeAllocator host
      (naDisks (nodeAllocatorOf host entries) ++ [diskID disk])
      (wrap64 (naWeight (nodeAllocatorOf host entries) + cDiskFreeItem c))
      (wrap64 (naFree (nodeAllocatorOf host entries) + cFree c)).
Proof.
  unfold nodeAllocatorOf. simpl. rewrite !fmap_app, !sumZ_app. simpl.
  rewrite !wrap64_add_l, !Z.add_0_r. reflexivity.
Qed.

(** The allocator of a host, after any number of disks. *)
Lemma generateDiskSetStorage_loop_nodeStgs (now : Z) d (l : list diskItem)
    (space : SpaceStatInfo) (stats : gmap string DiskStatInfo)
    (host : string) :
  nodeStgs (maps (generateDiskSetStorage_loop now d l space stats)) !! host
  = match filedUnderHost now d host l with
    | [] => None
    | e :: entries => Some (nodeAllocatorOf host (e :: entries))
    end.
Proof.
  induction l as [| disk l IH] using rev_ind; [done |].
  rewrite generateDiskSetStorage_loop_snoc, filedUnderHost_snoc.
  destruct (generateDiskSetStorage_disk_maps now d
              (generateDiskSetStorage_loop now d l space stats) disk)
    as [_ ->].
  rewrite generateDiskSetStorage_loop_locals.
  destruct (allocatable now disk); [| by rewrite app_nil_r].
  destruct (diskLocality d disk) as [[idc rack] h] eqn:Hloc. simpl.
  rewrite nodeStgs_buildAllocators.
  set (s := maps (generateDiskSetStorage_loop now d l space stats)) in *.
  set (c := carry (foldl carry (mkCarried 0 0 0 0) l) disk).
  destruct (decide (h = host)) as [-> | Hne].
  - rewrite lookup_alter_eq.
    destruct (filedUnderHost now d host l) as [| e entries] eqn:He;
      rewrite IH.
    + rewrite lookup_insert_eq. simpl. unfold nodeAllocatorOf. simpl.
      by rewrite !Z.add_0_r, !Z.add_0_l.
    + simpl. change (e :: entries ++ [(disk, c)])
        with ((e :: entries) ++ [(disk, c)]).
      rewrite IH. by rewrite nodeAllocatorOf_snoc.
  - rewrite lookup_alter_ne by done. rewrite app_nil_r, <- IH.
    destruct (nodeStgs s !! h); [done |]. by rewrite lookup_insert_ne.
Qed.

Lemma elem_of_deref (nodes : gmap string nodeAllocator) (ptrs : list string)
    (na : nodeAllocator) :
  na ∈ deref nodes ptrs <-> exists host, host ∈ ptrs /\ nodes !! host = Some na.
Proof. unfold deref. apply list_elem_of_omap. Qed.

Lemma idcAllocators_fold (c : DiskMgrConfig) (s : storages)
    (l : list string) (ret : gmap string idcAllocator) (freeChunk : Z)
    (idc : string) :
  (foldl (fun '(ret, freeChunk) idc =>
            (<[idc := mkIdcAllocator idc (default 0 (idcFreeItems s !! idc))
                        (RackAware c) (HostAware c) (finishRacks s !! idc)
                        (deref (nodeStgs s)
                           (default [] (idcNodeStgs s !! idc)))]> ret,
             wrap64 (freeChunk + default 0 (idcFreeItems s !! idc))))
         (ret, freeChunk) l).1 !! idc
  = if decide (idc ∈ l)
    then Some (mkIdcAllocator idc (default 0 (idcFreeItems s !! idc))
                 (RackAware c) (HostAware c) (finishRacks s !! idc)
                 (deref (nodeStgs s) (default [] (idcNodeStgs s !! idc))))
    else ret !! idc.
Proof.
  revert ret freeChunk. induction l as [| x l IH]; intros ret freeChunk.
  { cbn [foldl fst].
    destruct (decide (idc ∈ [])) as [Hin | _]; [| done].
    by apply elem_of_nil in Hin. }
  cbn [foldl]. rewrite IH.
  destruct (decide (idc ∈ l)) as [Hin | Hin],
    (decide (idc ∈ x :: l)) as [Hin' | Hin']; [done | | |].
  - exfalso. apply Hin'. by apply list_elem_of_further.
  - apply elem_of_cons in Hin' as [-> | ?]; [| done].
    by rewrite lookup_insert_eq.
  - rewrite lookup_insert_ne; [done |].
    intros ->. apply Hin', list_elem_of_here.
Qed.

Lemma idcAllocators_lookup (c : DiskMgrConfig) (s : storages) (idc : string) :
  (idcAllocators c s).1 !! idc
  = if decide (idc ∈ IDC c)
    then Some (mkIdcAllocator idc (default 0 (idcFreeItems s !! idc))
                 (RackAware c) (HostAware c) (finishRacks s !! idc)
                 (deref (nodeStgs s) (default [] (idcNodeStgs s !! idc))))
    else None.
Proof. unfold idcAllocators. by rewrite idcAllocators_fold. Qed.

Lemma finishRacks_lookup (s : storages) (idc rack : string)
    (racks : gmap string rackAllocator) (ra : rackAllocator) :
  finishRacks s !! idc = Some racks -> racks !! rack = Some ra ->
  raNodeStorages ra
  = deref (nodeStgs s) (default [] (rackNodeStgs s !! rack)).
Proof.
  unfold finishRacks. rewrite lookup_fmap.
  destruct (idcRackStgs s !! idc) as [rackStgs |]; [| done].
  simpl. intros [= <-]. rewrite map_lookup_imap.
  destruct (rackStgs !! rack) as [r |]; [| done].
  simpl. by intros [= <-].
Qed.

(** What [generateDiskSetStorage] returns when it returns a map. *)
Lemma generateDiskSetStorage_returns (fuel : nat) (now : Z)
    (disks : list diskItem) (space : SpaceStatInfo)
    (stats : gmap string DiskStatInfo) d
    (ret : gmap string idcAllocator) (freeChunk : Z)
    (space' : SpaceStatInfo) (stats' : gmap string DiskStatInfo) :
  generateDiskSetStorage fuel now disks space stats d
  = Finished (Some ret, freeChunk, space', stats') ->
  let s := maps (generateDiskSetStorage_loop now d disks space stats) in
  (0 < size (idcRackStgs s))%nat
  /\ ret = (idcAllocators (cfg d) s).1
  /\ freeChunk = (idcAllocators (cfg d) s).2.
Proof.
  intros H. unfold generateDiskSetStorage in H. cbv zeta in *.
  set (s := maps (generateDiskSetStorage_loop now d disks space stats)) in *.
  destruct (Nat.ltb_spec 0 (size (idcRackStgs s))); [| done].
  destruct (idcAllocators (cfg d) s) as [ret0 freeChunk0].
  destruct (calculateWritable _ _ _); [| done | done].
  by injection H as <- <- _ _.
Qed.

Lemma idcNodeStgs_buildAllocators (idc rack host : string) c disk
    (s : storages) :
  idcNodeStgs (buildAllocators idc rack host c disk s)
  = <[idc := default [] (idcNodeStgs s !! idc)
             ++ match nodeStgs s !! host with
                | None => [host]
                | Some _ => []
                end]> (idcNodeStgs s).
Proof.
  unfold buildAllocators.
  destruct (idcNodeStgs s !! idc) as [hosts |] eqn:Hi,
    (rackNodeStgs s !! rack), (nodeStgs s !! host); simpl;
    rewrite ?lookup_insert_eq, ?Hi, ?app_nil_r, ?insert_insert_eq; simpl;
    try reflexivity; by rewrite insert_id.
Qed.

Lemma idcFreeItems_buildAllocators (idc rack host : string) c disk
    (s : storages) :
  idcFreeItems (buildAllocators idc rack host c disk s)
  = <[idc := wrap64 (match idcNodeStgs s !! idc with
                     | None => 0
                     | Some _ => default 0 (idcFreeItems s !! idc)
                     end + cDiskFreeItem c)]> (idcFreeItems s).
Proof.
  unfold buildAllocators.
  destruct (idcNodeStgs s !! idc) as [hosts |] eqn:Hi,
    (rackNodeStgs s !! rack), (nodeStgs s !! host); simpl;
    rewrite ?lookup_insert_eq, ?insert_insert_eq; reflexivity.
Qed.

Lemma idcRackStgs_buildAllocators (idc rack host : string) c disk
    (s : storages) (i : string) :
  is_Some (idcRackStgs (buildAllocators idc rack host c disk s) !! i)
  <-> i = idc \/ is_Some (idcRackStgs s !! i).
Proof.
  assert (idcRackStgs (buildAllocators idc rack host c disk s)
          = alter (fun racks =>
                     match racks !! rack with
                     | None => <[rack := mkRackAllocator rack 0 []]> racks
                     | Some _ => racks
                     end) idc
              (match idcRackStgs s !! idc with
               | None => <[idc := ∅]> (idcRackStgs s)
               | Some _ => idcRackStgs s
               end)) as ->.
  { unfold buildAllocators.
    by destruct (idcNodeStgs s !! idc), (rackNodeStgs s !! rack),
         (nodeStgs s !! host). }
  destruct (decide (i = idc)) as [-> | Hne].
  - rewrite lookup_alter_eq. split; [auto |]. intros _.
    destruct (idcRackStgs s !! idc) as [racks |] eqn:Hi.
    + rewrite Hi. simpl. eauto.
    + rewrite lookup_insert_eq. simpl. eauto.
  - rewrite lookup_alter_ne by done.
    destruct (idcRackStgs s !! idc); [| rewrite lookup_insert_ne by done];
      (split; [auto | by intros [? | ?]]).
Qed.

(** The IDCs with an entry, and their free items, after any number of
    disks. *)
Lemma generateDiskSetStorage_loop_idcs (now : Z) d (l : list diskItem)
    (space : SpaceStatInfo) (stats : gmap string DiskStatInfo)
    (idc : string) :
  let s := maps (generateDiskSetStorage_loop now d l space stats) in
  (is_Some (idcNodeStgs s !! idc) <-> filedUnderIdc now d idc l <> [])
  /\ (is_Some (idcRackStgs s !! idc) <-> filedUnderIdc now d idc l <> [])
  /\ idcFreeItems s !! idc
     = match filedUnderIdc now d idc l with
       | [] => None
       | e :: entries =>
         Some (wrap64 (sumZ ((cDiskFreeItem ∘ snd) <$> e :: entries)))
       end.
Proof.
  induction l as [| disk l IH] using rev_ind.
  { simpl. unfold generateDiskSetStorage_loop. simpl.
    rewrite !lookup_empty. split; [| split]; [| | done];
      (split; [by intros [? ?] | done]). }
  cbv zeta in *.
  rewrite generateDiskSetStorage_loop_snoc, filedUnderIdc_snoc.
  destruct (generateDiskSetStorage_disk_maps now d
              (generateDiskSetStorage_loop now d l space stats) disk)
    as [_ ->].
  rewrite generateDiskSetStorage_loop_locals.
  destruct (allocatable now disk); [| by rewrite app_nil_r].
  destruct (diskLocality d disk) as [[idc' rack] h] eqn:Hloc. simpl.
  set (s := maps (generateDiskSetStorage_loop now d l space stats)) in *.
  set (c := carry (foldl carry (mkCarried 0 0 0 0) l) disk).
  destruct IH as (IH1 & IH2 & IH3).
  rewrite idcNodeStgs_buildAllocators, idcRackStgs_buildAllocators,
    idcFreeItems_buildAllocators.
  destruct (decide (idc' = idc)) as [-> | Hne].
  - rewrite !lookup_insert_eq.
    split; [| split].
    + split; [| eauto]. intros _ E. by apply app_eq_nil in E as [_ ?].
    + split; [| auto]. intros _ E. by apply app_eq_nil in E as [_ ?].
    + destruct (filedUnderIdc now d idc l) as [| e entries] eqn:He.
      * destruct (idcNodeStgs s !! idc) as [hosts |] eqn:Hi.
        { exfalso. by apply IH1. }
        simpl. by rewrite Z.add_0_l, Z.add_0_r.
      * destruct (idcNodeStgs s !! idc) as [hosts |] eqn:Hi.
        2: { exfalso. destruct IH1 as [_ IH1].
             destruct IH1 as [? ?]; done. }
        rewrite IH3. unfold default, from_option, id.
        transitivity
          (Some (wrap64 (sumZ ((cDiskFreeItem ∘ snd)
                                 <$> (e :: entries) ++ [(disk, c)]))));
          [| done].
        rewrite fmap_app, sumZ_app, wrap64_add_l.
        do 3 f_equal. simpl. lia.
  - rewrite !lookup_insert_ne by done. rewrite app_nil_r.
    split; [done |]. split; [| done].
    rewrite <- IH2. split; [by intros [? | ?] | auto].
Qed.

Lemma filter_fst (Q : diskItem -> Prop) `{!forall x, Decision (Q x)}
    (entries : list (diskItem * carried)) :
  (filter (fun e => Q e.1) entries).*1 = filter Q entries.*1.
Proof.
  induction entries as [| e entries IH]; [done |].
  rewrite fmap_cons, !filter_cons. destruct (decide (Q e.1)); [| done].
  rewrite fmap_cons. by f_equal.
Qed.

Lemma withCarried_disks c (l : list diskItem) : (withCarried c l).*1 = l.
Proof.
  revert c. induction l as [| x l IH]; intros c; simpl; [done |].
  by rewrite IH.
Qed.

Lemma elem_of_filedUnderHost (now : Z) d (host : string)
    (l : list diskItem) disk :
  disk ∈ (filedUnderHost now d host l).*1
  <-> disk ∈ l /\ allocatable now disk = true
      /\ (diskLocality d disk).2 = host.
Proof.
  unfold filedUnderHost, filed.
  pose proof (filter_fst (fun x => (diskLocality d x).2 = host)
                (filter (fun e => allocatable now e.1 = true)
                        (withCarried (mkCarried 0 0 0 0) l))) as H1.
  pose proof (filter_fst (fun x => allocatable now x = true)
                (withCarried (mkCarried 0 0 0 0) l)) as H2.
  cbv beta in H1, H2.
  rewrite H1, H2, withCarried_disks, !list_elem_of_filter. tauto.
Qed.

Lemma elem_of_filedUnderIdc (now : Z) d (idc : string)
    (l : list diskItem) disk :
  disk ∈ (filedUnderIdc now d idc l).*1
  <-> disk ∈ l /\ allocatable now disk = true
      /\ (diskLocality d disk).1.1 = idc.
Proof.
  unfold filedUnderIdc, filed.
  pose proof (filter_fst (fun x => (diskLocality d x).1.1 = idc)
                (filter (fun e => allocatable now e.1 = true)
                        (withCarried (mkCarried 0 0 0 0) l))) as H1.
  pose proof (filter_fst (fun x => allocatable now x = true)
                (withCarried (mkCarried 0 0 0 0) l)) as H2.
  cbv beta in H1, H2.
  rewrite H1, H2, withCarried_disks, !list_elem_of_filter. tauto.
Qed.

Lemma generateDiskSetStorage_loop_known (now : Z) d (l : list diskItem)
    (space : SpaceStatInfo) (stats : gmap string DiskStatInfo)
    (host : string) :
  is_Some (nodeStgs (maps (generateDiskSetStorage_loop now d l space stats))
           !! host)
  <-> exists y, y ∈ l /\ allocatable now y = true
                /\ (diskLocality d y).2 = host.
Proof.
  rewrite generateDiskSetStorage_loop_nodeStgs. split.
  - intros Hsome.
    destruct (filedUnderHost now d host l) as [| e entries] eqn:He;
      [by destruct Hsome |].
    exists e.1. apply elem_of_filedUnderHost. rewrite He.
    apply list_elem_of_here.
  - intros (y & Hy).
    apply elem_of_filedUnderHost in Hy.
    destruct (filedUnderHost now d host l) as [| e entries]; [| eauto].
    by apply elem_of_nil in Hy.
Qed.

(** The hosts filed under an IDC, when no host is in two IDCs. *)
Lemma generateDiskSetStorage_loop_hosts (now : Z) d (l : list diskItem)
    (space : SpaceStatInfo) (stats : gmap string DiskStatInfo) :
  (forall a b,
     a ∈ l -> b ∈ l -> allocatable now a = true -> allocatable now b = true ->
     (diskLocality d a).2 = (diskLocality d b).2 ->
     (diskLocality d a).1.1 = (diskLocality d b).1.1) ->
  forall idc : string,
    NoDup (default [] (idcNodeStgs
                         (maps (generateDiskSetStorage_loop now d l space
                                  stats)) !! idc))
    /\ forall host,
         host ∈ default [] (idcNodeStgs
                              (maps (generateDiskSetStorage_loop now d l space
                                       stats)) !! idc)
         <-> exists disk,
               disk ∈ l /\ allocatable now disk = true
               /\ (diskLocality d disk).1.1 = idc
               /\ (diskLocality d disk).2 = host.
Proof.
  induction l as [| x l IH] using rev_ind; intros Hcons idc.
  { unfold generateDiskSetStorage_loop. simpl. rewrite lookup_empty. simpl.
    split; [constructor |]. intros host. split.
    - by intros ?%elem_of_nil.
    - by intros (disk & ?%elem_of_nil & _). }
  assert (forall a b,
            a ∈ l -> b ∈ l -> allocatable now a = true ->
            allocatable now b = true ->
            (diskLocality d a).2 = (diskLocality d b).2 ->
            (diskLocality d a).1.1 = (diskLocality d b).1.1) as Hcons'.
  { intros a b Ha Hb. apply Hcons; apply elem_of_app; by left. }
  specialize (IH Hcons').
  rewrite generateDiskSetStorage_loop_snoc.
  destruct (generateDiskSetStorage_disk_maps now d
              (generateDiskSetStorage_loop now d l space stats) x)
    as [_ ->].
  rewrite generateDiskSetStorage_loop_locals.
  pose proof (generateDiskSetStorage_loop_known now d l space stats)
    as Hknown.
  set (s := maps (generateDiskSetStorage_loop now d l space stats)) in *.
  destruct (allocatable now x) eqn:Hx.
  2: { destruct (IH idc) as [Hnd Hin]. split; [done |].
       intros host. rewrite Hin. split.
       - intros (disk & Hd & Hrest). exists disk.
         split; [apply elem_of_app; by left | done].
       - intros (disk & [Hd | ->%list_elem_of_singleton]%elem_of_app & Ha
                 & Hrest); [eauto | congruence]. }
  destruct (diskLocality d x) as [[idc' rack] h] eqn:Hloc. simpl.
  rewrite idcNodeStgs_buildAllocators.
  destruct (decide (idc' = idc)) as [-> | Hne].
  2: { rewrite lookup_insert_ne by done.
       destruct (IH idc) as [Hnd Hin]. split; [done |].
       intros host. rewrite Hin. split.
       - intros (disk & Hd & Hrest). exists disk.
         split; [apply elem_of_app; by left | done].
       - intros (disk & [Hd | ->%list_elem_of_singleton]%elem_of_app & Ha
                 & Hi & Hh); [eauto |].
         rewrite Hloc in Hi. simpl in Hi. done. }
  rewrite lookup_insert_eq. simpl.
  destruct (IH idc) as [Hnd Hin].
  assert (forall host,
            (host ∈ default [] (idcNodeStgs s !! idc) \/ host = h)
            <-> exists disk,
                  disk ∈ l ++ [x] /\ allocatable now disk = true
                  /\ (diskLocality d disk).1.1 = idc
                  /\ (diskLocality d disk).2 = host) as Hin'.
  { intros host. rewrite Hin. split.
    - intros [(disk & Hd & Hrest) | ->].
      + exists disk. split; [apply elem_of_app; by left | done].
      + exists x. rewrite Hloc. split; [| done].
        apply elem_of_app. right. apply list_elem_of_here.
    - intros (disk & [Hd | ->%list_elem_of_singleton]%elem_of_app & Ha
              & Hi & Hh); [left; eauto |].
      rewrite Hloc in Hh. simpl in Hh. by right. }
  destruct (nodeStgs s !! h) as [na |] eqn:Hn.
  - rewrite app_nil_r. split; [done |].
    intros host. rewrite <- Hin'. split; [by left |].
    intros [? | ->]; [done |].
    destruct (proj1 (Hknown h)) as (y & Hy & Hay & Hhy); [by rewrite Hn |].
    apply Hin. exists y. split; [done |]. split; [done |]. split; [| done].
    assert ((diskLocality d y).1.1 = (diskLocality d x).1.1) as ->.
    { apply Hcons.
      - apply elem_of_app. by left.
      - apply elem_of_app. right. apply list_elem_of_here.
      - done.
      - done.
      - by rewrite Hloc. }
    by rewrite Hloc.
  - split.
    + apply NoDup_app. split; [done |]. split; [| apply NoDup_singleton].
      intros host Hhost ->%list_elem_of_singleton.
      apply Hin in Hhost as (y & Hy & Hay & _ & Hhy).
      assert (is_Some (nodeStgs s !! h)) as [? ?]
        by (apply Hknown; eauto).
      congruence.
    + intros host. rewrite <- Hin', elem_of_app, list_elem_of_singleton.
      done.
Qed.


Lemma readDisk_space (now : Z) d disk c (space : SpaceStatInfo)
    (stats : gmap string DiskStatInfo) :
  TotalDisk (readDisk now d disk c space stats).1.1.2
  = wrap64 (TotalDisk space + 1)
  /\ WritableSpace (readDisk now d disk c space stats).1.1.2
     = WritableSpace space.
Proof.
  unfold readDisk.
  destruct (diskLocality d disk) as [[idc rack] host].
  destruct (readHeartbeat _ _ _ _) as [c' stats'].
  destruct (negb _); [done |].
  destruct (dReadonly (info disk)); [done |].
  by destruct (isExpire now disk).
Qed.

Lemma generateDiskSetStorage_disk_space (now : Z) d (p : pass) disk :
  spaceStatInfo (generateDiskSetStorage_disk now d p disk)
  = (readDisk now d disk (locals p) (spaceStatInfo p)
       (diskStatInfosM p)).1.1.2.
Proof.
  unfold generateDiskSetStorage_disk.
  destruct (diskLocality d disk) as [[idc rack] host].
  by destruct (readDisk _ _ _ _ _ _) as [[[c' space'] stats'] [e |]].
Qed.

Lemma generateDiskSetStorage_loop_space (now : Z) d (l : list diskItem)
    (space : SpaceStatInfo) (stats : gmap string DiskStatInfo) :
  MinInt64 <= TotalDisk space <= MaxInt64 ->
  TotalDisk (spaceStatInfo (generateDiskSetStorage_loop now d l space stats))
  = wrap64 (TotalDisk space + Z.of_nat (length l))
  /\ WritableSpace
       (spaceStatInfo (generateDiskSetStorage_loop now d l space stats))
     = WritableSpace space.
Proof.
  intros Hr. induction l as [| disk l [IH1 IH2]] using rev_ind.
  { unfold generateDiskSetStorage_loop. simpl.
    by rewrite Z.add_0_r, wrap64_small. }
  rewrite generateDiskSetStorage_loop_snoc,
    generateDiskSetStorage_disk_space.
  destruct (readDisk_space now d disk
              (locals (generateDiskSetStorage_loop now d l space stats))
              (spaceStatInfo (generateDiskSetStorage_loop now d l space stats))
              (diskStatInfosM
                 (generateDiskSetStorage_loop now d l space stats)))
    as [-> ->].
  rewrite IH1, IH2, wrap64_add_l, length_app. simpl.
  split; [| done]. f_equal. lia.
Qed.

Lemma generateDiskSetStorage_loop_size (now : Z) d (l : list diskItem)
    (space : SpaceStatInfo) (stats : gmap string DiskStatInfo) :
  (0 < size (idcRackStgs
               (maps (generateDiskSetStorage_loop now d l space stats))))%nat
  <-> exists disk, disk ∈ l /\ allocatable now disk = true.
Proof.
  set (s := maps (generateDiskSetStorage_loop now d l space stats)).
  assert ((0 < size (idcRackStgs s))%nat
          <-> exists idc, is_Some (idcRackStgs s !! idc)) as ->.
  { rewrite <- map_size_ne_0_lookup. lia. }
  split.
  - intros [idc Hsome].
    apply (generateDiskSetStorage_loop_idcs now d l space stats idc)
      in Hsome.
    destruct (filedUnderIdc now d idc l) as [| e entries] eqn:He; [done |].
    assert (e.1 ∈ (filedUnderIdc now d idc l).*1) as Hin
      by (rewrite He; apply list_elem_of_here).
    apply elem_of_filedUnderIdc in Hin as (Hd & Ha & _). eauto.
  - intros (disk & Hd & Ha). exists (diskLocality d disk).1.1.
    apply (generateDiskSetStorage_loop_idcs now d l space stats).
    assert (disk ∈ (filedUnderIdc now d (diskLocality d disk).1.1 l).*1)
      as Hin by by apply elem_of_filedUnderIdc.
    intros E. rewrite E in Hin. by apply elem_of_nil in Hin.
Qed.

Lemma idcNodeStgs_not_empty (now : Z) d (l : list diskItem)
    (space : SpaceStatInfo) (stats : gmap string DiskStatInfo) disk :
  disk ∈ l -> allocatable now disk = true ->
  let s := maps (generateDiskSetStorage_loop now d l space stats) in
  deref (nodeStgs s) <$> idcNodeStgs s <> ∅.
Proof.
  intros Hd Ha s E.
  assert (is_Some (idcNodeStgs s !! (diskLocality d disk).1.1))
    as [hosts Hhosts].
  { apply (generateDiskSetStorage_loop_idcs now d l space stats).
    assert (disk ∈ (filedUnderIdc now d (diskLocality d disk).1.1 l).*1)
      as Hin by by apply elem_of_filedUnderIdc.
    intros E'. rewrite E' in Hin. by apply elem_of_nil in Hin. }
  apply (f_equal (fun m => m !! (diskLocality d disk).1.1)) in E.
  rewrite lookup_fmap, Hhosts, lookup_empty in E. done.
Qed.

(** With rounds enough the pass returns a map as soon as one disk is
    allocatable, given a code mode, at least one unit of a stripe to an IDC
    and an item size that is not 0: the map and the count of free chunks
    are those of [idcAllocators], whatever the rounds. *)
Lemma generateDiskSetStorage_produces (now : Z) (disks : list diskItem)
    (space : SpaceStatInfo) (stats : gmap string DiskStatInfo) d
    (codeMode : Tactic) (suCount : Z) :
  getMaxSuCount (cfg d) = Some (codeMode, suCount) ->
  0 < Z.quot suCount (Z.of_nat (length (IDC (cfg d)))) ->
  itemSizeOf (cfg d) <> 0 ->
  (exists disk, disk ∈ disks /\ allocatable now disk = true) ->
  exists fuel0 : nat,
    forall fuel : nat,
      (fuel0 <= fuel)%nat ->
      exists space' stats',
        generateDiskSetStorage fuel now disks space stats d
        = Finished
            (Some (idcAllocators (cfg d)
                     (maps (generateDiskSetStorage_loop now d disks space
                              stats))).1,
             (idcAllocators (cfg d)
                (maps (generateDiskSetStorage_loop now d disks space
                         stats))).2,
             space', stats').
Proof.
  intros Hm Hk Hi Hsome.
  apply (proj2 (generateDiskSetStorage_loop_size now d disks space stats))
    in Hsome.
  set (p := generateDiskSetStorage_loop now d disks space stats) in *.
  destruct (calculateWritable_finishes (cfg d)
              (deref (nodeStgs (maps p)) <$> idcNodeStgs (maps p))
              codeMode suCount Hm Hk Hi) as [fuel0 Hfin].
  exists fuel0. intros fuel Hfuel.
  unfold generateDiskSetStorage. cbv zeta. fold p.
  destruct (Nat.ltb_spec 0 (size (idcRackStgs (maps p)))); [| lia].
  destruct (idcAllocators (cfg d) (maps p)) as [ret freeChunk].
  destruct (Hfin fuel Hfuel) as [writable ->]. eauto.
Qed.

(** X27: the node allocators that [generateDiskSetStorage] hands out. Given a
    code mode, at least one unit of a stripe to an IDC, an item size that is
    not 0 and one allocatable disk, the pass returns a map, the same for every
    bound on the rounds from some bound on. And whenever the pass returns a
    map, every node allocator of the map, reached through an IDC or through a
    rack, holds exactly the disks of the pass that are Normal, writable and
    not expired and are filed under its host, in the order of the pass, and
    there is at least one such disk. Its weight is the sum of their counts of
    free items and its free space the sum of their free bytes, as int64 sums.
    The count of a disk is the FreeChunkCnt or the FreeShardCnt of its
    heartbeat payload, never the oversold count; a disk without payload counts
    with the figures of the disk read before it. *)
Theorem generateDiskSetStorage_node_allocators (now : Z)
    (disks : list diskItem) (space : SpaceStatInfo)
    (stats : gmap string DiskStatInfo) d (codeMode : Tactic) (suCount : Z) :
  getMaxSuCount (cfg d) = Some (codeMode, suCount) ->
  0 < Z.quot suCount (Z.of_nat (length (IDC (cfg d)))) ->
  itemSizeOf (cfg d) <> 0 ->
  (exists disk, disk ∈ disks /\ allocatable now disk = true) ->
  (exists (fuel0 : nat) (ret : gmap string idcAllocator) (freeChunk : Z),
     forall fuel : nat,
       (fuel0 <= fuel)%nat ->
       exists space' stats',
         generateDiskSetStorage fuel now disks space stats d
         = Finished (Some ret, freeChunk, space', stats'))
  /\ forall (fuel : nat) (ret : gmap string idcAllocator) (freeChunk : Z)
       (space' : SpaceStatInfo) (stats' : gmap string DiskStatInfo),
       generateDiskSetStorage fuel now disks space stats d
       = Finished (Some ret, freeChunk, space', stats') ->
       forall (idc : string) (ia : idcAllocator) (na : nodeAllocator),
         ret !! idc = Some ia ->
         na ∈ iaNodeStorages ia
         \/ (exists racks rack ra,
               iaRackStorages ia = Some racks /\ racks !! rack = Some ra
               /\ na ∈ raNodeStorages ra) ->
         filedUnderHost now d (naHost na) disks <> []
         /\ na = nodeAllocatorOf (naHost na)
                   (filedUnderHost now d (naHost na) disks).
Proof.
  intros Hm Hk Hi Hsome. split.
  { destruct (generateDiskSetStorage_produces now disks space stats d
                codeMode suCount Hm Hk Hi Hsome) as [fuel0 Hrun].
    exists fuel0. eexists. eexists. exact Hrun. }
  intros fuel ret freeChunk space' stats' Hrun idc ia na Hia Hna.
  apply generateDiskSetStorage_returns in Hrun as (_ & -> & _).
  set (s := maps (generateDiskSetStorage_loop now d disks space stats)) in *.
  assert (exists host, nodeStgs s !! host = Some na) as [host Hhost].
  { rewrite idcAllocators_lookup in Hia.
    destruct (decide (idc ∈ IDC (cfg d))); [| done].
    injection Hia as <-. simpl in Hna.
    destruct Hna as [Hna | (racks & rack & ra & Hracks & Hra & Hna)].
    - apply elem_of_deref in Hna as (host & _ & Hhost). eauto.
    - rewrite (finishRacks_lookup s idc rack racks ra Hracks Hra) in Hna.
      apply elem_of_deref in Hna as (host & _ & Hhost). eauto. }
  unfold s in Hhost. rewrite generateDiskSetStorage_loop_nodeStgs in Hhost.
  destruct (filedUnderHost now d host disks) as [| e entries] eqn:He;
    [done |].
  injection Hhost as <-. simpl. by rewrite He.
Qed.

Lemma deref_hosts (nodes : gmap string nodeAllocator) (hosts : list string) :
  (forall host, host ∈ hosts ->
                exists na, nodes !! host = Some na /\ naHost na = host) ->
  naHost <$> deref nodes hosts = hosts.
Proof.
  unfold deref. induction hosts as [| h hosts IH]; intros Hall; [done |].
  destruct (Hall h (list_elem_of_here _ _)) as (na & Hna & Hh).
  simpl. rewrite Hna. simpl. rewrite Hh. f_equal. apply IH.
  intros host Hin. apply Hall. by apply list_elem_of_further.
Qed.

(** X28: the map that [generateDiskSetStorage] returns, when no host has
    allocatable disks in two IDCs. Given a code mode, at least one unit of a
    stripe to an IDC, an item size that is not 0 and one allocatable disk, the
    pass returns a map, the same for every bound on the rounds from some bound
    on. And whenever the pass returns a map, the map has an entry for the
    configured IDCs and for no other; the weight of an entry is the int64 sum
    of the counts of free items of the allocatable disks of the IDC; its node
    allocators have distinct hosts; and every allocatable disk of the IDC is
    among the disks of the node allocator of its host. *)
Theorem generateDiskSetStorage_idc_allocators (now : Z)
    (disks : list diskItem) (space : SpaceStatInfo)
    (stats : gmap string DiskStatInfo) d (codeMode : Tactic) (suCount : Z) :
  getMaxSuCount (cfg d) = Some (codeMode, suCount) ->
  0 < Z.quot suCount (Z.of_nat (length (IDC (cfg d)))) ->
  itemSizeOf (cfg d) <> 0 ->
  (exists disk, disk ∈ disks /\ allocatable now disk = true) ->
  (forall a b,
     a ∈ disks -> b ∈ disks ->
     allocatable now a = true -> allocatable now b = true ->
     (diskLocality d a).2 = (diskLocality d b).2 ->
     (diskLocality d a).1.1 = (diskLocality d b).1.1) ->
  (exists (fuel0 : nat) (ret : gmap string idcAllocator) (freeChunk : Z),
     forall fuel : nat,
       (fuel0 <= fuel)%nat ->
       exists space' stats',
         generateDiskSetStorage fuel now disks space stats d
         = Finished (Some ret, freeChunk, space', stats'))
  /\ forall (fuel : nat) (ret : gmap string idcAllocator) (freeChunk : Z)
       (space' : SpaceStatInfo) (stats' : gmap string DiskStatInfo),
       generateDiskSetStorage fuel now disks space stats d
       = Finished (Some ret, freeChunk, space', stats') ->
       forall idc : string,
         (idc ∉ IDC (cfg d) -> ret !! idc = None)
         /\ (idc ∈ IDC (cfg d) ->
             exists ia,
               ret !! idc = Some ia
               /\ iaWeight ia
                  = wrap64 (sumZ ((cDiskFreeItem ∘ snd)
                                    <$> filedUnderIdc now d idc disks))
               /\ NoDup (naHost <$> iaNodeStorages ia)
               /\ forall disk,
                    disk ∈ disks -> allocatable now disk = true ->
                    (diskLocality d disk).1.1 = idc ->
                    exists na,
                      na ∈ iaNodeStorages ia
                      /\ naHost na = (diskLocality d disk).2
                      /\ diskID disk ∈ naDisks na).
Proof.
  intros Hm Hk Hi Hsome Hcons. split.
  { destruct (generateDiskSetStorage_produces now disks space stats d
                codeMode suCount Hm Hk Hi Hsome) as [fuel0 Hrun].
    exists fuel0. eexists. eexists. exact Hrun. }
  intros fuel ret freeChunk space' stats' Hrun idc.
  apply generateDiskSetStorage_returns in Hrun as (_ & -> & _).
  rewrite idcAllocators_lookup.
  destruct (generateDiskSetStorage_loop_hosts now d disks space stats Hcons
              idc) as [Hnd Hin].
  destruct (generateDiskSetStorage_loop_idcs now d disks space stats idc)
    as (_ & _ & Hfree).
  pose proof (generateDiskSetStorage_loop_nodeStgs now d disks space stats)
    as Hnodes.
  pose proof (generateDiskSetStorage_loop_known now d disks space stats)
    as Hknown.
  set (s := maps (generateDiskSetStorage_loop now d disks space stats)) in *.
  split; [intros Hout; by rewrite decide_False |].
  intros Hidc. rewrite decide_True by done.
  eexists. split; [reflexivity |]. simpl.
  assert (naHost <$> deref (nodeStgs s) (default [] (idcNodeStgs s !! idc))
          = default [] (idcNodeStgs s !! idc)) as Hhosts.
  { apply deref_hosts. intros host Hhost.
    apply Hin in Hhost as (disk & Hd & Ha & _ & Hh).
    assert (is_Some (nodeStgs s !! host)) as [na Hna]
      by (apply Hknown; eauto).
    exists na. split; [done |].
    rewrite Hnodes in Hna.
    destruct (filedUnderHost now d host disks); [done |].
    by injection Hna as <-. }
  split; [| split].
  - rewrite Hfree.
    by destruct (filedUnderIdc now d idc disks).
  - by rewrite Hhosts.
  - intros disk Hd Ha Hi'.
    assert ((diskLocality d disk).2 ∈ default [] (idcNodeStgs s !! idc))
      as Hhost by (apply Hin; eauto).
    assert (disk ∈ (filedUnderHost now d (diskLocality d disk).2 disks).*1)
      as Hfiled by by apply elem_of_filedUnderHost.
    pose proof (Hnodes (diskLocality d disk).2) as Hna.
    destruct (filedUnderHost now d (diskLocality d disk).2 disks)
      as [| e entries] eqn:He; [by apply elem_of_nil in Hfiled |].
    exists (nodeAllocatorOf (diskLocality d disk).2 (e :: entries)).
    split; [| split].
    + apply elem_of_deref. eauto.
    + done.
    + unfold nodeAllocatorOf. cbn [naDisks].
      rewrite list_fmap_compose. by apply list_elem_of_fmap_2.
Qed.

(** X29: [generateDiskSetStorage] returns the nil map exactly when no disk of
    the pass is allocatable. It then returns 0 free chunks whatever the
    configuration, having counted every disk in TotalDisk and left
    WritableSpace as it was: [calculateWritable] is not called. *)
Theorem generateDiskSetStorage_nothing_to_allocate (fuel : nat) (now : Z)
    (disks : list diskItem) (space : SpaceStatInfo)
    (stats : gmap string DiskStatInfo) d :
  MinInt64 <= TotalDisk space <= MaxInt64 ->
  ((forall disk, disk ∈ disks -> allocatable now disk = false) ->
   exists space' stats',
     generateDiskSetStorage fuel now disks space stats d
     = Finished (None, 0, space', stats')
     /\ TotalDisk space' = wrap64 (TotalDisk space + Z.of_nat (length disks))
     /\ WritableSpace space' = WritableSpace space)
  /\ (forall freeChunk space' stats',
        generateDiskSetStorage fuel now disks space stats d
        = Finished (None, freeChunk, space', stats') ->
        forall disk, disk ∈ disks -> allocatable now disk = false).
Proof.
  intros Hr.
  pose proof (generateDiskSetStorage_loop_size now d disks space stats)
    as Hsize.
  destruct (generateDiskSetStorage_loop_space now d disks space stats Hr)
    as [Htotal Hwritable].
  unfold generateDiskSetStorage. cbv zeta.
  set (p := generateDiskSetStorage_loop now d disks space stats) in *.
  split.
  - intros Hnone.
    destruct (Nat.ltb_spec 0 (size (idcRackStgs (maps p)))) as [Hpos | _].
    { apply Hsize in Hpos as (disk & Hd & Ha).
      rewrite (Hnone disk Hd) in Ha. done. }
    eexists. eexists. split; [reflexivity |]. done.
  - intros freeChunk space' stats' Hrun disk Hd.
    destruct (Nat.ltb_spec 0 (size (idcRackStgs (maps p)))) as [Hpos | Hz].
    { destruct (idcAllocators (cfg d) (maps p)) as [ret0 freeChunk0].
      by destruct (calculateWritable _ _ _). }
    destruct (allocatable now disk) eqn:Ha; [| done].
    exfalso. assert (0 < size (idcRackStgs (maps p)))%nat; [| lia].
    apply Hsize. eauto.
Qed.

(** X30: in host-aware mode, when the widest code mode has fewer units than
    there are IDCs, the units of a stripe per IDC round down to 0 and the loop
    over the heap never ends. [calculateWritable] then returns for no bound on
    the iterations as soon as its map has an entry, and so does
    [generateDiskSetStorage] as soon as one disk of the pass is allocatable.
    *)
Theorem calculateWritable_hangs (now : Z) (disks : list diskItem)
    (space : SpaceStatInfo) (stats : gmap string DiskStatInfo) d
    (codeMode : Tactic) (suCount : Z) :
  HostAware (cfg d) = true ->
  getMaxSuCount (cfg d) = Some (codeMode, suCount) ->
  IDC (cfg d) <> [] ->
  Z.quot suCount (Z.of_nat (length (IDC (cfg d)))) = 0 ->
  itemSizeOf (cfg d) <> 0 ->
  (forall (nodes : gmap string (list nodeAllocator)) (fuel : nat),
     nodes <> ∅ -> calculateWritable fuel (cfg d) nodes = OutOfFuel)
  /\ (forall (disk : diskItem) (fuel : nat),
        disk ∈ disks -> allocatable now disk = true ->
        generateDiskSetStorage fuel now disks space stats d = OutOfFuel).
Proof.
  intros Hh Hm Hidc Hk Hi. split.
  - intros nodes fuel Hne.
    by apply (calculateWritable_spins (cfg d) nodes codeMode suCount).
  - intros disk fuel Hd Ha.
    unfold generateDiskSetStorage. cbv zeta.
    set (p := generateDiskSetStorage_loop now d disks space stats).
    destruct (Nat.ltb_spec 0 (size (idcRackStgs (maps p)))) as [_ | Hz].
    2: { exfalso. assert (0 < size (idcRackStgs (maps p)))%nat; [| lia].
         apply generateDiskSetStorage_loop_size. eauto. }
    destruct (idcAllocators (cfg d) (maps p)) as [ret0 freeChunk0].
    rewrite (calculateWritable_spins (cfg d) _ codeMode suCount);
      [done | done | done | done | done | done |].
    by apply (idcNodeStgs_not_empty now d disks space stats disk).
Qed.


End StorageFacts.

(** * The further properties on the sample states *)

Lemma SetStatus_precheck_pure_witness :
  exists r d',
    SetStatus 10%N DiskStatusRepairing false sampleManager = Returns r d'
    /\ d' = sampleManager.
Proof.
  assert (exists r d', SetStatus 10%N DiskStatusRepairing false sampleManager
                       = Returns r d') as (r & d' & Hrun)
    by (eexists; eexists; vm_compute; reflexivity).
  exists r, d'. split; [exact Hrun |].
  exact (SetStatus_precheck_pure sampleManager 10%N DiskStatusRepairing r d'
           Hrun).
Defined.

Lemma SetStatus_commit_replay_witness :
  exists d',
    SetStatus 10%N DiskStatusBroken true sampleManager = Returns None d'
    /\ SetStatus 10%N DiskStatusBroken true d' = Returns None d'.
Proof.
  assert (exists d', SetStatus 10%N DiskStatusBroken true sampleManager
                     = Returns None d') as [d' Hrun]
    by (eexists; vm_compute; reflexivity).
  exists d'. split; [exact Hrun |].
  exact (SetStatus_commit_replay sampleManager 10%N DiskStatusBroken d' Hrun).
Defined.

Lemma SetStatus_frame_witness :
  exists d',
    SetStatus 10%N DiskStatusBroken true sampleManager = Returns None d'
    /\ allNodes d' = allNodes sampleManager
    /\ forall k, k <> 10%N -> allDisks d' !! k = allDisks sampleManager !! k.
Proof.
  assert (exists d', SetStatus 10%N DiskStatusBroken true sampleManager
                     = Returns None d') as [d' Hrun]
    by (eexists; vm_compute; reflexivity).
  exists d'. split; [exact Hrun |].
  destruct (SetStatus_frame sampleManager 10%N DiskStatusBroken true None d'
              Hrun) as (Hn & _ & _ & Hd & _ & _).
  split; [exact Hn | exact Hd].
Defined.

Lemma SetStatus_commit_frees_path_witness :
  exists d',
    SetStatus 10%N DiskStatusRepaired true sampleManager = Returns None d'
    /\ hostPathFilter d' !! diskFilterKey sampleDisk = None
    /\ CheckDiskInfoDuplicated 11%N sampleDiskInfo sampleNodeInfo d'
       = Returns None d'.
Proof.
  apply (SetStatus_commit_frees_path sampleManager 10%N 11%N sampleDisk
           DiskStatusRepaired 0 3
           (updateDiskStatusNoLocked 10%N DiskStatusRepaired sampleStore).2
           sampleDiskInfo sampleNodeInfo);
    try (vm_compute; reflexivity).
  - discriminate.
  - left. reflexivity.
Defined.

Lemma applySwitchReadonly_frame_witness :
  exists d',
    applySwitchReadonly 10%N true sampleManager = Returns None d'
    /\ hostPathFilter d' = hostPathFilter sampleManager
    /\ topoMgr d' = topoMgr sampleManager.
Proof.
  assert (exists d', applySwitchReadonly 10%N true sampleManager
                     = Returns None d') as [d' Hrun]
    by (eexists; vm_compute; reflexivity).
  exists d'. split; [exact Hrun |].
  destruct (applySwitchReadonly_frame sampleManager 10%N true None d' Hrun)
    as (_ & Ht & Hf & _).
  split; [exact Hf | exact Ht].
Defined.

Lemma applySwitchReadonly_replay_witness :
  exists d',
    applySwitchReadonly 10%N true sampleManager = Returns None d'
    /\ applySwitchReadonly 10%N true d' = Returns None d'.
Proof.
  assert (exists d', applySwitchReadonly 10%N true sampleManager
                     = Returns None d') as [d' Hrun]
    by (eexists; vm_compute; reflexivity).
  exists d'. split; [exact Hrun |].
  exact (proj1 (applySwitchReadonly_replay sampleManager 10%N true d' Hrun)).
Defined.

Lemma applyDroppingDisk_replay_witness :
  exists d',
    applyDroppingDisk 10%N true
      (managerWith readonlyDisk sampleNode sampleStore)
    = Returns (false, None) d'
    /\ IsDroppingDisk 10%N d' = (true, None)
    /\ forall isCommit,
         applyDroppingDisk 10%N isCommit d' = Returns (true, None) d'.
Proof.
  apply (applyDroppingDisk_replay
           (managerWith readonlyDisk sampleNode sampleStore) 10%N
           readonlyDisk (addDroppingDisk 10%N sampleStore).2);
    vm_compute; reflexivity.
Defined.

Lemma applyDroppingDisk_commit_refusal_witness :
  exists d',
    applyDroppingDisk 10%N true sampleManager = Returns (false, None) d'
    /\ allDisks d' = allDisks sampleManager.
Proof.
  destruct (applyDroppingDisk_commit_refusal sampleManager 10%N sampleDisk)
    as (d' & Hrun & Hd & _).
  - vm_compute. reflexivity.
  - reflexivity.
  - right. reflexivity.
  - exists d'. split; [exact Hrun | exact Hd].
Defined.

Lemma applyDroppedDisk_drops_witness :
  exists d' disk',
    applyDroppedDisk 10%N (managerWith markedDisk sampleNode droppingDiskStore)
    = Returns None d'
    /\ dropping markedDisk = true
    /\ dStatus (info markedDisk) = DiskStatusNormal
    /\ getDisk d' 10%N = Some disk'
    /\ dropping disk' = false
    /\ dStatus (info disk') = DiskStatusDropped.
Proof.
  destruct (applyDroppedDisk_drops (PH := memStore_handler)
              (TM := memTopo_api)
              (managerWith markedDisk sampleNode droppingDiskStore) 10%N
              markedDisk 0 (droppedDisk 10%N droppingDiskStore).2)
    as (d' & disk' & Hrun & Hd & Hdr & Hs & _);
    try (vm_compute; reflexivity).
  - discriminate.
  - exists d', disk'. split; [exact Hrun |]. split; [reflexivity |].
    split; [reflexivity |]. split; [exact Hd |]. split; [exact Hdr |].
    exact Hs.
Defined.

Lemma applyDroppedDisk_failed_write_witness :
  exists r d' disk',
    applyDroppedDisk 10%N
      (managerWith markedDisk sampleNode failingDroppingStore)
    = Returns r d'
    /\ r <> None
    /\ dropping markedDisk = true
    /\ getDisk d' 10%N = Some disk'
    /\ dropping disk' = false
    /\ dStatus (info disk') = DiskStatusNormal.
Proof.
  destruct (applyDroppedDisk_failed_write (PH := memStore_handler)
              (TM := memTopo_api)
              (managerWith markedDisk sampleNode failingDroppingStore) 10%N
              markedDisk 0 (ErrBackend 5) failingDroppingStore)
    as [Hrun Hafter]; try (vm_compute; reflexivity).
  - discriminate.
  - destruct (Hafter _ _ Hrun) as (disk' & Hd & Hdr & Hinfo).
    eexists. eexists. exists disk'. split; [exact Hrun |].
    split; [discriminate |]. split; [reflexivity |].
    split; [exact Hd |]. split; [exact Hdr |]. by rewrite Hinfo.
Defined.

Lemma applyDroppingNode_precheck_witness :
  applyDroppingNode 1%N false sampleManager
  = Returns (false, Some ErrDiskAbnormalOrNotReadOnly) sampleManager.
Proof.
  apply (proj1 (applyDroppingNode_precheck (MR := elementsRange)
                  sampleManager 1%N sampleNode
                  sampleManager_keyed ltac:(vm_compute; reflexivity)
                  eq_refl eq_refl)).
  exists 10%N, sampleDisk. split; [vm_compute; reflexivity |].
  split; [vm_compute; reflexivity |]. split; [reflexivity |].
  split; reflexivity.
Defined.

Lemma twoDiskManager_keyed : disksKeyed (allDisks twoDiskManager).
Proof.
  intros id disk H.
  change (allDisks twoDiskManager)
    with (<[10%N := lockedDisk]> ({[11%N := secondDisk]}
                                  : gmap DiskID diskItem)) in H.
  apply lookup_insert_Some in H as [[<- <-] | [_ H]]; [reflexivity |].
  apply lookup_singleton_Some in H as [<- <-]. reflexivity.
Defined.

Lemma applyDroppingNode_commit_witness :
  exists d' disk10 disk11,
    applyDroppingNode 1%N true twoDiskManager = Returns (false, None) d'
    /\ (ndropping <$> getNode twoDiskManager 1%N) = Some false
    /\ (ndropping <$> getNode d' 1%N) = Some true
    /\ dropping lockedDisk = false
    /\ getDisk d' 10%N = Some disk10 /\ dropping disk10 = true
    /\ getDisk d' 11%N = Some disk11 /\ dropping disk11 = false.
Proof.
  destruct (applyDroppingNode_commit (PH := listStore_handler)
              (MR := elementsRange) twoDiskManager 1%N
              (mkNodeItem 1%N sampleNodeInfo {[10%N; 11%N]} false))
    as (d' & Hrun & Hn & Hd).
  - reflexivity.
  - reflexivity.
  - exact twoDiskManager_keyed.
  - vm_compute. reflexivity.
  - reflexivity.
  - reflexivity.
  - destruct (Hd 10%N lockedDisk ltac:(vm_compute; reflexivity))
      as (disk10 & H10 & _ & _ & _ & _ & _ & Hdr10).
    destruct (Hd 11%N secondDisk ltac:(vm_compute; reflexivity))
      as (disk11 & H11 & _ & _ & _ & _ & _ & Hdr11).
    exists d', disk10, disk11. split; [exact Hrun |].
    split; [vm_compute; reflexivity |]. split; [by rewrite Hn |].
    split; [reflexivity |]. split; [exact H10 |].
    split; [rewrite Hdr10; vm_compute; reflexivity |].
    split; [exact H11 |]. rewrite Hdr11. vm_compute. reflexivity.
Defined.

Lemma applyAddNode_registers_witness :
  exists d',
    applyAddNode sampleNodeInfo emptyManager = Returns None d'
    /\ CheckNodeInfoDuplicated sampleNodeInfo d' = Returns (1%N, true) d'
    /\ applyAddNode sampleNodeInfo d' = Returns None d'.
Proof.
  destruct (applyAddNode_registers (PH := memStore_handler)
              (TM := memTopo_api) emptyManager sampleNodeInfo
              (updateNodeNoLocked
                 (mkNodeItem 1%N sampleNodeInfo ∅ false) emptyStore).2)
    as (d' & Hrun & _ & _ & _ & Hc & Hr).
  - vm_compute. reflexivity.
  - vm_compute. reflexivity.
  - exists d'. split; [exact Hrun |]. split; [exact Hc | exact Hr].
Defined.

Lemma applyAddNode_failed_write_witness :
  exists e d',
    applyAddNode sampleNodeInfo failingEmptyManager = Returns (Some e) d'
    /\ allNodes d' = allNodes failingEmptyManager.
Proof.
  assert (exists e d', applyAddNode sampleNodeInfo failingEmptyManager
                       = Returns (Some e) d') as (e & d' & Hrun)
    by (eexists; eexists; vm_compute; reflexivity).
  exists e, d'. split; [exact Hrun |].
  exact (proj1 (applyAddNode_failed_write failingEmptyManager sampleNodeInfo
                  (Some e) d' Hrun ltac:(discriminate))).
Defined.

Lemma applyDroppedNode_frame_witness :
  exists d',
    applyDroppedNode 1%N
      (managerWith repairedDisk droppingNode droppingNodeStore)
    = Returns None d'
    /\ hostPathFilter d'
       = hostPathFilter
           (managerWith repairedDisk droppingNode droppingNodeStore)
    /\ CheckNodeInfoDuplicated sampleNodeInfo d' = Returns (1%N, true) d'.
Proof.
  assert (exists d',
             applyDroppedNode (MR := elementsRange) 1%N
               (managerWith repairedDisk droppingNode droppingNodeStore)
             = Returns None d') as [d' Hrun]
    by (eexists; vm_compute; reflexivity).
  exists d'. split; [exact Hrun |].
  destruct (applyDroppedNode_frame _ 1%N None d' Hrun)
    as (_ & Hf & _ & _ & _ & Hc).
  split; [exact Hf |].
  apply (proj2 (Hc sampleNodeInfo)). vm_compute. reflexivity.
Defined.

Lemma GetHeartbeatChangeDisks_one_event_per_disk_witness :
  NoDup (evDiskID <$> GetHeartbeatChangeDisks 70000000000 sampleManager).
Proof.
  apply (GetHeartbeatChangeDisks_one_event_per_disk (MR := elementsRange)
           70000000000 sampleManager sampleManager_keyed).
Defined.

Lemma recoveredManager_keyed :
  disksKeyed (allDisks (managerWith recoveredDisk sampleNode sampleStore)).
Proof.
  intros id disk H.
  change (allDisks (managerWith recoveredDisk sampleNode sampleStore))
    with ({[10%N := recoveredDisk]} : gmap DiskID diskItem) in H.
  apply lookup_singleton_Some in H as [<- <-]. reflexivity.
Defined.

Lemma GetHeartbeatChangeDisks_recovered_witness :
  mkHeartbeatEvent 10%N true
  ∈ GetHeartbeatChangeDisks 100000000000
      (managerWith recoveredDisk sampleNode sampleStore).
Proof.
  apply (GetHeartbeatChangeDisks_recovered (MR := elementsRange)
           100000000000 (managerWith recoveredDisk sampleNode sampleStore)
           10%N recoveredDisk recoveredManager_keyed).
  - vm_compute. reflexivity.
  - simpl. lia.
  - reflexivity.
  - vm_compute. reflexivity.
Defined.

Lemma RefreshExpireTime_silences_witness :
  GetHeartbeatChangeDisks 160000000000
    (RefreshExpireTime_readings (fun _ => (100000000000, 100000000007))
       (managerWith recoveredDisk sampleNode sampleStore)) = [].
Proof.
  apply (RefreshExpireTime_silences (MR := elementsRange)).
  - simpl. lia.
  - intros disk. simpl. unfold Second. lia.
Defined.

Lemma IsFrequentHeartBeat_after_refresh_witness :
  IsFrequentHeartBeat 5000000000 10%N 10
    (RefreshExpireTime_readings (fun _ => (0, 7)) sampleManager)
  = (true, None).
Proof.
  rewrite (IsFrequentHeartBeat_after_refresh (fun _ => (0, 7)) 5000000000
             sampleManager 10%N sampleDisk 10).
  - reflexivity.
  - simpl. lia.
  - lia.
  - vm_compute. reflexivity.
  - unfold MinInt64, MaxInt64. simpl. lia.
Defined.

Lemma getMaxSuCount_greatest_witness :
  match getMaxSuCount mixedConfig with
  | None => CodeModes mixedConfig = []
  | Some (t, su) =>
    t ∈ CodeModes mixedConfig
    /\ 0 <= su
    /\ Forall (fun t' => Tactic_N t' + Tactic_M t' + Tactic_L t' <= su)
              (CodeModes mixedConfig)
    /\ (0 < su -> Tactic_N t + Tactic_M t + Tactic_L t = su)
    /\ (su = 0 -> CodeModes mixedConfig !! 0%nat = Some t)
  end.
Proof.
  apply (getMaxSuCount_greatest mixedConfig).
  repeat constructor; vm_compute; discriminate.
Defined.

Lemma calIDCWritableFunc_zero_witness :
  exists q,
    calIDCWritableFunc 100 4 16 (fourHosts 16) = Finished (10 * q)
    /\ q <> 0.
Proof.
  destruct (calIDCWritableFunc_zero 100 4 16 (fourHosts 16))
    as (q & _ & Hrun & Hz).
  - lia.
  - lia.
  - repeat constructor; vm_compute; discriminate.
  - vm_compute. discriminate.
  - vm_compute. lia.
  - exists q. split; [exact Hrun |].
    intros Hq. apply Hz in Hq. vm_compute in Hq. lia.
Defined.

Lemma calculateWritable_not_host_aware_witness :
  calculateWritable 0 spreadConfig (threeIdcs 16) = Finished 960.
Proof.
  rewrite (calculateWritable_not_host_aware spreadConfig (threeIdcs 16)
             (mkTactic 6 6 0) 12 4).
  - vm_compute. reflexivity.
  - reflexivity.
  - vm_compute. reflexivity.
  - discriminate.
  - reflexivity.
  - lia.
  - vm_compute. reflexivity.
  - apply insert_non_empty.
  - unfold threeIdcs.
    repeat (apply map_Forall_insert_2;
            [split; [repeat constructor; vm_compute; discriminate
                    | vm_compute; discriminate] |]).
    apply map_Forall_empty.
  - simpl. lia.
  - vm_compute. discriminate.
Defined.

Lemma dropping_precheck_pure_witness :
  exists r d',
    applyDroppingNode 1%N false sampleManager = Returns r d'
    /\ d' = sampleManager.
Proof.
  assert (exists r d', applyDroppingNode (MR := elementsRange) 1%N false
                         sampleManager = Returns r d') as (r & d' & Hrun)
    by (eexists; eexists; vm_compute; reflexivity).
  exists r, d'. split; [exact Hrun |].
  exact (proj2 (dropping_precheck_pure sampleManager d') 1%N r Hrun).
Defined.

Lemma applyDroppedDisk_edges_witness :
  applyDroppedDisk 10%N sampleManager = Returns None sampleManager.
Proof.
  apply (proj1 (applyDroppedDisk_edges (PH := memStore_handler)
                  (TM := memTopo_api) sampleManager 10%N)).
  vm_compute. reflexivity.
Defined.

Lemma validateAllocRet_ok_witness :
  validateAllocRet [10%N] sampleManager = None.
Proof.
  apply (validateAllocRet_ok sampleManager [10%N]).
  change (HostAware (cfg sampleManager)) with true. cbv iota. split.
  - intros id ->%list_elem_of_singleton. exists sampleDisk.
    vm_compute. reflexivity.
  - change (hostsOf [10%N] sampleManager) with ["h1"].
    apply NoDup_singleton.
Defined.

Lemma passDisks_locality (disk : diskItem) :
  disk ∈ passDisks -> diskLocality sampleManager disk = ("z0", "r1", "h1").
Proof.
  unfold passDisks. rewrite !elem_of_cons, elem_of_nil.
  intros [-> | [-> | [-> | []]]]; vm_compute; reflexivity.
Defined.

Lemma passDisks_allocatable :
  exists disk, disk ∈ passDisks /\ allocatable 0 disk = true.
Proof. exists reportingDisk. split; [apply list_elem_of_here | reflexivity]. Defined.

Lemma generateDiskSetStorage_node_allocators_witness :
  (exists (fuel0 : nat) ret freeChunk,
     forall fuel : nat,
       (fuel0 <= fuel)%nat ->
       exists space' stats',
         generateDiskSetStorage fuel 0 passDisks noSpace ∅ sampleManager
         = Finished (Some ret, freeChunk, space', stats'))
  /\ exists ret freeChunk space' stats' ia na,
       generateDiskSetStorage 5 0 passDisks noSpace ∅ sampleManager
       = Finished (Some ret, freeChunk, space', stats')
       /\ ret !! "z0" = Some ia
       /\ iaNodeStorages ia = [na]
       /\ naDisks na = [10%N; 11%N] /\ naWeight na = 8
       /\ na = nodeAllocatorOf (naHost na)
                 (filedUnderHost 0 sampleManager (naHost na) passDisks).
Proof.
  destruct (generateDiskSetStorage_node_allocators 0 passDisks noSpace ∅
              sampleManager (mkTactic 6 6 0) 12) as [Htotal Hsound].
  - vm_compute. reflexivity.
  - vm_compute. reflexivity.
  - vm_compute. discriminate.
  - exact passDisks_allocatable.
  - split; [exact Htotal |].
    assert (exists ret freeChunk space' stats' ia na,
               generateDiskSetStorage 5 0 passDisks noSpace ∅ sampleManager
               = Finished (Some ret, freeChunk, space', stats')
               /\ ret !! "z0" = Some ia /\ iaNodeStorages ia = [na]
               /\ naDisks na = [10%N; 11%N] /\ naWeight na = 8)
      as (ret & freeChunk & space' & stats' & ia & na & Hrun & Hia & Hna
          & Hdisks & Hweight)
      by (do 6 eexists; split; [vm_compute; reflexivity |];
          split; [vm_compute; reflexivity |];
          split; [vm_compute; reflexivity |];
          split; vm_compute; reflexivity).
    exists ret, freeChunk, space', stats', ia, na.
    split; [exact Hrun |]. split; [exact Hia |]. split; [exact Hna |].
    split; [exact Hdisks |]. split; [exact Hweight |].
    apply (Hsound 5%nat ret freeChunk space' stats' Hrun "z0" ia na Hia).
    left. rewrite Hna. apply list_elem_of_here.
Defined.

Lemma generateDiskSetStorage_idc_allocators_witness :
  (exists (fuel0 : nat) ret freeChunk,
     forall fuel : nat,
       (fuel0 <= fuel)%nat ->
       exists space' stats',
         generateDiskSetStorage fuel 0 passDisks noSpace ∅ sampleManager
         = Finished (Some ret, freeChunk, space', stats'))
  /\ exists ret freeChunk space' stats' ia,
       generateDiskSetStorage 5 0 passDisks noSpace ∅ sampleManager
       = Finished (Some ret, freeChunk, space', stats')
       /\ ret !! "z0" = Some ia
       /\ iaWeight ia = 8
       /\ NoDup (naHost <$> iaNodeStorages ia)
       /\ ret !! "z9" = None.
Proof.
  assert (forall a b,
            a ∈ passDisks -> b ∈ passDisks ->
            allocatable 0 a = true -> allocatable 0 b = true ->
            (diskLocality sampleManager a).2
            = (diskLocality sampleManager b).2 ->
            (diskLocality sampleManager a).1.1
            = (diskLocality sampleManager b).1.1) as Hcons.
  { intros a b Ha Hb _ _ _.
    by rewrite (passDisks_locality a Ha), (passDisks_locality b Hb). }
  destruct (generateDiskSetStorage_idc_allocators 0 passDisks noSpace ∅
              sampleManager (mkTactic 6 6 0) 12) as [Htotal Hsound].
  - vm_compute. reflexivity.
  - vm_compute. reflexivity.
  - vm_compute. discriminate.
  - exact passDisks_allocatable.
  - exact Hcons.
  - split; [exact Htotal |].
    assert (exists ret freeChunk space' stats',
               generateDiskSetStorage 5 0 passDisks noSpace ∅ sampleManager
               = Finished (Some ret, freeChunk, space', stats'))
      as (ret & freeChunk & space' & stats' & Hrun)
      by (do 4 eexists; vm_compute; reflexivity).
    destruct (Hsound 5%nat ret freeChunk space' stats' Hrun "z0")
      as [_ Hin].
    destruct Hin as (ia & Hia & Hw & Hnd & _).
    { vm_compute. apply list_elem_of_here. }
    destruct (Hsound 5%nat ret freeChunk space' stats' Hrun "z9")
      as [Hout _].
    exists ret, freeChunk, space', stats', ia.
    split; [exact Hrun |]. split; [exact Hia |].
    split; [rewrite Hw; vm_compute; reflexivity |].
    split; [exact Hnd |].
    apply Hout.
    change (IDC (cfg sampleManager)) with ["z0"; "z1"; "z2"].
    rewrite !elem_of_cons, elem_of_nil.
    intros [? | [? | [? | []]]]; discriminate.
Defined.

Lemma generateDiskSetStorage_nothing_to_allocate_witness :
  exists space' stats',
    generateDiskSetStorage 0 0 [brokenDisk] noSpace ∅ sampleManager
    = Finished (None, 0, space', stats')
    /\ TotalDisk space' = 1.
Proof.
  destruct (generateDiskSetStorage_nothing_to_allocate 0 0 [brokenDisk]
              noSpace ∅ sampleManager) as [Hnone _].
  { vm_compute. split; discriminate. }
  destruct Hnone as (space' & stats' & Hrun & Htotal & _).
  { intros disk ->%list_elem_of_singleton. reflexivity. }
  exists space', stats'. split; [exact Hrun |]. exact Htotal.
Defined.

Lemma calculateWritable_hangs_witness :
  calculateWritable 1000 thinConfig (oneIdc 16) = OutOfFuel
  /\ generateDiskSetStorage 1000 0 passDisks noSpace ∅ thinManager
     = OutOfFuel.
Proof.
  destruct (calculateWritable_hangs 0 passDisks noSpace ∅ thinManager
              (mkTactic 1 1 0) 2) as [Hcalc Hpass].
  - reflexivity.
  - vm_compute. reflexivity.
  - discriminate.
  - reflexivity.
  - discriminate.
  - split.
    + apply (Hcalc (oneIdc 16) 1000%nat). apply insert_non_empty.
    + apply (Hpass reportingDisk 1000%nat).
      * apply list_elem_of_here.
      * reflexivity.
Defined.
